(** * Dual-variable warm start through OSQP: a shallow embedding

    This development embeds
    [modules/planning/open_space/trajectory_smoother/dual_variable_warm_start_osqp_interface.cc]
    and states the properties of the sparse quadratic program it assembles,
    of the way the solver outcome is interpreted, and of the extraction of
    the primal solution into the two warm-start matrices.

    - [double] / [c_float] values are kept abstract behind the class
      [Scalar]: the theorems hold for every interpretation of the
      arithmetic and of [cos] / [sin].  Two interpretations are given, the
      real numbers of the Standard Library and a free term algebra that
      computes.
    - [int] values are integers of [Z] normalised by [to_int] after every
      arithmetic operation of the source.
    - [std::vector] is a list that grows at its end; an Eigen matrix is a
      record of its two dimensions and its column-major storage. *)

From Stdlib Require Import ZArith NArith List Lia Bool QArith Reals Lra Sorted.
Import ListNotations.
Local Open Scope Z_scope.

Set Implicit Arguments.

(** ** Scalars *)

Class Scalar (F : Type) : Type := {
  flit : Q -> F;          (* a floating literal of the source *)
  fadd : F -> F -> F;
  fsub : F -> F -> F;
  fmul : F -> F -> F;
  fdiv : F -> F -> F;
  fcos : F -> F;
  fsin : F -> F
}.

(** The value a read outside a container yields in the model.  The source
    has no defined behaviour there, and the theorems below read inside the
    containers only. *)
Class Dflt (T : Type) : Type := dflt : T.

#[export] Instance Dflt_Z : Dflt Z := 0.
#[export] Instance Dflt_scalar {F} `{Scalar F} : Dflt F := @flit F _ 0%Q.

(** ** The type [int] *)

Definition INT_MAX : Z := 2147483647.
Definition INT_MIN : Z := -2147483648.

Definition to_int (z : Z) : Z := (z + 2147483648) mod 4294967296 - 2147483648.

Definition iadd (a b : Z) : Z := to_int (a + b).
Definition imul (a b : Z) : Z := to_int (a * b).

(** [k % 2] of C on an [int]. *)
Definition irem (a b : Z) : Z := Z.rem a b.

(** ** Loops and vectors *)

(** [for (int i = lo; i < hi; ++i) body] where the body leaves [i] alone. *)
Definition for_range {St : Type} (lo hi : Z) (body : Z -> St -> St) (s : St)
    : St :=
  fold_left (fun acc k => body (lo + Z.of_nat k) acc)
            (seq 0 (Z.to_nat (hi - lo))) s.

Definition emplace_back {T : Type} (v : list T) (x : T) : list T := v ++ [x].

(** Size of a vector, a [size_t]. *)
Definition size {T : Type} (v : list T) : Z := Z.of_nat (length v).

(** The comparison of [CHECK_EQ] between a [size_t] and an [int]: the
    [int] is converted to the unsigned 64-bit type first. *)
Definition check_eq_size (sz i : Z) : bool := sz =? i mod 18446744073709551616.

Fixpoint list_store {T : Type} (k : nat) (x : T) (l : list T) : list T :=
  match l, k with
  | [], _ => []
  | _ :: t, O => x :: t
  | y :: t, S k' => y :: list_store k' x t
  end.

(** ** Eigen matrices *)

Record Matrix (T : Type) : Type := mkMatrix {
  rows : Z;
  cols : Z;
  coeffs : list T        (* column-major, as Eigen stores a MatrixX *)
}.

Section Matrices.
Context {T : Type} `{Dflt T}.

(** [M(r, c)] *)
Definition coeff (M : Matrix T) (r c : Z) : T :=
  nth (Z.to_nat (c * rows M + r)) (coeffs M) dflt.

(** [M(r, c) = v] *)
Definition set_coeff (M : Matrix T) (r c : Z) (v : T) : Matrix T :=
  mkMatrix (rows M) (cols M)
           (list_store (Z.to_nat (c * rows M + r)) v (coeffs M)).

(** The [nr] x [nc] matrix whose coefficient [(r, c)] is [f r c]. *)
Definition tabulate (nr nc : Z) (f : Z -> Z -> T) : Matrix T :=
  mkMatrix nr nc
    (flat_map (fun c => map (fun r => f (Z.of_nat r) (Z.of_nat c))
                            (seq 0 (Z.to_nat nr)))
              (seq 0 (Z.to_nat nc))).

(** [M.block(sr, sc, nr, nc)] *)
Definition block (M : Matrix T) (sr sc nr nc : Z) : Matrix T :=
  tabulate nr nc (fun r c => coeff M (sr + r) (sc + c)).

(** [M.transpose()] *)
Definition transpose (M : Matrix T) : Matrix T :=
  tabulate (cols M) (rows M) (fun r c => coeff M c r).

(** [M << x0, x1, ...] of Eigen's comma initialiser, which fills row by row. *)
Definition comma_init (nr nc : Z) (xs : list T) : Matrix T :=
  tabulate nr nc (fun r c => nth (Z.to_nat (r * nc + c)) xs dflt).

Definition wf_matrix (M : Matrix T) : Prop :=
  0 <= rows M /\ 0 <= cols M /\ size (coeffs M) = rows M * cols M.
End Matrices.

Section ScalarMatrices.
Context {F : Type} `{Scalar F}.

(** Sum of a non-empty sequence of products, left to right. *)
Definition fsum (l : list F) : F :=
  match l with
  | [] => flit 0%Q
  | x :: t => fold_left fadd t x
  end.

(** [A * B] *)
Definition mmul (A B : Matrix F) : Matrix F :=
  tabulate (rows A) (cols B)
    (fun r c => fsum (map (fun k => fmul (coeff A r (Z.of_nat k))
                                          (coeff B (Z.of_nat k) c))
                          (seq 0 (Z.to_nat (cols A))))).

(** [A - B] *)
Definition msub (A B : Matrix F) : Matrix F :=
  tabulate (rows A) (cols A) (fun r c => fsub (coeff A r c) (coeff B r c)).

(** [Eigen::MatrixXd::Zero(nr, nc)] *)
Definition Zero (nr nc : Z) : Matrix F := tabulate nr nc (fun _ _ => flit 0%Q).
End ScalarMatrices.

(** [M.sum()] of a [MatrixXi]. *)
Definition isum (M : Matrix Z) : Z := fold_left iadd (coeffs M) 0.

(** ** The interface object *)

Record DualVariableWarmStartOSQPInterface (F : Type) : Type := mkInterface {
  ts_ : F;
  ego_ : Matrix F;
  obstacles_edges_num_ : Matrix Z;
  obstacles_A_ : Matrix F;
  obstacles_b_ : Matrix F;
  xWS_ : Matrix F;
  horizon_ : Z;
  obstacles_num_ : Z;
  w_ev_ : F;
  l_ev_ : F;
  g_ : list F;
  offset_ : F;
  obstacles_edges_sum_ : Z;
  l_start_index_ : Z;
  n_start_index_ : Z;
  l_warm_up_ : Matrix F;
  n_warm_up_ : Matrix F;
  lambda_horizon_ : Z;
  miu_horizon_ : Z;
  num_of_variables_ : Z;
  num_of_constraints_ : Z
}.

Section Constructor.
Context {F : Type} `{Scalar F}.

(** Lines 32-69.  [None] is the fatal end of a failed [CHECK].  The two
    [size_t] arguments are naturals; the integer members are [int], as the
    casts of lines 46 and 49 and the copies of lines 72 and 73 have it. *)
Definition construct (horizon : N) (ts : F) (ego : Matrix F)
    (obstacles_edges_num : Matrix Z) (obstacles_num : N)
    (obstacles_A obstacles_b xWS : Matrix F)
    : option (DualVariableWarmStartOSQPInterface F) :=
  if negb (Z.of_N horizon <? INT_MAX) then None else
  let horizon_ := to_int (Z.of_N horizon) in
  if negb (Z.of_N obstacles_num <? INT_MAX) then None else
  let obstacles_num_ := to_int (Z.of_N obstacles_num) in
  let w_ev_ := fadd (coeff ego 1 0) (coeff ego 3 0) in
  let l_ev_ := fadd (coeff ego 0 0) (coeff ego 2 0) in
  let g_ := [fdiv l_ev_ (flit 2%Q); fdiv w_ev_ (flit 2%Q);
             fdiv l_ev_ (flit 2%Q); fdiv w_ev_ (flit 2%Q)] in
  let offset_ := fsub (fdiv (fadd (coeff ego 0 0) (coeff ego 2 0)) (flit 2%Q))
                      (coeff ego 2 0) in
  let obstacles_edges_sum_ := isum obstacles_edges_num in
  let l_start_index_ := 0 in
  let n_start_index_ :=
    iadd l_start_index_ (imul obstacles_edges_sum_ (iadd horizon_ 1)) in
  let l_warm_up_ := Zero obstacles_edges_sum_ (iadd horizon_ 1) in
  let n_warm_up_ := Zero (imul 4 obstacles_num_) (iadd horizon_ 1) in
  let lambda_horizon_ := imul obstacles_edges_sum_ (iadd horizon_ 1) in
  let miu_horizon_ := imul (imul obstacles_num_ 4) (iadd horizon_ 1) in
  let num_of_variables_ := iadd lambda_horizon_ miu_horizon_ in
  let num_of_constraints_ :=
    iadd (imul (imul 3 obstacles_num_) (iadd horizon_ 1)) num_of_variables_ in
  Some (mkInterface ts ego obstacles_edges_num obstacles_A obstacles_b xWS
          horizon_ obstacles_num_ w_ev_ l_ev_ g_ offset_
          obstacles_edges_sum_ l_start_index_ n_start_index_
          l_warm_up_ n_warm_up_ lambda_horizon_ miu_horizon_
          num_of_variables_ num_of_constraints_).

(** Lines 353-357. *)
Definition get_optimization_results (st : DualVariableWarmStartOSQPInterface F)
    : Matrix F * Matrix F :=
  (l_warm_up_ st, n_warm_up_ st).
End Constructor.

(** ** Objective matrix, lines 177-239 *)

Section AssembleP.
Context {F : Type} `{Scalar F}.
Variable st : DualVariableWarmStartOSQPInterface F.

(** Lines 195-199: the block [Aj], column by column, behind [P_tmp]. *)
Definition P_tmp_block (Aj : Matrix F) (current_edges_num : Z)
    (P_tmp : list F) : list F :=
  for_range 0 current_edges_num (fun c P_tmp =>
    for_range 0 current_edges_num (fun r P_tmp =>
      emplace_back P_tmp (coeff Aj r c)) P_tmp) P_tmp.

(** Lines 187-202: one obstacle of the first loop; the state is
    [(P_tmp, edges_counter)], or [None] once a [CHECK_EQ] has failed. *)
Definition P_tmp_obstacle (current_edges_num : Z) (acc : option (list F * Z))
    : option (list F * Z) :=
  match acc with
  | None => None
  | Some (P_tmp, edges_counter) =>
    let Aj := block (obstacles_A_ st) edges_counter 0 current_edges_num 2 in
    let Aj := mmul Aj (transpose Aj) in
    if negb (current_edges_num =? cols Aj) then None else
    if negb (current_edges_num =? rows Aj) then None else
    Some (P_tmp_block Aj current_edges_num P_tmp,
          iadd edges_counter current_edges_num)
  end.

(** Lines 185-203. *)
Definition P_tmp_loop : option (list F * Z) :=
  for_range 0 (obstacles_num_ st) (fun j acc =>
    let current_edges_num := coeff (obstacles_edges_num_ st) j 0 in
    P_tmp_obstacle current_edges_num acc) (Some ([], 0)).

Record PState : Type := mkPState {
  P_data : list F;
  P_indices : list Z;
  P_indptr : list Z;
  l_index : Z;
  P_first_row_location : Z;
  P_edges_counter : Z
}.

(** Lines 218-224: the columns of one obstacle. *)
Definition P_obstacle_columns (current_edges_num : Z) (s : PState) : PState :=
  for_range 0 current_edges_num (fun c s =>
    let P_indptr := emplace_back (P_indptr s) (P_first_row_location s) in
    let P_indices :=
      for_range 0 current_edges_num (fun r P_indices =>
        emplace_back P_indices (iadd r (l_index s))) (P_indices s) in
    mkPState (P_data s) P_indices P_indptr (l_index s)
             (iadd (P_first_row_location s) current_edges_num)
             (P_edges_counter s)) s.

(** Lines 218-228: one obstacle of the second loop. *)
Definition P_step_obstacle (current_edges_num : Z) (s : PState) : PState :=
  let s := P_obstacle_columns current_edges_num s in
  mkPState (P_data s) (P_indices s) (P_indptr s)
           (iadd (l_index s) current_edges_num)
           (P_first_row_location s)
           (iadd (P_edges_counter s) current_edges_num).

(** Lines 215-229. *)
Definition P_step_obstacles (s : PState) : PState :=
  for_range 0 (obstacles_num_ st) (fun j s =>
    let current_edges_num := coeff (obstacles_edges_num_ st) j 0 in
    P_step_obstacle current_edges_num s) s.

(** Lines 208-230. *)
Definition P_steps (P_tmp : list F) (s : PState) : PState :=
  for_range 0 (iadd (horizon_ st) 1) (fun i s =>
    let P_data := fold_left emplace_back P_tmp (P_data s) in
    P_step_obstacles
      (mkPState P_data (P_indices s) (P_indptr s) (l_index s)
                (P_first_row_location s) 0)) s.

Definition assemble_P (P_data0 : list F) (P_indices0 P_indptr0 : list Z)
    : option (list F * list Z * list Z) :=
  match P_tmp_loop with
  | None => None
  | Some (P_tmp, edges_counter) =>
    let s := P_steps P_tmp
               (mkPState P_data0 P_indices0 P_indptr0 (l_start_index_ st) 0
                         edges_counter) in
    if negb (check_eq_size (size (P_indptr s)) (lambda_horizon_ st)) then None
    else
    let P_indptr :=
      for_range (lambda_horizon_ st) (iadd (num_of_variables_ st) 1)
        (fun i P_indptr => emplace_back P_indptr (P_first_row_location s))
        (P_indptr s) in
    if negb (size (P_data s) =? size (P_indices s)) then None else
    if negb (check_eq_size (size P_indptr) (iadd (num_of_variables_ st) 1))
    then None
    else Some (P_data s, P_indices s, P_indptr)
  end.
End AssembleP.

Arguments PState : clear implicits.

(** ** Constraint matrix, lines 241-351 *)

Section AssembleConstraint.
Context {F : Type} `{Scalar F}.
Variable st : DualVariableWarmStartOSQPInterface F.

Record AState : Type := mkAState {
  A_data : list F;
  A_indices : list Z;
  A_indptr : list Z;
  r1_index : Z;
  r2_index : Z;
  r3_index : Z;
  r4_index : Z;
  first_row_location : Z
}.

(** Lines 286-302: the columns of the lambda variables of one obstacle at
    one step. *)
Definition A_lambda_columns (r1_block r2_block : Matrix F)
    (current_edges_num : Z) (s : AState) : AState :=
  for_range 0 current_edges_num (fun k s =>
    let A_data := emplace_back (A_data s) (coeff r1_block 0 k) in
    let A_indices := emplace_back (A_indices s) (r1_index s) in
    let A_data := emplace_back A_data (coeff r1_block 1 k) in
    let A_indices := emplace_back A_indices (iadd (r1_index s) 1) in
    let A_data := emplace_back A_data (coeff r2_block 0 k) in
    let A_indices := emplace_back A_indices (r2_index s) in
    let A_data := emplace_back A_data (flit 1%Q) in
    let A_indices := emplace_back A_indices (r3_index s) in
    let r3_index := iadd (r3_index s) 1 in
    let A_indptr := emplace_back (A_indptr s) (first_row_location s) in
    let first_row_location := iadd (first_row_location s) 4 in
    mkAState A_data A_indices A_indptr (r1_index s) (r2_index s) r3_index
             (r4_index s) first_row_location) s.

(** Lines 263-265. *)
Definition rotation (i : Z) : Matrix F :=
  comma_init 2 2 [fcos (coeff (xWS_ st) 2 i); fsin (coeff (xWS_ st) 2 i);
                  fsin (coeff (xWS_ st) 2 i); fcos (coeff (xWS_ st) 2 i)].

(** Lines 267-269. *)
Definition translation (i : Z) : Matrix F :=
  comma_init 1 2
    [fadd (coeff (xWS_ st) 0 i) (fmul (fcos (coeff (xWS_ st) 2 i)) (offset_ st));
     fadd (coeff (xWS_ st) 1 i) (fmul (fsin (coeff (xWS_ st) 2 i)) (offset_ st))].

(** Lines 274-307: one obstacle at one step; the state carries
    [edges_counter]. *)
Definition A_lambda_obstacle (R t_trans : Matrix F) (current_edges_num : Z)
    (s : AState * Z) : AState * Z :=
  let '(s, edges_counter) := s in
  let Aj := block (obstacles_A_ st) edges_counter 0 current_edges_num 2 in
  let bj := block (obstacles_b_ st) edges_counter 0 current_edges_num 1 in
  let r1_block := mmul R (transpose Aj) in
  let r2_block := msub (mmul t_trans (transpose Aj)) (transpose bj) in
  let s := A_lambda_columns r1_block r2_block current_edges_num s in
  (mkAState (A_data s) (A_indices s) (A_indptr s)
            (iadd (r1_index s) 2) (iadd (r2_index s) 1) (r3_index s)
            (r4_index s) (first_row_location s),
   iadd edges_counter current_edges_num).

(** Lines 272-308. *)
Definition A_lambda_obstacles (R t_trans : Matrix F) (s : AState * Z)
    : AState * Z :=
  for_range 0 (obstacles_num_ st) (fun j s =>
    let current_edges_num := coeff (obstacles_edges_num_ st) j 0 in
    A_lambda_obstacle R t_trans current_edges_num s) s.

(** Lines 260-309. *)
Definition A_lambda_steps (s : AState) : AState :=
  for_range 0 (iadd (horizon_ st) 1) (fun i s =>
    fst (A_lambda_obstacles (rotation i) (translation i) (s, 0))) s.

(** Lines 318-339: the four columns of the mu variables of one obstacle
    at one step. *)
Definition A_mu_columns (s : AState) : AState :=
  for_range 0 4 (fun k s =>
    let A_data :=
      if k <? 2 then emplace_back (A_data s) (flit 1%Q)
      else emplace_back (A_data s) (flit (-1)%Q) in
    let A_indices := emplace_back (A_indices s) (iadd (r1_index s) (irem k 2)) in
    let A_data := emplace_back A_data (nth (Z.to_nat k) (g_ st) dflt) in
    let A_indices := emplace_back A_indices (r2_index s) in
    let A_data := emplace_back A_data (flit 1%Q) in
    let A_indices := emplace_back A_indices (r4_index s) in
    let r4_index := iadd (r4_index s) 1 in
    let A_indptr := emplace_back (A_indptr s) (first_row_location s) in
    let first_row_location := iadd (first_row_location s) 3 in
    mkAState A_data A_indices A_indptr (r1_index s) (r2_index s) (r3_index s)
             r4_index first_row_location) s.

(** Lines 318-343: one obstacle at one step. *)
Definition A_mu_obstacle (s : AState) : AState :=
  let s := A_mu_columns s in
  mkAState (A_data s) (A_indices s) (A_indptr s)
           (iadd (r1_index s) 2) (iadd (r2_index s) 1) (r3_index s)
           (r4_index s) (first_row_location s).

(** Lines 316-345. *)
Definition A_mu_steps (s : AState) : AState :=
  for_range 0 (iadd (horizon_ st) 1) (fun i s =>
    for_range 0 (obstacles_num_ st) (fun j s => A_mu_obstacle s) s) s.

Definition assemble_constraint (A_data0 : list F) (A_indices0 A_indptr0 : list Z)
    : option (list F * list Z * list Z) :=
  let r1 := 0 in
  let r2 := imul (imul 2 (obstacles_num_ st)) (iadd (horizon_ st) 1) in
  let r3 := imul (imul 3 (obstacles_num_ st)) (iadd (horizon_ st) 1) in
  let r4 :=
    iadd (imul (imul 3 (obstacles_num_ st)) (iadd (horizon_ st) 1))
         (lambda_horizon_ st) in
  let s := A_lambda_steps (mkAState A_data0 A_indices0 A_indptr0 r1 r2 r3 r4 0) in
  let r1 := 0 in
  let r2 := imul (imul 2 (obstacles_num_ st)) (iadd (horizon_ st) 1) in
  let s := A_mu_steps
             (mkAState (A_data s) (A_indices s) (A_indptr s) r1 r2
                       (r3_index s) (r4_index s) (first_row_location s)) in
  let A_indptr := emplace_back (A_indptr s) (first_row_location s) in
  if negb (size (A_data s) =? size (A_indices s)) then None else
  if negb (check_eq_size (size A_indptr) (iadd (num_of_variables_ st) 1))
  then None
  else Some (A_data s, A_indices s, A_indptr).
End AssembleConstraint.

Arguments AState : clear implicits.

(** ** The solver boundary *)

Record OSQPSettings (F : Type) : Type := mkSettings {
  alpha : F;
  eps_abs : F;
  eps_rel : F;
  max_iter : Z;
  polish : Z
}.

(** What [csc_matrix] wraps. *)
Record csc (F : Type) : Type := mkCsc {
  csc_m : Z;
  csc_n : Z;
  csc_nzmax : Z;
  csc_x : list F;
  csc_i : list Z;
  csc_p : list Z
}.

(** A C array whose cells hold nothing until they are written. *)
Definition c_array (F : Type) : Type := list (option F).

Definition new_array {F : Type} (n : Z) : c_array F := repeat None (Z.to_nat n).

Definition array_store {F : Type} (a : c_array F) (i : Z) (v : F) : c_array F :=
  list_store (Z.to_nat i) (Some v) a.

Record OSQPData (F : Type) : Type := mkData {
  data_n : Z;
  data_m : Z;
  data_P : csc F;
  data_q : c_array F;
  data_A : csc F;
  data_l : c_array F;
  data_u : c_array F
}.

(** The solver is an external collaborator: its functions are taken as given. *)
Class OSQP (F : Type) : Type := {
  OSQPWorkspace : Type;
  osqp_set_default_settings : OSQPSettings F;
  osqp_setup : OSQPData F -> OSQPSettings F -> OSQPWorkspace;
  osqp_solve : OSQPWorkspace -> OSQPWorkspace;
  info_status_val : OSQPWorkspace -> Z;     (* work->info->status_val *)
  solution_x : OSQPWorkspace -> list F      (* work->solution->x *)
}.

(** The blocks the call takes from the solver's allocator. *)
Inductive native : Type :=
| NSettings | NData | NCscP | NCscA | NWorkspace.

Definition native_eqb (a b : native) : bool :=
  match a, b with
  | NSettings, NSettings | NData, NData | NCscP, NCscP
  | NCscA, NCscA | NWorkspace, NWorkspace => true
  | _, _ => false
  end.

(** The live blocks. *)
Definition heap : Type := list native.

Definition c_malloc (b : native) (h : heap) : heap := b :: h.

Fixpoint c_free (b : native) (h : heap) : heap :=
  match h with
  | [] => []
  | b' :: t => if native_eqb b b' then t else b' :: c_free b t
  end.

(** ** The solve entry point, lines 71-175 *)

Section Optimize.
Context {F : Type} `{Scalar F} `{OSQP F}.

(** Lines 81-84. *)
Definition assemble_q (st : DualVariableWarmStartOSQPInterface F) : c_array F :=
  let kNumParam := num_of_variables_ st in
  for_range 0 kNumParam (fun i q => array_store q i (flit 0%Q))
            (new_array kNumParam).

(** Lines 93-106; the result is [(lb, ub)]. *)
Definition assemble_bounds (st : DualVariableWarmStartOSQPInterface F)
    : c_array F * c_array F :=
  let kNumConst := num_of_constraints_ st in
  for_range 0 kNumConst (fun i '(lb, ub) =>
    let lb := array_store lb i (flit 0%Q) in
    let lb :=
      if (imul (imul 2 (obstacles_num_ st)) (iadd (horizon_ st) 1) <=? i)
         && (i <? imul (imul 3 (obstacles_num_ st)) (iadd (horizon_ st) 1))
      then array_store lb i (flit 0%Q) else lb in
    let ub :=
      if i <? imul (imul 2 (obstacles_num_ st)) (iadd (horizon_ st) 1)
      then array_store ub i (flit 0%Q)
      else array_store ub i (flit (20000000000000000000 # 1)%Q) in
    (lb, ub)) (new_array kNumConst, new_array kNumConst).

(** Lines 113-118. *)
Definition problem_settings : OSQPSettings F :=
  let settings := osqp_set_default_settings in
  let settings := mkSettings (flit 1%Q) (eps_abs settings) (eps_rel settings)
                             (max_iter settings) (polish settings) in
  let settings := mkSettings (alpha settings) (flit (1 # 100000)%Q)
                             (eps_rel settings) (max_iter settings)
                             (polish settings) in
  let settings := mkSettings (alpha settings) (eps_abs settings)
                             (flit (1 # 100000)%Q) (max_iter settings)
                             (polish settings) in
  let settings := mkSettings (alpha settings) (eps_abs settings)
                             (eps_rel settings) 5000 (polish settings) in
  mkSettings (alpha settings) (eps_abs settings) (eps_rel settings)
             (max_iter settings) 1.

(** Lines 72-106 and 121-130: the problem handed to the solver; [None]
    when a [CHECK] of an assembler fails. *)
Definition populate_data (st : DualVariableWarmStartOSQPInterface F)
    : option (OSQPData F) :=
  let kNumParam := num_of_variables_ st in
  let kNumConst := num_of_constraints_ st in
  match assemble_P st [] [] [] with
  | None => None
  | Some (P_data, P_indices, P_indptr) =>
    let q := assemble_q st in
    match assemble_constraint st [] [] [] with
    | None => None
    | Some (A_data, A_indices, A_indptr) =>
      let '(lb, ub) := assemble_bounds st in
      let n := kNumParam in
      let m := kNumConst in
      Some (mkData n m
              (mkCsc n n (size P_data) P_data P_indices P_indptr) q
              (mkCsc m n (size A_data) A_data A_indices A_indptr) lb ub)
    end
  end.

(** Lines 151-156 and 160-165: [nrows] entries of [x] per step go to one
    column of [M]; the state is [(M, variable_index)]. *)
Definition extract_block (st : DualVariableWarmStartOSQPInterface F)
    (x : list F) (nrows : Z) (s : Matrix F * Z) : Matrix F * Z :=
  for_range 0 (iadd (horizon_ st) 1) (fun i s =>
    for_range 0 nrows (fun j '(M, variable_index) =>
      (set_coeff M j i (nth (Z.to_nat variable_index) x dflt),
       iadd variable_index 1)) s) s.

Definition with_warm_up (st : DualVariableWarmStartOSQPInterface F)
    (l n : Matrix F) : DualVariableWarmStartOSQPInterface F :=
  mkInterface (ts_ st) (ego_ st) (obstacles_edges_num_ st) (obstacles_A_ st)
    (obstacles_b_ st) (xWS_ st) (horizon_ st) (obstacles_num_ st) (w_ev_ st)
    (l_ev_ st) (g_ st) (offset_ st) (obstacles_edges_sum_ st)
    (l_start_index_ st) (n_start_index_ st) l n (lambda_horizon_ st)
    (miu_horizon_ st) (num_of_variables_ st) (num_of_constraints_ st).

(** Lines 71-175.  The result is the returned flag, the object after the
    call and the blocks still live; [None] when a [CHECK] fails. *)
Definition optimize (st : DualVariableWarmStartOSQPInterface F) (h : heap)
    : option (bool * DualVariableWarmStartOSQPInterface F * heap) :=
  match populate_data st with
  | None => None
  | Some data =>
    let h := c_malloc NSettings h in
    let settings := problem_settings in
    let h := c_malloc NData h in
    let h := c_malloc NCscP h in
    let h := c_malloc NCscA h in
    let work := osqp_setup data settings in
    let h := c_malloc NWorkspace h in
    let work := osqp_solve work in
    if negb (info_status_val work =? 1) && negb (info_status_val work =? 2)
    then Some (false, st, h)
    else
      let variable_index := 0 in
      let '(l_warm_up, variable_index) :=
        extract_block st (solution_x work) (obstacles_edges_sum_ st)
                      (l_warm_up_ st, variable_index) in
      let '(n_warm_up, variable_index) :=
        extract_block st (solution_x work) (imul 4 (obstacles_num_ st))
                      (n_warm_up_ st, variable_index) in
      let h := c_free NWorkspace h in
      let h := c_free NCscA h in
      let h := c_free NCscP h in
      let h := c_free NData h in
      let h := c_free NSettings h in
      Some (true, with_warm_up st l_warm_up n_warm_up, h)
  end.
End Optimize.

(** ** Interpretations of the scalars and of the solver *)

(** Exact arithmetic on the real numbers. *)
#[export] Instance Scalar_R : Scalar R := {|
  flit := Q2R;
  fadd := Rplus;
  fsub := Rminus;
  fmul := Rmult;
  fdiv := Rdiv;
  fcos := cos;
  fsin := sin
|}.

(** The term algebra: every scalar is the expression that computes it. *)
Inductive sym : Type :=
| SLit (q : Q)
| SAdd (a b : sym)
| SSub (a b : sym)
| SMul (a b : sym)
| SDiv (a b : sym)
| SCos (a : sym)
| SSin (a : sym).

#[export] Instance Scalar_sym : Scalar sym := {|
  flit := SLit;
  fadd := SAdd;
  fsub := SSub;
  fmul := SMul;
  fdiv := SDiv;
  fcos := SCos;
  fsin := SSin
|}.

(** A solver that ends with the given status and primal vector. *)
Definition OSQP_returning {F : Type} `{Scalar F} (status : Z) (x : list F)
    : OSQP F := {|
  OSQPWorkspace := Z * list F;
  osqp_set_default_settings :=
    mkSettings (flit 1%Q) (flit 1%Q) (flit 1%Q) 4000 0;
  osqp_setup := fun _ _ => (0, []);
  osqp_solve := fun _ => (status, x);
  info_status_val := fst;
  solution_x := snd
|}.

(** ** Vocabulary of the statements *)

Definition zrange (n : Z) : list Z := map Z.of_nat (seq 0 (Z.to_nat n)).

Definition zsum (l : list Z) : Z := fold_right Z.add 0 l.

(** Total number of obstacle edges. *)
Definition sum_edges (edges : Matrix Z) : Z := zsum (coeffs edges).

Definition sum_squares (edges : Matrix Z) : Z :=
  zsum (map (fun e => e * e) (coeffs edges)).

(** Edge count of obstacle [j] and the number of edges stacked before it. *)
Definition edge_count (edges : Matrix Z) (j : Z) : Z :=
  nth (Z.to_nat j) (coeffs edges) 0.

Definition edge_offset (edges : Matrix Z) (j : Z) : Z :=
  zsum (firstn (Z.to_nat j) (coeffs edges)).

(** A column of a sparse matrix: its stored (row, value) pairs, in order. *)
Abbreviation column F := (list (Z * F)).

(** Column [k] of the matrix a CSC triple stores. *)
Definition csc_column {F : Type} (data : list F) (indices indptr : list Z)
    (k : Z) : column F :=
  let lo := nth (Z.to_nat k) indptr 0 in
  let hi := nth (Z.to_nat (k + 1)) indptr 0 in
  firstn (Z.to_nat (hi - lo)) (skipn (Z.to_nat lo) (combine indices data)).

Definition nondecreasing (l : list Z) : Prop :=
  forall i j : nat, (i <= j < length l)%nat -> nth i l 0 <= nth j l 0.

(** [a[i]] of a C array. *)
Definition array_at {F : Type} (a : c_array F) (i : Z) : option F :=
  nth (Z.to_nat i) a None.

Section Vocabulary.
Context {F : Type} `{Scalar F}.

(** What the constructor may be given: the two counts pass its checks;
    the edge counts are one non-negative number per obstacle; the stacked
    half-planes, the trajectory and the ego extents have the shapes the
    code reads; the numbers of stored entries of the two sparse matrices
    fit the type [int] of the counters that run over them. *)
Record valid_input (horizon : N) (ego : Matrix F) (edges : Matrix Z)
    (obstacles_num : N) (A b xWS : Matrix F) : Prop := {
  vi_horizon : Z.of_N horizon < INT_MAX;
  vi_obstacles : Z.of_N obstacles_num < INT_MAX;
  vi_edges_rows : rows edges = Z.of_N obstacles_num;
  vi_edges_cols : cols edges = 1;
  vi_edges_size : size (coeffs edges) = Z.of_N obstacles_num;
  vi_edges_nonneg : Forall (fun e => 0 <= e) (coeffs edges);
  vi_A_rows : rows A = sum_edges edges;
  vi_A_cols : cols A = 2;
  vi_A_wf : wf_matrix A;
  vi_b_rows : rows b = sum_edges edges;
  vi_b_cols : cols b = 1;
  vi_b_wf : wf_matrix b;
  vi_xWS_rows : 3 <= rows xWS;
  vi_xWS_cols : cols xWS = Z.of_N horizon + 1;
  vi_xWS_wf : wf_matrix xWS;
  vi_ego_rows : rows ego = 4;
  vi_ego_cols : cols ego = 1;
  vi_ego_wf : wf_matrix ego;
  vi_nnz_A :
    4 * sum_edges edges * (Z.of_N horizon + 1)
    + 12 * Z.of_N obstacles_num * (Z.of_N horizon + 1) <= INT_MAX;
  vi_nnz_P : sum_squares edges * (Z.of_N horizon + 1) <= INT_MAX
}.

(** The half-extent vector [g] the constructor derives from the ego extents. *)
Definition footprint (ego : Matrix F) : list F :=
  let w_ev := fadd (coeff ego 1 0) (coeff ego 3 0) in
  let l_ev := fadd (coeff ego 0 0) (coeff ego 2 0) in
  [fdiv l_ev (flit 2%Q); fdiv w_ev (flit 2%Q);
   fdiv l_ev (flit 2%Q); fdiv w_ev (flit 2%Q)].

(** Entry [(r, c)] of [Aj * Aj^T] for the obstacle whose rows of
    [obstacles_A] start at [off]. *)
Definition gram (A : Matrix F) (off r c : Z) : F :=
  fadd (fmul (coeff A (off + r) 0) (coeff A (off + c) 0))
       (fmul (coeff A (off + r) 1) (coeff A (off + c) 1)).

Section Columns.
Variable st : DualVariableWarmStartOSQPInterface F.

(** The column the code stores for the lambda variable of edge [k]
    (stacked position [off + k]) when the row counters stand at
    [r1], [r2], [r3] in step [i]. *)
Definition lambda_column (i r1 r2 r3 offk : Z) : column F :=
  let theta := coeff (xWS_ st) 2 i in
  let a0 := coeff (obstacles_A_ st) offk 0 in
  let a1 := coeff (obstacles_A_ st) offk 1 in
  let t0 := fadd (coeff (xWS_ st) 0 i) (fmul (fcos theta) (offset_ st)) in
  let t1 := fadd (coeff (xWS_ st) 1 i) (fmul (fsin theta) (offset_ st)) in
  [ (r1, fadd (fmul (fcos theta) a0) (fmul (fsin theta) a1));
    (r1 + 1, fadd (fmul (fsin theta) a0) (fmul (fcos theta) a1));
    (r2, fsub (fadd (fmul t0 a0) (fmul t1 a1)) (coeff (obstacles_b_ st) offk 0));
    (r3, flit 1%Q) ].

(** The column the code stores for the mu variable of corner [k]. *)
Definition mu_column (r1 r2 r4 k : Z) : column F :=
  [ (r1 + k mod 2, if k <? 2 then flit 1%Q else flit (-1)%Q);
    (r2, nth (Z.to_nat k) (g_ st) dflt);
    (r4, flit 1%Q) ].

Fixpoint P_block_columns (lidx off : Z) (es : list Z) : list (column F) :=
  match es with
  | [] => []
  | e :: t =>
    map (fun c => map (fun r => (lidx + r, gram (obstacles_A_ st) off r c))
                      (zrange e)) (zrange e)
    ++ P_block_columns (lidx + e) (off + e) t
  end.

Fixpoint lambda_block_columns (i r1 r2 r3 off : Z) (es : list Z)
    : list (column F) :=
  match es with
  | [] => []
  | e :: t =>
    map (fun k => lambda_column i r1 r2 (r3 + k) (off + k)) (zrange e)
    ++ lambda_block_columns i (r1 + 2) (r2 + 1) (r3 + e) (off + e) t
  end.

(** The columns of the lambda variables of [P] for the first [k] steps. *)
Definition P_columns_upto (k : Z) : list (column F) :=
  let es := coeffs (obstacles_edges_num_ st) in
  flat_map (fun i => P_block_columns (i * zsum es) 0 es) (zrange k).

(** All columns of [P], in storage order. *)
Definition P_columns : list (column F) :=
  P_columns_upto (horizon_ st + 1)
  ++ repeat [] (Z.to_nat (miu_horizon_ st)).

(** The lambda and the mu columns of the constraint matrix for the first
    [k] steps. *)
Definition lambda_columns_upto (k : Z) : list (column F) :=
  let es := coeffs (obstacles_edges_num_ st) in
  let N := obstacles_num_ st in
  let N' := N * (horizon_ st + 1) in
  flat_map (fun i => lambda_block_columns i (2 * (i * N)) (2 * N' + i * N)
                       (3 * N' + i * zsum es) 0 es)
           (zrange k).

Definition mu_obstacle_columns (r1 r2 r4 : Z) : list (column F) :=
  map (fun k => mu_column r1 r2 (r4 + k) k) (zrange 4).

Definition mu_step_columns (i m : Z) : list (column F) :=
  let N := obstacles_num_ st in
  let N' := N * (horizon_ st + 1) in
  flat_map (fun j => mu_obstacle_columns (2 * (i * N + j)) (2 * N' + i * N + j)
                       (3 * N' + lambda_horizon_ st + 4 * (i * N + j)))
           (zrange m).

Definition mu_columns_upto (k : Z) : list (column F) :=
  flat_map (fun i => mu_step_columns i (obstacles_num_ st)) (zrange k).

(** All columns of the constraint matrix, in storage order. *)
Definition A_columns : list (column F) :=
  lambda_columns_upto (horizon_ st + 1) ++ mu_columns_upto (horizon_ st + 1).
End Columns.

(** Starting offsets of consecutive columns from offset [p]. *)
Fixpoint starts (p : Z) (cs : list (column F)) : list Z :=
  match cs with
  | [] => []
  | c :: t => p :: starts (p + size c) t
  end.

(** The three CSC vectors store exactly the columns [cs]. *)
Definition stores (cs : list (column F)) (data : list F)
    (indices indptr : list Z) : Prop :=
  data = flat_map (map snd) cs /\
  indices = flat_map (map fst) cs /\
  indptr = starts 0 cs ++ [size (concat cs)].
End Vocabulary.

(** What the constructor establishes and every call preserves. *)
Record wf_interface {F : Type} (st : DualVariableWarmStartOSQPInterface F)
    : Prop := {
  wf_horizon : 0 <= horizon_ st < INT_MAX;
  wf_obstacles : 0 <= obstacles_num_ st;
  wf_edges_size : size (coeffs (obstacles_edges_num_ st)) = obstacles_num_ st;
  wf_edges_nonneg : Forall (fun e => 0 <= e) (coeffs (obstacles_edges_num_ st));
  wf_edges_sum : obstacles_edges_sum_ st = sum_edges (obstacles_edges_num_ st);
  wf_l_start : l_start_index_ st = 0;
  wf_lambda :
    lambda_horizon_ st = sum_edges (obstacles_edges_num_ st) * (horizon_ st + 1);
  wf_miu : miu_horizon_ st = 4 * obstacles_num_ st * (horizon_ st + 1);
  wf_variables : num_of_variables_ st = lambda_horizon_ st + miu_horizon_ st;
  wf_constraints :
    num_of_constraints_ st
    = 3 * obstacles_num_ st * (horizon_ st + 1) + num_of_variables_ st;
  wf_nnz_A :
    4 * sum_edges (obstacles_edges_num_ st) * (horizon_ st + 1)
    + 12 * obstacles_num_ st * (horizon_ st + 1) <= INT_MAX;
  wf_nnz_P :
    sum_squares (obstacles_edges_num_ st) * (horizon_ st + 1) <= INT_MAX;
  wf_l_rows : rows (l_warm_up_ st) = sum_edges (obstacles_edges_num_ st);
  wf_l_cols : cols (l_warm_up_ st) = horizon_ st + 1;
  wf_l_size : size (coeffs (l_warm_up_ st))
              = sum_edges (obstacles_edges_num_ st) * (horizon_ st + 1);
  wf_n_rows : rows (n_warm_up_ st) = 4 * obstacles_num_ st;
  wf_n_cols : cols (n_warm_up_ st) = horizon_ st + 1;
  wf_n_size : size (coeffs (n_warm_up_ st))
              = 4 * obstacles_num_ st * (horizon_ st + 1)
}.

(** The states the object goes through: after construction, after any
    number of calls of [optimize]. *)
Inductive reachable {F : Type} `{Scalar F} `{OSQP F}
    (st0 : DualVariableWarmStartOSQPInterface F)
    : DualVariableWarmStartOSQPInterface F -> Prop :=
| reach_constructed : reachable st0 st0
| reach_optimize : forall st h b st' h',
    reachable st0 st -> optimize st h = Some (b, st', h') -> reachable st0 st'.

(** The same, when no call has returned [true] so far. *)
Inductive unsolved {F : Type} `{Scalar F} `{OSQP F}
    (st0 : DualVariableWarmStartOSQPInterface F)
    : DualVariableWarmStartOSQPInterface F -> Prop :=
| unsolved_constructed : unsolved st0 st0
| unsolved_failed : forall st h st' h',
    unsolved st0 st -> optimize st h = Some (false, st', h') -> unsolved st0 st'.

(** Two matrices of the same dimensions and storage size. *)
Definition same_shape {F : Type} (M M' : Matrix F) : Prop :=
  rows M' = rows M /\ cols M' = cols M /\
  length (coeffs M') = length (coeffs M).

Section Outcome.
Context {F : Type} `{Scalar F} `{OSQP F}.

(** The workspace the solver leaves behind in a call of [optimize]. *)
Definition solver_outcome (st : DualVariableWarmStartOSQPInterface F)
    : option OSQPWorkspace :=
  match populate_data st with
  | None => None
  | Some data => Some (osqp_solve (osqp_setup data problem_settings))
  end.

(** Status "solved" (1) or "solved inaccurately" (2). *)
Definition solved (work : OSQPWorkspace) : Prop :=
  info_status_val work = 1 \/ info_status_val work = 2.

(** [st] is a state of the object constructed from the given arguments. *)
Definition built_from (horizon : N) (ts : F) (ego : Matrix F)
    (edges : Matrix Z) (obstacles_num : N) (A b xWS : Matrix F)
    (st : DualVariableWarmStartOSQPInterface F) : Prop :=
  exists st0,
    construct horizon ts ego edges obstacles_num A b xWS = Some st0 /\
    reachable st0 st.
End Outcome.

(** ** Two concrete scenes *)

(** A scene over the term algebra: horizon 1, two obstacles with one and
    two edges, and a primal vector of the 22 variables. *)
Definition slit (z : Z) : sym := SLit (inject_Z z).

Definition scene_ego : Matrix sym := mkMatrix 4 1 [slit 3; slit 1; slit 1; slit 1].
Definition scene_edges : Matrix Z := mkMatrix 2 1 [1; 2].
Definition scene_A : Matrix sym :=
  mkMatrix 3 2 [slit 10; slit 11; slit 12; slit 20; slit 21; slit 22].
Definition scene_b : Matrix sym := mkMatrix 3 1 [slit 5; slit 6; slit 7].
Definition scene_xWS : Matrix sym :=
  mkMatrix 3 2 [slit 100; slit 101; slit 102; slit 200; slit 201; slit 202].
Definition scene_x : list sym := map slit (zrange 22).

Definition scene_st : DualVariableWarmStartOSQPInterface sym :=
  Eval vm_compute in
    match construct 1%N (slit 0) scene_ego scene_edges 2%N scene_A scene_b
                    scene_xWS with
    | Some st => st
    | None => mkInterface (slit 0) scene_ego scene_edges scene_A scene_b
                scene_xWS 0 0 (slit 0) (slit 0) [] (slit 0) 0 0 0
                scene_ego scene_ego 0 0 0 0
    end.

(** A scene over the reals: horizon 0, one obstacle with the single edge
    normal (0, 1), the vehicle at the origin heading along the y axis. *)
Definition turn_ego : Matrix R := mkMatrix 4 1 [3; 1; 1; 1]%R.
Definition turn_edges : Matrix Z := mkMatrix 1 1 [1].
Definition turn_A : Matrix R := mkMatrix 1 2 [0; 1]%R.
Definition turn_b : Matrix R := mkMatrix 1 1 [1%R].
Definition turn_xWS : Matrix R := mkMatrix 3 1 [0; 0; PI / 2]%R.


(** A second scene over the reals: horizon 0 and one obstacle with two
    edges, for the same vehicle. *)
Definition corner_edges : Matrix Z := mkMatrix 1 1 [2].
Definition corner_A : Matrix R := mkMatrix 2 2 [1; 3; 2; 4]%R.
Definition corner_b : Matrix R := mkMatrix 2 1 [1; 1]%R.

(** * Proofs *)

(** ** Arithmetic of [int] *)

Lemma to_int_small (z : Z) : INT_MIN <= z <= INT_MAX -> to_int z = z.
Proof.
  unfold INT_MIN, INT_MAX, to_int. intros Hz.
  rewrite Z.mod_small by lia. lia.
Qed.

Lemma iadd_small (a b : Z) : INT_MIN <= a + b <= INT_MAX -> iadd a b = a + b.
Proof. apply to_int_small. Qed.

Lemma imul_small (a b : Z) : INT_MIN <= a * b <= INT_MAX -> imul a b = a * b.
Proof. apply to_int_small. Qed.

Lemma check_eq_size_true (sz i : Z) :
  0 <= i <= INT_MAX -> sz = i -> check_eq_size sz i = true.
Proof.
  unfold check_eq_size, INT_MAX. intros Hi ->.
  rewrite Z.mod_small by lia. apply Z.eqb_refl.
Qed.

(** ** Ranges and loops *)

Lemma zrange_nil (n : Z) : n <= 0 -> zrange n = [].
Proof.
  intros Hn. unfold zrange.
  replace (Z.to_nat n) with 0%nat by lia. reflexivity.
Qed.

Lemma zrange_succ (n : Z) : 0 <= n -> zrange (n + 1) = zrange n ++ [n].
Proof.
  intros Hn. unfold zrange.
  replace (Z.to_nat (n + 1)) with (S (Z.to_nat n)) by lia.
  rewrite seq_S, map_app. simpl. rewrite Z2Nat.id by lia. reflexivity.
Qed.

Lemma zrange_length (n : Z) : length (zrange n) = Z.to_nat n.
Proof. unfold zrange. now rewrite length_map, length_seq. Qed.

Lemma zrange_size (n : Z) : 0 <= n -> size (zrange n) = n.
Proof. intros Hn. unfold size. rewrite zrange_length. lia. Qed.

Lemma zrange_nth (n k d : Z) : 0 <= k < n -> nth (Z.to_nat k) (zrange n) d = k.
Proof.
  intros Hk. unfold zrange.
  rewrite nth_indep with (d' := Z.of_nat 0)
    by (rewrite length_map, length_seq; lia).
  rewrite map_nth, seq_nth by lia. lia.
Qed.

Lemma zrange_in (n k : Z) : In k (zrange n) <-> 0 <= k < n.
Proof.
  unfold zrange. rewrite in_map_iff. split.
  - intros (x & <- & Hx). apply in_seq in Hx. lia.
  - intros Hk. exists (Z.to_nat k). split; [lia|]. apply in_seq. lia.
Qed.

Lemma for_range_zrange {St : Type} (n : Z) (body : Z -> St -> St) (s : St) :
  for_range 0 n body s = fold_left (fun acc k => body k acc) (zrange n) s.
Proof.
  unfold for_range, zrange. rewrite Z.sub_0_r.
  generalize (seq 0 (Z.to_nat n)); intros l; revert s.
  induction l as [|x l IH]; intros s; simpl; [reflexivity|]. apply IH.
Qed.

Lemma for_range_nil {St : Type} (lo hi : Z) (body : Z -> St -> St) (s : St) :
  hi <= lo -> for_range lo hi body s = s.
Proof.
  intros Hle. unfold for_range.
  replace (Z.to_nat (hi - lo)) with 0%nat by lia. reflexivity.
Qed.

Lemma for_range_snoc {St : Type} (lo hi : Z) (body : Z -> St -> St) (s : St) :
  lo <= hi ->
  for_range lo (hi + 1) body s = body hi (for_range lo hi body s).
Proof.
  intros Hle. unfold for_range.
  replace (Z.to_nat (hi + 1 - lo)) with (S (Z.to_nat (hi - lo))) by lia.
  rewrite seq_S, fold_left_app. simpl. f_equal. lia.
Qed.

(** Invariants of a counted loop. *)
Lemma for_range_inv {St : Type} (Inv : Z -> St -> Prop) (lo hi : Z)
    (body : Z -> St -> St) (s : St) :
  lo <= hi ->
  Inv lo s ->
  (forall k t, lo <= k < hi -> Inv k t -> Inv (k + 1) (body k t)) ->
  Inv hi (for_range lo hi body s).
Proof.
  intros Hle H0 Hstep.
  assert (Hgen : forall n : nat, lo + Z.of_nat n <= hi ->
            Inv (lo + Z.of_nat n) (for_range lo (lo + Z.of_nat n) body s)).
  { induction n as [|n IH]; intros Hn.
    - rewrite Z.add_0_r, for_range_nil by lia. exact H0.
    - replace (lo + Z.of_nat (S n)) with (lo + Z.of_nat n + 1) by lia.
      rewrite for_range_snoc by lia. apply Hstep; [lia|]. apply IH. lia. }
  specialize (Hgen (Z.to_nat (hi - lo))).
  replace (lo + Z.of_nat (Z.to_nat (hi - lo))) with hi in Hgen by lia.
  apply Hgen. lia.
Qed.

(** A loop over the indices of a list that only reads the element at the
    index is a fold over the list. *)
Lemma for_range_list {St T : Type} (l : list T) (d : T) (body : Z -> St -> St)
    (f : T -> St -> St) (s : St) :
  (forall k t, 0 <= k < size l -> body k t = f (nth (Z.to_nat k) l d) t) ->
  for_range 0 (size l) body s = fold_left (fun acc e => f e acc) l s.
Proof.
  revert body s. induction l as [|e l IH] using rev_ind; intros body s Hb.
  - reflexivity.
  - unfold size in *. rewrite length_app, Nat2Z.inj_add in *. simpl length in *.
    change (Z.of_nat 1) with 1 in *.
    rewrite for_range_snoc by lia. rewrite fold_left_app. simpl.
    rewrite Hb by lia. rewrite Nat2Z.id, nth_middle. f_equal.
    apply IH. intros k t Hk. rewrite Hb by lia.
    rewrite app_nth1 by lia. reflexivity.
Qed.

Lemma for_range_push {T : Type} (n : Z) (f : Z -> T) (l : list T) :
  for_range 0 n (fun k acc => emplace_back acc (f k)) l = l ++ map f (zrange n).
Proof.
  destruct (Z.le_gt_cases 0 n) as [Hn|Hn].
  - apply (for_range_inv (fun k acc => acc = l ++ map f (zrange k))); [lia| |].
    + rewrite zrange_nil by lia. now rewrite app_nil_r.
    + intros k t Hk ->. rewrite zrange_succ by lia.
      unfold emplace_back. now rewrite map_app, app_assoc.
  - rewrite for_range_nil, zrange_nil by lia. now rewrite app_nil_r.
Qed.

Lemma fold_emplace_back {T : Type} (l v : list T) :
  fold_left emplace_back l v = v ++ l.
Proof.
  revert v. induction l as [|x l IH]; intros v; simpl.
  - now rewrite app_nil_r.
  - rewrite IH. unfold emplace_back. now rewrite <- app_assoc.
Qed.

(** ** Lists *)

Lemma size_app {T : Type} (a b : list T) : size (a ++ b) = size a + size b.
Proof. unfold size. rewrite length_app. lia. Qed.

Lemma size_nonneg {T : Type} (a : list T) : 0 <= size a.
Proof. unfold size. lia. Qed.

Lemma nth_flat_map_const {A B : Type} (g : A -> list B) (l : list A) (n : nat)
    (i r : nat) (da : A) (db : B) :
  (forall x, In x l -> length (g x) = n) ->
  (i < length l)%nat -> (r < n)%nat ->
  nth (i * n + r) (flat_map g l) db = nth r (g (nth i l da)) db.
Proof.
  revert i. induction l as [|x l IH]; intros i Hlen Hi Hr; simpl in Hi; [lia|].
  simpl flat_map. destruct i as [|i].
  - simpl. rewrite app_nth1; [reflexivity|]. rewrite Hlen by now left. exact Hr.
  - rewrite app_nth2 by (rewrite Hlen by (now left); simpl; lia).
    rewrite Hlen by now left.
    replace (S i * n + r - n)%nat with (i * n + r)%nat by (simpl; lia).
    simpl nth. apply IH; [|lia|exact Hr].
    intros y Hy. apply Hlen. now right.
Qed.

Lemma length_flat_map_const {A B : Type} (g : A -> list B) (l : list A) (n : nat) :
  (forall x, In x l -> length (g x) = n) ->
  length (flat_map g l) = (length l * n)%nat.
Proof.
  induction l as [|x l IH]; intros Hlen; simpl; [reflexivity|].
  rewrite length_app, Hlen by now left.
  rewrite IH; [reflexivity|]. intros y Hy. apply Hlen. now right.
Qed.

Lemma list_store_length {T : Type} (k : nat) (x : T) (l : list T) :
  length (list_store k x l) = length l.
Proof.
  revert k. induction l as [|y l IH]; intros [|k]; simpl; auto.
Qed.

Lemma list_store_next {T : Type} (k : nat) (x y : list T) (d : T) :
  (k < length x)%nat -> (k < length y)%nat ->
  list_store k (nth k x d) (firstn k x ++ skipn k y)
  = firstn (S k) x ++ skipn (S k) y.
Proof.
  revert x y. induction k as [|k IH]; intros [|a x] [|b y] Hx Hy;
    simpl in *; try lia.
  - reflexivity.
  - f_equal. apply IH; lia.
Qed.

(** ** Matrices *)

Section MatrixFacts.
Context {T : Type} `{Dflt T}.

Lemma coeff_tabulate (nr nc : Z) (f : Z -> Z -> T) (r c : Z) :
  0 <= r < nr -> 0 <= c < nc -> coeff (tabulate nr nc f) r c = f r c.
Proof.
  intros Hr Hc. unfold coeff, tabulate. cbn [rows coeffs].
  replace (Z.to_nat (c * nr + r))
    with (Z.to_nat c * Z.to_nat nr + Z.to_nat r)%nat by nia.
  rewrite nth_flat_map_const with (n := Z.to_nat nr) (da := 0%nat).
  - rewrite seq_nth by lia. simpl.
    rewrite nth_indep with (d' := f (Z.of_nat 0) (Z.of_nat (Z.to_nat c)))
      by (rewrite length_map, length_seq; lia).
    rewrite (map_nth (fun r0 => f (Z.of_nat r0) (Z.of_nat (Z.to_nat c)))).
    rewrite seq_nth by lia. simpl. now rewrite !Z2Nat.id by lia.
  - intros x _. now rewrite length_map, length_seq.
  - rewrite length_seq. lia.
  - lia.
Qed.

Lemma tabulate_size (nr nc : Z) (f : Z -> Z -> T) :
  0 <= nr -> 0 <= nc -> size (coeffs (tabulate nr nc f)) = nr * nc.
Proof.
  intros Hr Hc. unfold size, tabulate. cbn [coeffs].
  rewrite length_flat_map_const with (n := Z.to_nat nr).
  - rewrite length_seq. nia.
  - intros x _. now rewrite length_map, length_seq.
Qed.

Lemma coeff_block (M : Matrix T) (sr sc nr nc r c : Z) :
  0 <= r < nr -> 0 <= c < nc ->
  coeff (block M sr sc nr nc) r c = coeff M (sr + r) (sc + c).
Proof. intros Hr Hc. unfold block. now rewrite coeff_tabulate. Qed.

Lemma coeff_transpose (M : Matrix T) (r c : Z) :
  0 <= r < cols M -> 0 <= c < rows M ->
  coeff (transpose M) r c = coeff M c r.
Proof. intros Hr Hc. unfold transpose. now rewrite coeff_tabulate. Qed.

Lemma coeff_column0 (M : Matrix T) (j : Z) :
  coeff M j 0 = nth (Z.to_nat j) (coeffs M) dflt.
Proof. unfold coeff. now rewrite Z.mul_0_l, Z.add_0_l. Qed.
End MatrixFacts.

Section ScalarMatrixFacts.
Context {F : Type} `{Scalar F}.

(** A product whose inner dimension is two. *)
Lemma coeff_mmul2 (A B : Matrix F) (r c : Z) :
  cols A = 2 -> 0 <= r < rows A -> 0 <= c < cols B ->
  coeff (mmul A B) r c
  = fadd (fmul (coeff A r 0) (coeff B 0 c)) (fmul (coeff A r 1) (coeff B 1 c)).
Proof.
  intros HA Hr Hc. unfold mmul. rewrite coeff_tabulate by assumption.
  rewrite HA. reflexivity.
Qed.

Lemma coeff_msub (A B : Matrix F) (r c : Z) :
  0 <= r < rows A -> 0 <= c < cols A ->
  coeff (msub A B) r c = fsub (coeff A r c) (coeff B r c).
Proof. intros Hr Hc. unfold msub. now rewrite coeff_tabulate. Qed.

Lemma Zero_coeffs (nr nc : Z) :
  Forall (fun v : F => v = flit 0%Q) (coeffs (Zero nr nc)).
Proof.
  unfold Zero, tabulate. cbn [coeffs]. apply Forall_forall. intros v Hv.
  apply in_flat_map in Hv. destruct Hv as (c & _ & Hv).
  apply in_map_iff in Hv. now destruct Hv as (r & <- & _).
Qed.
End ScalarMatrixFacts.

(** ** Sums of edge counts *)

Lemma zsum_app (a b : list Z) : zsum (a ++ b) = zsum a + zsum b.
Proof. induction a as [|x a IH]; simpl; lia. Qed.

Lemma zsum_nonneg (l : list Z) : Forall (fun e => 0 <= e) l -> 0 <= zsum l.
Proof. induction 1; simpl; lia. Qed.

Lemma zsum_squares_nonneg (l : list Z) : 0 <= zsum (map (fun e => e * e) l).
Proof. induction l as [|x l IH]; simpl; nia. Qed.

Lemma isum_exact_aux (l : list Z) (acc : Z) :
  Forall (fun e => 0 <= e) l -> 0 <= acc -> acc + zsum l <= INT_MAX ->
  fold_left iadd l acc = acc + zsum l.
Proof.
  intros Hl. revert acc. induction Hl as [|x l Hx Hl IH]; intros acc Ha Hb;
    simpl in *; [lia|].
  pose proof (zsum_nonneg Hl) as Hs.
  rewrite iadd_small by (unfold INT_MIN, INT_MAX in *; lia).
  rewrite IH by lia. lia.
Qed.

Lemma isum_exact (M : Matrix Z) :
  Forall (fun e => 0 <= e) (coeffs M) -> sum_edges M <= INT_MAX ->
  isum M = sum_edges M.
Proof.
  intros Hl Hb. unfold isum, sum_edges in *.
  rewrite isum_exact_aux by (assumption || lia). lia.
Qed.

(** ** The constructor *)

Ltac int_bounds := unfold INT_MIN, INT_MAX in *; nia.

Section ConstructorFacts.
Context {F : Type} `{Scalar F}.

Lemma construct_wf (horizon : N) (ts : F) (ego : Matrix F) (edges : Matrix Z)
    (obstacles_num : N) (A b xWS : Matrix F) :
  valid_input horizon ego edges obstacles_num A b xWS ->
  exists st,
    construct horizon ts ego edges obstacles_num A b xWS = Some st /\
    wf_interface st /\
    horizon_ st = Z.of_N horizon /\
    obstacles_num_ st = Z.of_N obstacles_num /\
    obstacles_edges_num_ st = edges /\
    obstacles_A_ st = A /\ obstacles_b_ st = b /\
    xWS_ st = xWS /\ ego_ st = ego /\ g_ st = footprint ego /\
    l_warm_up_ st = Zero (sum_edges edges) (Z.of_N horizon + 1) /\
    n_warm_up_ st = Zero (4 * Z.of_N obstacles_num) (Z.of_N horizon + 1).
Proof.
  intros V.
  pose proof (vi_horizon V) as Hh. pose proof (vi_obstacles V) as Hn.
  pose proof (vi_nnz_A V) as HA. pose proof (vi_nnz_P V) as HP.
  pose proof (zsum_nonneg (vi_edges_nonneg V)) as HE.
  pose proof (vi_edges_size V) as Hsz. pose proof (vi_edges_nonneg V) as Hnn.
  fold (sum_edges edges) in HE.
  set (h := Z.of_N horizon) in *. set (n := Z.of_N obstacles_num) in *.
  set (E := sum_edges edges) in *.
  assert (Hh0 : 0 <= h) by (subst h; lia).
  assert (Hn0 : 0 <= n) by (subst n; lia).
  assert (HX : 0 <= E * (h + 1)) by nia.
  assert (HY : 0 <= n * (h + 1)) by nia.
  assert (HEX : E <= E * (h + 1)) by nia.
  assert (HnY : n <= n * (h + 1)) by nia.
  assert (Hsum : isum edges = E).
  { apply isum_exact; [assumption|]. fold E. int_bounds. }
  assert (Hih : to_int h = h) by (apply to_int_small; int_bounds).
  assert (Hin : to_int n = n) by (apply to_int_small; int_bounds).
  assert (Hh1 : iadd h 1 = h + 1) by (apply iadd_small; int_bounds).
  assert (Hlam : imul E (h + 1) = E * (h + 1))
    by (apply imul_small; int_bounds).
  assert (H4n : imul 4 n = 4 * n) by (apply imul_small; int_bounds).
  assert (Hn4 : imul n 4 = n * 4) by (apply imul_small; int_bounds).
  assert (Hmu : imul (n * 4) (h + 1) = 4 * n * (h + 1))
    by (rewrite imul_small by int_bounds; ring).
  assert (Hvar : iadd (E * (h + 1)) (4 * n * (h + 1))
                 = E * (h + 1) + 4 * n * (h + 1))
    by (apply iadd_small; int_bounds).
  assert (H3n : imul 3 n = 3 * n) by (apply imul_small; int_bounds).
  assert (H3Y : imul (3 * n) (h + 1) = 3 * n * (h + 1))
    by (apply imul_small; int_bounds).
  assert (Hcon : iadd (3 * n * (h + 1)) (E * (h + 1) + 4 * n * (h + 1))
                 = 3 * n * (h + 1) + (E * (h + 1) + 4 * n * (h + 1)))
    by (apply iadd_small; int_bounds).
  assert (Hl0 : iadd 0 (E * (h + 1)) = E * (h + 1))
    by (rewrite iadd_small by int_bounds; ring).
  unfold construct. fold h n.
  replace (h <? INT_MAX) with true by (symmetry; apply Z.ltb_lt; lia).
  replace (n <? INT_MAX) with true by (symmetry; apply Z.ltb_lt; lia).
  cbn [negb].
  rewrite Hsum, Hih, Hin, Hh1, Hlam, H4n, Hn4, Hmu, Hvar, H3n, H3Y, Hcon, Hl0.
  eexists. split; [reflexivity|].
  split; [|repeat split; reflexivity].
  constructor; cbn [horizon_ obstacles_num_ obstacles_edges_num_
    obstacles_edges_sum_ l_start_index_ lambda_horizon_ miu_horizon_
    num_of_variables_ num_of_constraints_ l_warm_up_ n_warm_up_];
    fold E; try reflexivity; try assumption; try lia.
  - unfold Zero. now rewrite tabulate_size by lia.
  - unfold Zero. rewrite tabulate_size by lia. ring.
Qed.
End ConstructorFacts.

(** ** Columns and their starting offsets *)

Lemma for_range_append {T : Type} (n : Z) (body : Z -> list T -> list T)
    (g : Z -> list T) (l : list T) :
  (forall k acc, 0 <= k < n -> body k acc = acc ++ g k) ->
  for_range 0 n body l = l ++ flat_map g (zrange n).
Proof.
  intros Hb. destruct (Z.le_gt_cases 0 n) as [Hn|Hn].
  - apply (for_range_inv (fun k acc => acc = l ++ flat_map g (zrange k))); [lia| |].
    + rewrite zrange_nil by lia. now rewrite app_nil_r.
    + intros k t Hk ->. rewrite zrange_succ, Hb by lia.
      rewrite flat_map_app. simpl. now rewrite app_nil_r, app_assoc.
  - rewrite for_range_nil, zrange_nil by lia. now rewrite app_nil_r.
Qed.

Lemma concat_size_app {T : Type} (a b : list (list T)) :
  size (concat (a ++ b)) = size (concat a) + size (concat b).
Proof. now rewrite concat_app, size_app. Qed.

Lemma concat_size_const {A T : Type} (g : A -> list T) (l : list A) (n : Z) :
  (forall x, In x l -> size (g x) = n) ->
  size (concat (map g l)) = size l * n.
Proof.
  induction l as [|x l IH]; intros Hg; [reflexivity|].
  cbn [map concat]. rewrite size_app, Hg by now left.
  rewrite IH by (intros y Hy; apply Hg; now right).
  unfold size. change (length (x :: l)) with (S (length l)).
  rewrite Nat2Z.inj_succ. ring.
Qed.

Section StartsFacts.
Context {F : Type} `{Scalar F}.

Lemma starts_app (p : Z) (a b : list (column F)) :
  starts p (a ++ b) = starts p a ++ starts (p + size (concat a)) b.
Proof.
  revert p. induction a as [|c a IH]; intros p; simpl.
  - f_equal. unfold size. simpl. lia.
  - rewrite IH. do 3 f_equal. rewrite size_app. lia.
Qed.

Lemma starts_length (p : Z) (cs : list (column F)) :
  length (starts p cs) = length cs.
Proof. revert p. induction cs as [|c cs IH]; intros p; simpl; auto. Qed.

Lemma starts_empty (p : Z) (n : nat) :
  starts p (repeat (@nil (Z * F)) n) = repeat p n.
Proof.
  induction n as [|n IH]; simpl; [reflexivity|].
  f_equal. unfold size. simpl. now rewrite Z.add_0_r.
Qed.

Lemma concat_empty (n : nat) : concat (repeat (@nil (Z * F)) n) = [].
Proof. induction n as [|n IH]; simpl; auto. Qed.

Lemma vals_of_block {A B : Type} (a : A -> B -> Z) (v : A -> B -> F)
    (rs : list A) (cs : list B) :
  flat_map (map snd) (map (fun c => map (fun r => (a r c, v r c)) rs) cs)
  = flat_map (fun c => map (fun r => v r c) rs) cs.
Proof.
  induction cs as [|c cs IH]; simpl; [reflexivity|].
  now rewrite IH, map_map.
Qed.

Lemma rows_of_block {A B : Type} (a : A -> B -> Z) (v : A -> B -> F)
    (rs : list A) (cs : list B) :
  flat_map (map fst) (map (fun c => map (fun r => (a r c, v r c)) rs) cs)
  = flat_map (fun c => map (fun r => a r c) rs) cs.
Proof.
  induction cs as [|c cs IH]; simpl; [reflexivity|].
  now rewrite IH, map_map.
Qed.
End StartsFacts.

Lemma flat_map_ext_in {A B : Type} (f g : A -> list B) (l : list A) :
  (forall x, In x l -> f x = g x) -> flat_map f l = flat_map g l.
Proof.
  induction l as [|x l IH]; intros Hfg; simpl; [reflexivity|].
  rewrite Hfg by now left. f_equal. apply IH. intros y Hy. apply Hfg. now right.
Qed.

(** ** The objective assembler *)

Section PFacts.
Context {F : Type} `{Scalar F}.
Variable st : DualVariableWarmStartOSQPInterface F.

Lemma P_tmp_block_spec (Aj : Matrix F) (e : Z) (P : list F) :
  P_tmp_block Aj e P
  = P ++ flat_map (fun c => map (fun r => coeff Aj r c) (zrange e)) (zrange e).
Proof.
  unfold P_tmp_block. apply for_range_append.
  intros c acc _. apply for_range_push.
Qed.

Lemma gram_coeff (off e r c : Z) :
  0 <= r < e -> 0 <= c < e ->
  coeff (mmul (block (obstacles_A_ st) off 0 e 2)
              (transpose (block (obstacles_A_ st) off 0 e 2))) r c
  = gram (obstacles_A_ st) off r c.
Proof.
  intros Hr Hc.
  rewrite coeff_mmul2
    by (cbn [block transpose tabulate rows cols]; reflexivity || lia).
  rewrite !coeff_transpose by (cbn [block tabulate rows cols]; lia).
  rewrite !coeff_block by lia. reflexivity.
Qed.

Lemma P_block_vals (l l' off : Z) (es : list Z) :
  flat_map (map snd) (P_block_columns st l off es)
  = flat_map (map snd) (P_block_columns st l' off es).
Proof.
  revert l l' off. induction es as [|e es IH]; intros l l' off; simpl;
    [reflexivity|].
  rewrite !flat_map_app. f_equal; [|apply IH].
  now rewrite !(vals_of_block (fun r c => _ + r) (fun r c => gram _ off r c)).
Qed.

Lemma P_tmp_fold (es : list Z) :
  forall (P : list F) (off : Z),
    Forall (fun e => 0 <= e) es -> 0 <= off -> off + zsum es <= INT_MAX ->
    fold_left (fun acc e => P_tmp_obstacle st e acc) es (Some (P, off))
    = Some (P ++ flat_map (map snd) (P_block_columns st 0 off es),
            off + zsum es).
Proof.
  induction es as [|e es IH]; intros P off Hes Hoff Hmax.
  - simpl. now rewrite app_nil_r, Z.add_0_r.
  - inversion Hes as [|? ? He Hes']; subst. simpl in Hmax.
    pose proof (zsum_nonneg Hes') as Hs.
    simpl fold_left. rewrite !Z.eqb_refl.
    cbn [negb]. rewrite iadd_small by int_bounds.
    rewrite IH by (assumption || lia). f_equal. f_equal; [|simpl; lia].
    rewrite P_tmp_block_spec. simpl P_block_columns.
    rewrite flat_map_app, <- app_assoc. f_equal.
    f_equal; [|apply P_block_vals].
    rewrite (vals_of_block (fun r c => 0 + r) (fun r c => gram _ off r c)).
    apply flat_map_ext_in. intros c Hc. apply map_ext_in. intros r Hr.
    apply zrange_in in Hc, Hr.
    change (coeff (mmul (block (obstacles_A_ st) off 0 e 2)
              (transpose (block (obstacles_A_ st) off 0 e 2))) r c
            = gram (obstacles_A_ st) off r c).
    now apply gram_coeff.
Qed.
End PFacts.
Lemma zsum_cons (e : Z) (es : list Z) : zsum (e :: es) = e + zsum es.
Proof. reflexivity. Qed.

Section PColumns.
Context {F : Type} `{Scalar F}.
Variable st : DualVariableWarmStartOSQPInterface F.

Lemma P_obstacle_columns_spec (v : Z -> Z -> F) (e : Z) (s : PState F) :
  let cs := map (fun c => map (fun r => (l_index s + r, v r c)) (zrange e))
                (zrange e) in
  0 <= e ->
  0 <= l_index s -> l_index s + e <= INT_MAX ->
  0 <= P_first_row_location s -> P_first_row_location s + e * e <= INT_MAX ->
  P_obstacle_columns e s
  = mkPState (P_data s) (P_indices s ++ flat_map (map fst) cs)
             (P_indptr s ++ starts (P_first_row_location s) cs)
             (l_index s) (P_first_row_location s + e * e)
             (P_edges_counter s).
Proof.
  intros cs He Hl0 Hl1 Hf0 Hf1. unfold P_obstacle_columns.
  set (colf := fun c => map (fun r => (l_index s + r, v r c)) (zrange e)).
  apply (for_range_inv (fun k t =>
    t = mkPState (P_data s)
          (P_indices s ++ flat_map (map fst) (map colf (zrange k)))
          (P_indptr s ++ starts (P_first_row_location s) (map colf (zrange k)))
          (l_index s) (P_first_row_location s + k * e)
          (P_edges_counter s))); [lia| |].
  - rewrite zrange_nil by lia. simpl. rewrite !app_nil_r, Z.add_0_r.
    now destruct s.
  - intros k t Hk ->. cbn [P_data P_indices P_indptr l_index
                           P_first_row_location P_edges_counter].
    rewrite for_range_push, zrange_succ by lia.
    rewrite !map_app, flat_map_app, starts_app. cbn [map flat_map starts].
    rewrite app_nil_r.
    rewrite (concat_size_const colf (zrange k) (n := e)).
    2:{ intros x _. unfold colf, size. rewrite length_map, zrange_length. lia. }
    rewrite zrange_size by lia.
    rewrite iadd_small by int_bounds.
    unfold emplace_back. rewrite <- !app_assoc. f_equal; [|ring].
    do 2 f_equal. unfold colf. rewrite map_map. cbn [fst].
    apply map_ext_in. intros r Hr. apply zrange_in in Hr.
    rewrite iadd_small by int_bounds. ring.
Qed.

Lemma P_block_size (l off : Z) (es : list Z) :
  Forall (fun e => 0 <= e) es ->
  size (concat (P_block_columns st l off es)) = zsum (map (fun e => e * e) es).
Proof.
  intros Hes. revert l off.
  induction Hes as [|e es He Hes IH]; intros l off; [reflexivity|].
  cbn [P_block_columns map]. rewrite zsum_cons, concat_size_app, IH.
  rewrite (concat_size_const _ (zrange e) (n := e)).
  - now rewrite zrange_size by lia.
  - intros x _. unfold size. rewrite length_map, zrange_length. lia.
Qed.

Lemma P_block_length (l off : Z) (es : list Z) :
  Forall (fun e => 0 <= e) es ->
  size (P_block_columns st l off es) = zsum es.
Proof.
  intros Hes. revert l off.
  induction Hes as [|e es He Hes IH]; intros l off; [reflexivity|].
  cbn [P_block_columns]. rewrite zsum_cons, size_app, IH.
  unfold size at 1. rewrite length_map, zrange_length. lia.
Qed.

Lemma P_step_fold (es : list Z) :
  forall (s : PState F) (cnt : Z),
    Forall (fun e => 0 <= e) es ->
    0 <= l_index s -> l_index s + zsum es <= INT_MAX ->
    0 <= P_first_row_location s ->
    P_first_row_location s + zsum (map (fun e => e * e) es) <= INT_MAX ->
    0 <= P_edges_counter s -> P_edges_counter s + zsum es <= INT_MAX ->
    fold_left (fun acc e => P_step_obstacle e acc) es s
    = mkPState (P_data s)
        (P_indices s ++ flat_map (map fst) (P_block_columns st (l_index s) cnt es))
        (P_indptr s ++ starts (P_first_row_location s)
                              (P_block_columns st (l_index s) cnt es))
        (l_index s + zsum es)
        (P_first_row_location s + zsum (map (fun e => e * e) es))
        (P_edges_counter s + zsum es).
Proof.
  induction es as [|e es IH]; intros s cnt Hes Hl0 Hl1 Hf0 Hf1 Hc0 Hc1.
  - simpl. rewrite !app_nil_r, !Z.add_0_r. now destruct s.
  - inversion Hes as [|? ? He Hes']; subst.
    cbn [map] in *. rewrite !zsum_cons in *.
    pose proof (zsum_nonneg Hes') as Hs.
    pose proof (zsum_squares_nonneg es) as Hq.
    cbn [fold_left]. unfold P_step_obstacle at 2.
    rewrite (P_obstacle_columns_spec (fun r c => gram (obstacles_A_ st) cnt r c))
      by (assumption || nia).
    cbn [P_data P_indices P_indptr l_index P_first_row_location P_edges_counter].
    rewrite !iadd_small by int_bounds.
    rewrite (IH _ (cnt + e)); cbn [P_data P_indices P_indptr l_index
      P_first_row_location P_edges_counter]; try assumption; try nia;
      try reflexivity.
    cbn [P_block_columns]. rewrite flat_map_app, starts_app.
    rewrite (concat_size_const _ (zrange e) (n := e)).
    2:{ intros x _. unfold size. rewrite length_map, zrange_length. lia. }
    rewrite zrange_size by lia. rewrite <- !app_assoc.
    f_equal; ring.
Qed.
End PColumns.
Lemma for_range_repeat {T : Type} (lo hi : Z) (x : T) (l : list T) :
  for_range lo hi (fun _ acc => emplace_back acc x) l
  = l ++ repeat x (Z.to_nat (hi - lo)).
Proof.
  unfold for_range. generalize (Z.to_nat (hi - lo)) as n. generalize 0%nat as a.
  intros a n. revert a l. induction n as [|n IH]; intros a l; simpl.
  - now rewrite app_nil_r.
  - rewrite IH. unfold emplace_back. now rewrite <- app_assoc.
Qed.

Lemma flat_map_map_size {A B : Type} (f : A -> B) (cs : list (list A)) :
  size (flat_map (map f) cs) = size (concat cs).
Proof.
  induction cs as [|c cs IH]; [reflexivity|].
  cbn [flat_map concat]. rewrite !size_app, IH. unfold size.
  now rewrite length_map.
Qed.

Lemma flat_map_empty {A B : Type} (f : list A -> list B) (n : nat) :
  f [] = [] -> flat_map f (repeat [] n) = [].
Proof. intros Hf. induction n as [|n IH]; simpl; [reflexivity|]. now rewrite Hf, IH. Qed.

Lemma size_repeat {T : Type} (x : T) (n : nat) : size (repeat x n) = Z.of_nat n.
Proof. unfold size. now rewrite repeat_length. Qed.

Section PStores.
Context {F : Type} `{Scalar F}.
Variable st : DualVariableWarmStartOSQPInterface F.
Hypothesis WF : wf_interface st.

Let es := coeffs (obstacles_edges_num_ st).
Let E := zsum es.
Let S2 := zsum (map (fun e => e * e) es).
Let n := horizon_ st + 1.

Lemma wf_sizes :
  0 <= E /\ 0 <= S2 /\ 1 <= n <= INT_MAX /\ 0 <= obstacles_num_ st /\
  E * n <= INT_MAX /\ S2 * n <= INT_MAX /\
  4 * E * n + 12 * obstacles_num_ st * n <= INT_MAX.
Proof.
  pose proof (wf_horizon WF). pose proof (wf_obstacles WF).
  pose proof (wf_nnz_A WF) as HA. pose proof (wf_nnz_P WF) as HP.
  pose proof (zsum_nonneg (wf_edges_nonneg WF)) as HE.
  pose proof (zsum_squares_nonneg es) as HS.
  unfold sum_edges, sum_squares in *. fold es E S2 n in HA, HP, HE, HS.
  subst n. repeat split; try lia; try nia.
Qed.

Lemma P_tmp_loop_spec :
  P_tmp_loop st = Some (flat_map (map snd) (P_block_columns st 0 0 es), E).
Proof.
  destruct wf_sizes as (HE & _ & Hn & _ & HEn & _).
  unfold P_tmp_loop. rewrite <- (wf_edges_size WF).
  rewrite (for_range_list (coeffs (obstacles_edges_num_ st)) dflt _
             (P_tmp_obstacle st)).
  - fold es. rewrite P_tmp_fold; [reflexivity|apply (wf_edges_nonneg WF)|lia|].
    fold E. int_bounds.
  - intros k t Hk. cbv zeta. now rewrite coeff_column0.
Qed.

Lemma P_step_obstacles_fold (s : PState F) :
  P_step_obstacles st s = fold_left (fun acc e => P_step_obstacle e acc) es s.
Proof.
  unfold P_step_obstacles. rewrite <- (wf_edges_size WF).
  apply (for_range_list (coeffs (obstacles_edges_num_ st)) dflt).
  intros k t Hk. cbv zeta. now rewrite coeff_column0.
Qed.

Lemma P_steps_spec (s : PState F) :
  l_index s = 0 -> P_first_row_location s = 0 ->
  let cs := P_columns_upto st n in
  size (concat cs) = n * S2 /\ size cs = n * E /\
  exists ec,
    P_steps st (flat_map (map snd) (P_block_columns st 0 0 es)) s
    = mkPState (P_data s ++ flat_map (map snd) cs)
               (P_indices s ++ flat_map (map fst) cs)
               (P_indptr s ++ starts 0 cs) (n * E) (n * S2) ec.
Proof.
  intros Hl Hf cs. subst cs.
  destruct wf_sizes as (HE & HS & Hn & HN & HEn & HSn & _).
  unfold P_steps. rewrite iadd_small by (fold n; int_bounds). fold n.
  apply (for_range_inv (fun k t =>
    size (concat (P_columns_upto st k)) = k * S2 /\
    size (P_columns_upto st k) = k * E /\
    exists ec,
      t = mkPState (P_data s ++ flat_map (map snd) (P_columns_upto st k))
                   (P_indices s ++ flat_map (map fst) (P_columns_upto st k))
                   (P_indptr s ++ starts 0 (P_columns_upto st k))
                   (k * E) (k * S2) ec)); [lia| |].
  - unfold P_columns_upto. fold es E. rewrite zrange_nil by lia. simpl.
    rewrite !app_nil_r. repeat split. exists (P_edges_counter s).
    destruct s; simpl in *; now subst.
  - intros k t Hk (Hsz & Hlen & ec & ->).
    cbn [P_data P_indices P_indptr l_index P_first_row_location].
    assert (Hnext : P_columns_upto st (k + 1)
                    = P_columns_upto st k ++ P_block_columns st (k * E) 0 es).
    { unfold P_columns_upto. fold es E. rewrite zrange_succ, flat_map_app by lia.
      simpl. now rewrite app_nil_r. }
    rewrite Hnext, concat_size_app, size_app, Hsz, Hlen.
    rewrite P_block_size, P_block_length by apply (wf_edges_nonneg WF).
    fold es E S2. split; [ring|]. split; [ring|].
    rewrite P_step_obstacles_fold, fold_emplace_back.
    rewrite (P_step_fold st _ 0);
      cbn [P_data P_indices P_indptr l_index P_first_row_location
           P_edges_counter]; fold E S2;
      try apply (wf_edges_nonneg WF); try int_bounds.
    exists (0 + E). rewrite !flat_map_app, starts_app, Hsz.
    rewrite (P_block_vals st 0 (k * E)). rewrite <- !app_assoc.
    f_equal; ring.
Qed.

Lemma assemble_P_stores :
  exists Pd Pi Pp,
    assemble_P st [] [] [] = Some (Pd, Pi, Pp) /\
    stores (P_columns st) Pd Pi Pp.
Proof.
  destruct wf_sizes as (HE & HS & Hn & HN & HEn & HSn & HA).
  pose proof (wf_lambda WF) as Hlam. pose proof (wf_miu WF) as Hmu.
  pose proof (wf_variables WF) as Hvar.
  unfold sum_edges in Hlam. fold es E n in Hlam, Hmu.
  unfold assemble_P. rewrite P_tmp_loop_spec.
  destruct (P_steps_spec (mkPState [] [] [] (l_start_index_ st) 0 E))
    as (Hsz & Hlen & ec & ->); [apply (wf_l_start WF)|reflexivity|].
  cbn [P_data P_indices P_indptr l_index P_first_row_location app].
  rewrite check_eq_size_true;
    [|rewrite Hlam; int_bounds
     |unfold size; rewrite starts_length; fold (size (P_columns_upto st n));
      rewrite Hlen, Hlam; ring].
  cbn [negb]. rewrite !flat_map_map_size, Z.eqb_refl. cbn [negb].
  rewrite for_range_repeat.
  assert (Hn1 : iadd (num_of_variables_ st) 1 = num_of_variables_ st + 1).
  { apply iadd_small. rewrite Hvar, Hlam, Hmu. int_bounds. }
  rewrite Hn1.
  replace (Z.to_nat (num_of_variables_ st + 1 - lambda_horizon_ st))
    with (S (Z.to_nat (miu_horizon_ st))) by (rewrite Hvar, Hmu; nia).
  rewrite check_eq_size_true;
    [|rewrite Hvar, Hlam, Hmu; int_bounds
     |rewrite size_app, size_repeat; unfold size; rewrite starts_length;
      fold (size (P_columns_upto st n));
      rewrite Hlen, Hvar, Hlam, Hmu; nia].
  cbn [negb]. do 3 eexists. split; [reflexivity|].
  unfold stores, P_columns. fold n.
  rewrite !flat_map_app, !flat_map_empty, !app_nil_r by reflexivity.
  repeat split.
  rewrite starts_app, starts_empty, concat_size_app, concat_empty.
  rewrite Hsz, <- app_assoc. f_equal.
  change (size (@nil (Z * F))) with 0. rewrite Z.add_0_l, Z.add_0_r.
  cbn [repeat]. now rewrite repeat_cons.
Qed.
End PStores.
(** ** What a CSC triple that stores given columns looks like *)

Lemma combine_append {A B : Type} (a a' : list A) (b b' : list B) :
  length a = length b ->
  combine (a ++ a') (b ++ b') = combine a b ++ combine a' b'.
Proof.
  revert b. induction a as [|x a IH]; intros [|y b] Hl; simpl in *;
    try discriminate; [reflexivity|].
  f_equal. apply IH. lia.
Qed.

Lemma combine_fst_snd {A B : Type} (c : list (A * B)) :
  combine (map fst c) (map snd c) = c.
Proof. induction c as [|[a b] c IH]; simpl; congruence. Qed.

Section StoresFacts.
Context {F : Type}.

Lemma nth_starts (cs : list (column F)) :
  forall (p : Z) (i : nat),
    (i <= length cs)%nat ->
    nth i (starts p cs ++ [p + size (concat cs)]) 0
    = p + size (concat (firstn i cs)).
Proof.
  induction cs as [|c cs IH]; intros p i Hi.
  - simpl in Hi. replace i with 0%nat by lia. reflexivity.
  - destruct i as [|i].
    + simpl. unfold size. simpl. lia.
    + cbn [starts app nth firstn concat]. rewrite !size_app.
      replace (p + (size c + size (concat cs)))
        with (p + size c + size (concat cs)) by ring.
      rewrite IH by (simpl in Hi; lia). ring.
Qed.

Lemma nth_starts0 (cs : list (column F)) (i : nat) :
  (i <= length cs)%nat ->
  nth i (starts 0 cs ++ [size (concat cs)]) 0 = size (concat (firstn i cs)).
Proof.
  intros Hi. change (size (concat cs)) with (0 + size (concat cs)).
  rewrite nth_starts by exact Hi. apply Z.add_0_l.
Qed.

Lemma combine_columns (cs : list (column F)) :
  combine (flat_map (map fst) cs) (flat_map (map snd) cs) = concat cs.
Proof.
  induction cs as [|c cs IH]; [reflexivity|].
  cbn [flat_map concat]. rewrite combine_append by now rewrite !length_map.
  now rewrite IH, combine_fst_snd.
Qed.

Lemma concat_split (cs : list (column F)) (k : nat) :
  (k < length cs)%nat ->
  concat cs = concat (firstn k cs) ++ nth k cs [] ++ concat (skipn (S k) cs).
Proof.
  revert k. induction cs as [|c cs IH]; intros k Hk; simpl in Hk; [lia|].
  destruct k as [|k]; [reflexivity|].
  cbn [firstn skipn nth concat]. rewrite <- app_assoc. f_equal.
  apply IH. lia.
Qed.

Lemma concat_firstn_succ (cs : list (column F)) (k : nat) :
  (k < length cs)%nat ->
  concat (firstn (S k) cs) = concat (firstn k cs) ++ nth k cs [].
Proof.
  revert k. induction cs as [|c cs IH]; intros k Hk; simpl in Hk; [lia|].
  destruct k as [|k]; [simpl; now rewrite app_nil_r|].
  cbn [firstn nth concat] in *. rewrite <- app_assoc. f_equal.
  apply IH. lia.
Qed.

Variables (cs : list (column F)) (data : list F) (indices indptr : list Z).
Hypothesis ST : stores cs data indices indptr.

Lemma stores_sizes : size data = size indices.
Proof.
  destruct ST as (-> & -> & _). now rewrite !flat_map_map_size.
Qed.

Lemma stores_indptr_size : size indptr = size cs + 1.
Proof.
  destruct ST as (_ & _ & ->). rewrite size_app. unfold size.
  rewrite starts_length. reflexivity.
Qed.

Lemma stores_indptr_first : nth 0 indptr 0 = 0.
Proof.
  destruct ST as (_ & _ & ->).
  rewrite nth_starts0 by lia. reflexivity.
Qed.

Lemma stores_indptr_nondecreasing : nondecreasing indptr.
Proof.
  destruct ST as (_ & _ & ->). intros i j Hij.
  rewrite length_app, starts_length in Hij. simpl in Hij.
  rewrite !nth_starts0 by lia.
  rewrite <- (firstn_skipn i (firstn j cs)).
  rewrite firstn_firstn, concat_size_app.
  replace (Nat.min i j) with i by lia.
  pose proof (size_nonneg (concat (skipn i (firstn j cs)))). lia.
Qed.

Lemma stores_column (k : Z) :
  0 <= k < size cs ->
  csc_column data indices indptr k = nth (Z.to_nat k) cs [].
Proof.
  intros Hk. unfold size in Hk. destruct ST as (-> & -> & ->).
  unfold csc_column. rewrite combine_columns.
  replace (Z.to_nat (k + 1)) with (S (Z.to_nat k)) by lia.
  rewrite !nth_starts0 by lia.
  rewrite (concat_firstn_succ cs (k := Z.to_nat k)) by lia.
  rewrite (concat_split cs (k := Z.to_nat k)) by lia.
  set (a := concat (firstn (Z.to_nat k) cs)). set (c := nth (Z.to_nat k) cs []).
  rewrite size_app. unfold size.
  replace (Z.to_nat (Z.of_nat (length a))) with (length a + 0)%nat by lia.
  rewrite skipn_app, skipn_all2 by lia. cbn [app].
  replace (length a + 0 - length a)%nat with 0%nat by lia. cbn [skipn].
  replace (Z.to_nat (Z.of_nat (length a) + Z.of_nat (length c)
                     - Z.of_nat (length a)))
    with (length c + 0)%nat by lia.
  rewrite firstn_app_2. cbn [firstn]. now rewrite app_nil_r.
Qed.
End StoresFacts.
(** ** The constraint assembler *)

Section ALambda.
Context {F : Type} `{Scalar F}.
Variable st : DualVariableWarmStartOSQPInterface F.

Lemma A_lambda_columns_spec (r1b r2b : Matrix F) (e : Z) (s : AState F) :
  let colf := fun k => [ (r1_index s, coeff r1b 0 k);
                         (r1_index s + 1, coeff r1b 1 k);
                         (r2_index s, coeff r2b 0 k);
                         (r3_index s + k, flit 1%Q) ] in
  let cs := map colf (zrange e) in
  0 <= e ->
  0 <= r1_index s -> r1_index s + 1 <= INT_MAX ->
  0 <= r3_index s -> r3_index s + e <= INT_MAX ->
  0 <= first_row_location s -> first_row_location s + 4 * e <= INT_MAX ->
  A_lambda_columns r1b r2b e s
  = mkAState (A_data s ++ flat_map (map snd) cs)
             (A_indices s ++ flat_map (map fst) cs)
             (A_indptr s ++ starts (first_row_location s) cs)
             (r1_index s) (r2_index s) (r3_index s + e) (r4_index s)
             (first_row_location s + 4 * e).
Proof.
  intros colf cs He H10 H11 H30 H31 Hf0 Hf1. subst cs.
  unfold A_lambda_columns.
  apply (for_range_inv (fun k t =>
    t = mkAState (A_data s ++ flat_map (map snd) (map colf (zrange k)))
          (A_indices s ++ flat_map (map fst) (map colf (zrange k)))
          (A_indptr s ++ starts (first_row_location s) (map colf (zrange k)))
          (r1_index s) (r2_index s) (r3_index s + k) (r4_index s)
          (first_row_location s + 4 * k))); [lia| |].
  - rewrite zrange_nil by lia. simpl. rewrite !app_nil_r, !Z.add_0_r.
    now destruct s.
  - intros k t Hk ->. cbn [A_data A_indices A_indptr r1_index r2_index
                           r3_index r4_index first_row_location].
    rewrite zrange_succ by lia.
    rewrite !map_app, !flat_map_app, starts_app. cbn [map flat_map starts].
    rewrite !app_nil_r.
    rewrite (concat_size_const colf (zrange k) (n := 4)) by reflexivity.
    rewrite zrange_size by lia.
    rewrite !iadd_small by int_bounds.
    unfold emplace_back, colf. cbn [map fst snd]. rewrite <- !app_assoc.
    cbn [app]. f_equal; try ring. do 3 f_equal. ring.
Qed.

Lemma rotation_coeffs (i : Z) :
  let theta := coeff (xWS_ st) 2 i in
  coeff (rotation st i) 0 0 = fcos theta /\
  coeff (rotation st i) 0 1 = fsin theta /\
  coeff (rotation st i) 1 0 = fsin theta /\
  coeff (rotation st i) 1 1 = fcos theta.
Proof.
  unfold rotation, comma_init. rewrite !coeff_tabulate by lia.
  repeat split.
Qed.

Lemma translation_coeffs (i : Z) :
  let theta := coeff (xWS_ st) 2 i in
  coeff (translation st i) 0 0
  = fadd (coeff (xWS_ st) 0 i) (fmul (fcos theta) (offset_ st)) /\
  coeff (translation st i) 0 1
  = fadd (coeff (xWS_ st) 1 i) (fmul (fsin theta) (offset_ st)).
Proof.
  unfold translation, comma_init. rewrite !coeff_tabulate by lia.
  repeat split.
Qed.

(** The four entries of one lambda column are what [lambda_column] says. *)
Lemma lambda_block_entries (i ec e k r1 r2 r3 : Z) :
  0 <= k < e ->
  let Aj := block (obstacles_A_ st) ec 0 e 2 in
  let bj := block (obstacles_b_ st) ec 0 e 1 in
  let r1b := mmul (rotation st i) (transpose Aj) in
  let r2b := msub (mmul (translation st i) (transpose Aj)) (transpose bj) in
  [ (r1, coeff r1b 0 k); (r1 + 1, coeff r1b 1 k); (r2, coeff r2b 0 k);
    (r3, flit 1%Q) ]
  = lambda_column st i r1 r2 r3 (ec + k).
Proof.
  intros Hk Aj bj r1b r2b. subst r1b r2b.
  destruct (rotation_coeffs i) as (R00 & R01 & R10 & R11).
  destruct (translation_coeffs i) as (T0 & T1).
  assert (HAT : forall q, 0 <= q < 2 ->
            coeff (transpose Aj) q k = coeff (obstacles_A_ st) (ec + k) q).
  { intros q Hq. subst Aj.
    rewrite coeff_transpose by (cbn [block tabulate rows cols]; lia).
    rewrite coeff_block by lia. now rewrite Z.add_0_l. }
  assert (HbT : coeff (transpose bj) 0 k = coeff (obstacles_b_ st) (ec + k) 0).
  { subst bj. rewrite coeff_transpose by (cbn [block tabulate rows cols]; lia).
    rewrite coeff_block by lia. now rewrite Z.add_0_l. }
  rewrite !coeff_mmul2
    by (subst Aj; cbn [rotation comma_init transpose block tabulate rows cols];
        reflexivity || lia).
  rewrite coeff_msub
    by (subst Aj; cbn [mmul translation comma_init transpose block tabulate
                       rows cols]; lia).
  rewrite coeff_mmul2
    by (subst Aj; cbn [translation comma_init transpose block tabulate rows cols];
        reflexivity || lia).
  rewrite !HAT, HbT, R00, R01, R10, R11, T0, T1 by lia.
  reflexivity.
Qed.

Lemma A_lambda_fold (i : Z) (es : list Z) :
  forall (s : AState F) (ec : Z),
    Forall (fun e => 0 <= e) es ->
    0 <= r1_index s -> r1_index s + 2 * size es + 1 <= INT_MAX ->
    0 <= r2_index s -> r2_index s + size es <= INT_MAX ->
    0 <= r3_index s -> r3_index s + zsum es <= INT_MAX ->
    0 <= first_row_location s ->
    first_row_location s + 4 * zsum es <= INT_MAX ->
    0 <= ec -> ec + zsum es <= INT_MAX ->
    let cs := lambda_block_columns st i (r1_index s) (r2_index s)
                                   (r3_index s) ec es in
    fold_left (fun acc e =>
                 A_lambda_obstacle st (rotation st i) (translation st i) e acc)
              es (s, ec)
    = (mkAState (A_data s ++ flat_map (map snd) cs)
                (A_indices s ++ flat_map (map fst) cs)
                (A_indptr s ++ starts (first_row_location s) cs)
                (r1_index s + 2 * size es) (r2_index s + size es)
                (r3_index s + zsum es) (r4_index s)
                (first_row_location s + 4 * zsum es),
       ec + zsum es).
Proof.
  induction es as [|e es IH];
    intros s ec Hes H10 H11 H20 H21 H30 H31 Hf0 Hf1 Hc0 Hc1 cs; subst cs.
  - cbn [fold_left lambda_block_columns flat_map starts zsum fold_right].
    rewrite !app_nil_r. change (size (@nil Z)) with 0.
    rewrite !Z.mul_0_r, !Z.add_0_r. now destruct s.
  - inversion Hes as [|? ? He Hes']; subst.
    rewrite zsum_cons in *.
    assert (Hsz : size (e :: es) = size es + 1)
      by (unfold size; simpl length; lia).
    rewrite Hsz in *.
    pose proof (zsum_nonneg Hes') as Hs. pose proof (size_nonneg es) as Hn.
    cbn [fold_left]. unfold A_lambda_obstacle at 2.
    rewrite A_lambda_columns_spec by (assumption || lia).
    cbn [A_data A_indices A_indptr r1_index r2_index r3_index r4_index
         first_row_location].
    rewrite !iadd_small by int_bounds.
    rewrite IH; cbn [A_data A_indices A_indptr r1_index r2_index r3_index
                     r4_index first_row_location]; try assumption; try lia.
    cbn [lambda_block_columns]. rewrite !flat_map_app, starts_app.
    rewrite (concat_size_const _ (zrange e) (n := 4)) by reflexivity.
    rewrite zrange_size by lia.
    assert (Hcols :
      map (fun k => [ (r1_index s,
                       coeff (mmul (rotation st i)
                                (transpose (block (obstacles_A_ st) ec 0 e 2))) 0 k);
                      (r1_index s + 1,
                       coeff (mmul (rotation st i)
                                (transpose (block (obstacles_A_ st) ec 0 e 2))) 1 k);
                      (r2_index s,
                       coeff (msub (mmul (translation st i)
                                      (transpose (block (obstacles_A_ st) ec 0 e 2)))
                                (transpose (block (obstacles_b_ st) ec 0 e 1))) 0 k);
                      (r3_index s + k, flit 1%Q) ]) (zrange e)
      = map (fun k => lambda_column st i (r1_index s) (r2_index s)
                                    (r3_index s + k) (ec + k)) (zrange e)).
    { apply map_ext_in. intros k Hk. apply zrange_in in Hk.
      now apply lambda_block_entries. }
    rewrite Hcols. rewrite <- !app_assoc. rewrite (Z.mul_comm e 4).
    f_equal; [f_equal; ring | ring].
Qed.
End ALambda.
Section AMu.
Context {F : Type} `{Scalar F}.
Variable st : DualVariableWarmStartOSQPInterface F.

Lemma A_mu_columns_spec (s : AState F) :
  let cs := mu_obstacle_columns st (r1_index s) (r2_index s) (r4_index s) in
  0 <= r1_index s -> r1_index s + 1 <= INT_MAX ->
  0 <= r4_index s -> r4_index s + 4 <= INT_MAX ->
  0 <= first_row_location s -> first_row_location s + 12 <= INT_MAX ->
  A_mu_columns st s
  = mkAState (A_data s ++ flat_map (map snd) cs)
             (A_indices s ++ flat_map (map fst) cs)
             (A_indptr s ++ starts (first_row_location s) cs)
             (r1_index s) (r2_index s) (r3_index s) (r4_index s + 4)
             (first_row_location s + 12).
Proof.
  intros cs H10 H11 H40 H41 Hf0 Hf1. subst cs. unfold A_mu_columns.
  change 4 with (0 + 1 + 1 + 1 + 1) at 1.
  rewrite !for_range_snoc by lia. rewrite for_range_nil by lia.
  change (0 + 1 + 1 + 1) with 3. change (0 + 1 + 1) with 2.
  change (0 + 1) with 1.
  cbn [A_data A_indices A_indptr r1_index r2_index r3_index r4_index
       first_row_location Z.ltb Z.compare Pos.compare Pos.compare_cont].
  change (irem 0 2) with 0. change (irem 1 2) with 1.
  change (irem 2 2) with 0. change (irem 3 2) with 1.
  repeat match goal with
         | |- context [iadd ?a ?b] =>
           lazymatch a with
           | context [iadd] => fail
           | _ => rewrite (iadd_small a b) by int_bounds
           end
         end.
  unfold mu_obstacle_columns. change (zrange 4) with [0; 1; 2; 3].
  unfold mu_column, emplace_back.
  cbn [map flat_map starts fst snd app Z.ltb Z.compare Pos.compare
       Pos.compare_cont].
  unfold size. cbn [length].
  change (0 mod 2) with 0. change (1 mod 2) with 1.
  change (2 mod 2) with 0. change (3 mod 2) with 1.
  change (Z.of_nat 3) with 3.
  rewrite <- !app_assoc. cbn [app]. rewrite !Z.add_0_r.
  replace (r4_index s + 1 + 1 + 1 + 1) with (r4_index s + 4) by ring.
  replace (r4_index s + 1 + 1 + 1) with (r4_index s + 3) by ring.
  replace (r4_index s + 1 + 1) with (r4_index s + 2) by ring.
  replace (first_row_location s + 3 + 3 + 3 + 3)
    with (first_row_location s + 12) by ring.
  reflexivity.
Qed.
End AMu.
Section AStores.
Context {F : Type} `{Scalar F}.
Variable st : DualVariableWarmStartOSQPInterface F.
Hypothesis WF : wf_interface st.

Let es := coeffs (obstacles_edges_num_ st).
Let E := zsum es.
Let n := horizon_ st + 1.
Let N := obstacles_num_ st.

Lemma lambda_block_size (i r1 r2 r3 off : Z) (l : list Z) :
  Forall (fun e => 0 <= e) l ->
  size (concat (lambda_block_columns st i r1 r2 r3 off l)) = 4 * zsum l /\
  size (lambda_block_columns st i r1 r2 r3 off l) = zsum l.
Proof.
  intros Hl. revert r1 r2 r3 off.
  induction Hl as [|e l He Hl IH]; intros r1 r2 r3 off; [split; reflexivity|].
  cbn [lambda_block_columns]. rewrite zsum_cons, concat_size_app, size_app.
  destruct (IH (r1 + 2) (r2 + 1) (r3 + e) (off + e)) as (-> & ->).
  rewrite (concat_size_const _ (zrange e) (n := 4)) by reflexivity.
  rewrite zrange_size by lia. unfold size at 1.
  rewrite length_map, zrange_length. lia.
Qed.

Lemma A_lambda_obstacles_fold (i : Z) (s : AState F * Z) :
  A_lambda_obstacles st (rotation st i) (translation st i) s
  = fold_left (fun acc e =>
                 A_lambda_obstacle st (rotation st i) (translation st i) e acc)
              es s.
Proof.
  unfold A_lambda_obstacles. rewrite <- (wf_edges_size WF).
  apply (for_range_list (coeffs (obstacles_edges_num_ st)) dflt).
  intros k t Hk. cbv zeta. now rewrite coeff_column0.
Qed.

Lemma A_lambda_steps_spec (s : AState F) :
  r1_index s = 0 -> r2_index s = 2 * (N * n) -> r3_index s = 3 * (N * n) ->
  first_row_location s = 0 ->
  let cs := lambda_columns_upto st n in
  size (concat cs) = 4 * (n * E) /\ size cs = n * E /\
  A_lambda_steps st s
  = mkAState (A_data s ++ flat_map (map snd) cs)
             (A_indices s ++ flat_map (map fst) cs)
             (A_indptr s ++ starts 0 cs)
             (2 * (n * N)) (2 * (N * n) + n * N) (3 * (N * n) + n * E)
             (r4_index s) (4 * (n * E)).
Proof.
  intros H1 H2 H3 Hf cs. subst cs.
  destruct (wf_sizes WF) as (HE & _ & Hn & HN & HEn & _ & HA).
  fold es E n N in HE, Hn, HN, HEn, HA.
  pose proof (wf_edges_size WF) as Hsz. fold es N in Hsz.
  unfold A_lambda_steps. rewrite iadd_small by (fold n; int_bounds). fold n.
  apply (for_range_inv (fun k t =>
    size (concat (lambda_columns_upto st k)) = 4 * (k * E) /\
    size (lambda_columns_upto st k) = k * E /\
    t = mkAState (A_data s ++ flat_map (map snd) (lambda_columns_upto st k))
          (A_indices s ++ flat_map (map fst) (lambda_columns_upto st k))
          (A_indptr s ++ starts 0 (lambda_columns_upto st k))
          (2 * (k * N)) (2 * (N * n) + k * N) (3 * (N * n) + k * E)
          (r4_index s) (4 * (k * E)))); [lia| |].
  - unfold lambda_columns_upto. rewrite zrange_nil by lia. simpl.
    rewrite !app_nil_r. repeat split.
    destruct s; simpl in *; subst. f_equal; ring.
  - intros k t Hk (Hcs & Hlen & ->).
    assert (Hnext : lambda_columns_upto st (k + 1)
              = lambda_columns_upto st k
                ++ lambda_block_columns st k (2 * (k * N))
                     (2 * (N * n) + k * N) (3 * (N * n) + k * E) 0 es).
    { unfold lambda_columns_upto. rewrite zrange_succ, flat_map_app by lia.
      simpl. now rewrite app_nil_r. }
    destruct (lambda_block_size k (2 * (k * N)) (2 * (N * n) + k * N)
                (3 * (N * n) + k * E) 0 (wf_edges_nonneg WF)) as (Hb1 & Hb2).
    fold es E in Hb1, Hb2.
    rewrite Hnext, concat_size_app, size_app, Hcs, Hlen, Hb1, Hb2.
    split; [ring|]. split; [ring|].
    rewrite A_lambda_obstacles_fold.
    rewrite A_lambda_fold;
      cbn [A_data A_indices A_indptr r1_index r2_index r3_index r4_index
           first_row_location fst]; fold E; rewrite ?Hsz;
      try apply (wf_edges_nonneg WF); try int_bounds.
    rewrite !flat_map_app, starts_app, Hcs, <- !app_assoc.
    f_equal; ring.
Qed.

Lemma mu_obstacle_size (r1 r2 r4 : Z) :
  size (concat (mu_obstacle_columns st r1 r2 r4)) = 12 /\
  size (mu_obstacle_columns st r1 r2 r4) = 4.
Proof. split; reflexivity. Qed.

Lemma A_mu_step_spec (i f0 : Z) (s : AState F) :
  0 <= i < n ->
  f0 = 4 * (E * n) ->
  r1_index s = 2 * (i * N + 0) -> r2_index s = 2 * (N * n) + i * N + 0 ->
  r4_index s = 3 * (N * n) + lambda_horizon_ st + 4 * (i * N + 0) ->
  first_row_location s = f0 + 12 * (i * N) ->
  let cs := mu_step_columns st i N in
  size (concat cs) = 12 * N /\ size cs = 4 * N /\
  for_range 0 N (fun j t => A_mu_obstacle st t) s
  = mkAState (A_data s ++ flat_map (map snd) cs)
             (A_indices s ++ flat_map (map fst) cs)
             (A_indptr s ++ starts (first_row_location s) cs)
             (2 * (i * N + N)) (2 * (N * n) + i * N + N) (r3_index s)
             (3 * (N * n) + lambda_horizon_ st + 4 * (i * N + N))
             (f0 + 12 * (i * N) + 12 * N).
Proof.
  intros Hi Hf0 H1 H2 H4 Hf cs. subst cs.
  destruct (wf_sizes WF) as (HE & _ & Hn & HN & HEn & _ & HA).
  fold es E n N in HE, Hn, HN, HEn, HA.
  pose proof (wf_lambda WF) as Hlam. unfold sum_edges in Hlam.
  fold es E n in Hlam.
  apply (for_range_inv (fun j t =>
    size (concat (mu_step_columns st i j)) = 12 * j /\
    size (mu_step_columns st i j) = 4 * j /\
    t = mkAState (A_data s ++ flat_map (map snd) (mu_step_columns st i j))
          (A_indices s ++ flat_map (map fst) (mu_step_columns st i j))
          (A_indptr s ++ starts (first_row_location s) (mu_step_columns st i j))
          (2 * (i * N + j)) (2 * (N * n) + i * N + j) (r3_index s)
          (3 * (N * n) + lambda_horizon_ st + 4 * (i * N + j))
          (f0 + 12 * (i * N) + 12 * j))); [lia| |].
  - unfold mu_step_columns. rewrite zrange_nil by lia. simpl.
    rewrite !app_nil_r. repeat split.
    destruct s; simpl in *; subst. f_equal; ring.
  - intros j t Hj (Hcs & Hlen & ->).
    assert (Hnext : mu_step_columns st i (j + 1)
              = mu_step_columns st i j
                ++ mu_obstacle_columns st (2 * (i * N + j))
                     (2 * (N * n) + i * N + j)
                     (3 * (N * n) + lambda_horizon_ st + 4 * (i * N + j))).
    { unfold mu_step_columns. rewrite zrange_succ, flat_map_app by lia.
      fold n N. cbn [flat_map]. now rewrite app_nil_r. }
    rewrite Hnext, concat_size_app, size_app, Hcs, Hlen.
    destruct (mu_obstacle_size (2 * (i * N + j)) (2 * (N * n) + i * N + j)
                (3 * (N * n) + lambda_horizon_ st + 4 * (i * N + j)))
      as (-> & ->).
    split; [ring|]. split; [ring|].
    unfold A_mu_obstacle.
    assert (Hij : 0 <= i * N /\ i * N + j + 1 <= N * n) by nia.
    rewrite A_mu_columns_spec;
      cbn [A_data A_indices A_indptr r1_index r2_index r3_index r4_index
           first_row_location]; try (rewrite ?Hlam; int_bounds).
    rewrite (iadd_small (2 * (i * N + j)) 2) by int_bounds.
    rewrite (iadd_small (2 * (N * n) + i * N + j) 1) by int_bounds.
    rewrite !flat_map_app, starts_app, Hcs, Hf, <- !app_assoc.
    f_equal; ring.
Qed.
Lemma A_mu_steps_spec (s : AState F) :
  r1_index s = 0 -> r2_index s = 2 * (N * n) ->
  r4_index s = 3 * (N * n) + lambda_horizon_ st ->
  first_row_location s = 4 * (E * n) ->
  let cs := mu_columns_upto st n in
  size (concat cs) = 12 * (n * N) /\ size cs = 4 * (n * N) /\
  A_mu_steps st s
  = mkAState (A_data s ++ flat_map (map snd) cs)
             (A_indices s ++ flat_map (map fst) cs)
             (A_indptr s ++ starts (4 * (E * n)) cs)
             (2 * (n * N)) (2 * (N * n) + n * N) (r3_index s)
             (3 * (N * n) + lambda_horizon_ st + 4 * (n * N))
             (4 * (E * n) + 12 * (n * N)).
Proof.
  intros H1 H2 H4 Hf cs. subst cs.
  destruct (wf_sizes WF) as (HE & _ & Hn & HN & HEn & _ & HA).
  fold es E n N in HE, Hn, HN, HEn, HA.
  unfold A_mu_steps. rewrite iadd_small by (fold n; int_bounds). fold n N.
  apply (for_range_inv (fun k t =>
    size (concat (mu_columns_upto st k)) = 12 * (k * N) /\
    size (mu_columns_upto st k) = 4 * (k * N) /\
    t = mkAState (A_data s ++ flat_map (map snd) (mu_columns_upto st k))
          (A_indices s ++ flat_map (map fst) (mu_columns_upto st k))
          (A_indptr s ++ starts (4 * (E * n)) (mu_columns_upto st k))
          (2 * (k * N)) (2 * (N * n) + k * N) (r3_index s)
          (3 * (N * n) + lambda_horizon_ st + 4 * (k * N))
          (4 * (E * n) + 12 * (k * N)))); [lia| |].
  - unfold mu_columns_upto. rewrite zrange_nil by lia. simpl.
    rewrite !app_nil_r. repeat split.
    destruct s; simpl in *; subst. f_equal; ring.
  - intros k t Hk (Hcs & Hlen & ->).
    assert (Hnext : mu_columns_upto st (k + 1)
              = mu_columns_upto st k ++ mu_step_columns st k N).
    { unfold mu_columns_upto. rewrite zrange_succ, flat_map_app by lia.
      fold N. cbn [flat_map]. now rewrite app_nil_r. }
    match goal with
    | |- context [for_range 0 N ?body ?t0] =>
      destruct (@A_mu_step_spec k (4 * (E * n)) t0 Hk eq_refl)
        as (Hs1 & Hs2 & ->)
    end;
      cbn [A_data A_indices A_indptr r1_index r2_index r3_index r4_index
           first_row_location]; try ring.
    rewrite Hnext, concat_size_app, size_app, Hcs, Hlen, Hs1, Hs2.
    split; [ring|]. split; [ring|].
    rewrite !flat_map_app, starts_app, Hcs, <- !app_assoc.
    f_equal; ring.
Qed.

Lemma assemble_constraint_stores :
  exists Ad Ai Ap,
    assemble_constraint st [] [] [] = Some (Ad, Ai, Ap) /\
    stores (A_columns st) Ad Ai Ap.
Proof.
  destruct (wf_sizes WF) as (HE & _ & Hn & HN & HEn & _ & HA).
  fold es E n N in HE, Hn, HN, HEn, HA.
  pose proof (wf_lambda WF) as Hlam. pose proof (wf_miu WF) as Hmu.
  pose proof (wf_variables WF) as Hvar.
  unfold sum_edges in Hlam. fold es E n N in Hlam, Hmu.
  assert (Hh : iadd (horizon_ st) 1 = n) by (apply iadd_small; int_bounds).
  assert (H2N : imul 2 N = 2 * N) by (apply imul_small; int_bounds).
  assert (H3N : imul 3 N = 3 * N) by (apply imul_small; int_bounds).
  assert (Hr2 : imul (2 * N) n = 2 * (N * n))
    by (rewrite imul_small by int_bounds; ring).
  assert (Hr3 : imul (3 * N) n = 3 * (N * n))
    by (rewrite imul_small by int_bounds; ring).
  assert (Hr4 : iadd (3 * (N * n)) (lambda_horizon_ st)
                = 3 * (N * n) + lambda_horizon_ st)
    by (apply iadd_small; rewrite Hlam; int_bounds).
  assert (Hn1 : iadd (num_of_variables_ st) 1 = num_of_variables_ st + 1)
    by (apply iadd_small; rewrite Hvar, Hlam, Hmu; int_bounds).
  unfold assemble_constraint. fold N. rewrite Hh, H2N, H3N, Hr2, Hr3, Hr4, Hn1.
  match goal with
  | |- context [A_lambda_steps st ?s0] =>
    destruct (@A_lambda_steps_spec s0 eq_refl eq_refl eq_refl eq_refl)
      as (Hc1 & Hl1 & ->)
  end.
  cbn [A_data A_indices A_indptr r1_index r2_index r3_index r4_index
       first_row_location app].
  match goal with
  | |- context [A_mu_steps st ?s1] =>
    destruct (@A_mu_steps_spec s1 eq_refl eq_refl eq_refl)
      as (Hc2 & Hl2 & ->)
  end; [cbn [first_row_location]; ring|].
  cbn [A_data A_indices A_indptr r1_index r2_index r3_index r4_index
       first_row_location app].
  rewrite <- !flat_map_app. fold (A_columns st).
  rewrite !flat_map_map_size, Z.eqb_refl. cbn [negb].
  assert (Hptr : starts 0 (lambda_columns_upto st n)
                 ++ starts (4 * (E * n)) (mu_columns_upto st n)
                 = starts 0 (A_columns st)).
  { unfold A_columns. fold n. rewrite starts_app, Hc1. do 2 f_equal. ring. }
  assert (Htot : 4 * (E * n) + 12 * (n * N) = size (concat (A_columns st))).
  { unfold A_columns. fold n. rewrite concat_size_app, Hc1, Hc2. ring. }
  rewrite Hptr, Htot.
  rewrite check_eq_size_true;
    [|rewrite Hvar, Hlam, Hmu; int_bounds
     |unfold emplace_back; rewrite size_app; unfold size at 1;
      rewrite starts_length; fold (size (A_columns st)); unfold A_columns;
      fold n; rewrite size_app, Hl1, Hl2, Hvar, Hlam, Hmu;
      change (size [size (concat (lambda_columns_upto st n
                                  ++ mu_columns_upto st n))]) with 1; ring].
  cbn [negb]. do 3 eexists. split; [reflexivity|].
  repeat split.
Qed.
End AStores.
(** ** Finding a column by its index *)

Lemma nth_map_zrange {T : Type} (f : Z -> T) (n k : Z) (d : T) :
  0 <= k < n -> nth (Z.to_nat k) (map f (zrange n)) d = f k.
Proof.
  intros Hk. rewrite nth_indep with (d' := f 0)
    by (rewrite length_map, zrange_length; lia).
  rewrite map_nth. now rewrite zrange_nth.
Qed.

Lemma nth_repeat_nil {T : Type} (i m : nat) :
  nth i (repeat (@nil T) m) [] = [].
Proof.
  revert i. induction m as [|m IH]; intros [|i]; simpl; auto.
Qed.

Lemma zsum_firstn_nonneg (es : list Z) (j : nat) :
  Forall (fun e => 0 <= e) es -> 0 <= zsum (firstn j es).
Proof.
  intros Hes. apply zsum_nonneg. apply Forall_forall. intros x Hx.
  rewrite Forall_forall in Hes. apply Hes.
  rewrite <- (firstn_skipn j es). apply in_or_app. now left.
Qed.

Lemma zsum_firstn_bound (es : list Z) (j : nat) :
  Forall (fun e => 0 <= e) es -> (j < length es)%nat ->
  0 <= nth j es 0 /\ zsum (firstn j es) + nth j es 0 <= zsum es.
Proof.
  intros Hes. revert j. induction Hes as [|e es He Hes IH]; intros j Hj;
    simpl in Hj; [lia|].
  destruct j as [|j].
  - simpl. pose proof (zsum_nonneg Hes). unfold zsum in *. lia.
  - cbn [firstn nth]. rewrite !zsum_cons. specialize (IH j). lia.
Qed.

Section ColumnIndex.
Context {F : Type} `{Scalar F}.
Variable st : DualVariableWarmStartOSQPInterface F.

Lemma P_block_nth (es : list Z) :
  forall (l off : Z) (j : nat) (c : Z),
    Forall (fun e => 0 <= e) es -> (j < length es)%nat ->
    0 <= c < nth j es 0 ->
    nth (Z.to_nat (zsum (firstn j es) + c)) (P_block_columns st l off es) []
    = map (fun r => (l + zsum (firstn j es) + r,
                     gram (obstacles_A_ st) (off + zsum (firstn j es)) r c))
          (zrange (nth j es 0)).
Proof.
  induction es as [|e es IH]; intros l off j c Hes Hj Hc; simpl in Hj; [lia|].
  inversion Hes as [|? ? He Hes']; subst.
  destruct j as [|j].
  - cbn [firstn nth zsum fold_right P_block_columns] in *.
    rewrite Z.add_0_l, app_nth1 by (rewrite length_map, zrange_length; lia).
    rewrite nth_map_zrange by lia.
    apply map_ext. intros r. now rewrite !Z.add_0_r.
  - cbn [firstn nth P_block_columns] in *. rewrite zsum_cons.
    pose proof (zsum_firstn_nonneg j Hes') as Hz.
    rewrite app_nth2 by (rewrite length_map, zrange_length; lia).
    rewrite length_map, zrange_length.
    replace (Z.to_nat (e + zsum (firstn j es) + c) - Z.to_nat e)%nat
      with (Z.to_nat (zsum (firstn j es) + c)) by lia.
    rewrite IH by (assumption || lia).
    apply map_ext. intros r. f_equal; [ring|]. f_equal. ring.
Qed.

Lemma lambda_block_nth (i : Z) (es : list Z) :
  forall (r1 r2 r3 off : Z) (j : nat) (k : Z),
    Forall (fun e => 0 <= e) es -> (j < length es)%nat ->
    0 <= k < nth j es 0 ->
    nth (Z.to_nat (zsum (firstn j es) + k))
        (lambda_block_columns st i r1 r2 r3 off es) []
    = lambda_column st i (r1 + 2 * Z.of_nat j) (r2 + Z.of_nat j)
                    (r3 + zsum (firstn j es) + k)
                    (off + zsum (firstn j es) + k).
Proof.
  induction es as [|e es IH]; intros r1 r2 r3 off j k Hes Hj Hk;
    simpl in Hj; [lia|].
  inversion Hes as [|? ? He Hes']; subst.
  destruct j as [|j].
  - cbn [firstn nth zsum fold_right lambda_block_columns] in *.
    rewrite Z.add_0_l, app_nth1 by (rewrite length_map, zrange_length; lia).
    rewrite nth_map_zrange by lia.
    change (Z.of_nat 0) with 0. now rewrite !Z.mul_0_r, !Z.add_0_r.
  - cbn [firstn nth lambda_block_columns] in *. rewrite zsum_cons.
    pose proof (zsum_firstn_nonneg j Hes') as Hz.
    rewrite app_nth2 by (rewrite length_map, zrange_length; lia).
    rewrite length_map, zrange_length.
    replace (Z.to_nat (e + zsum (firstn j es) + k) - Z.to_nat e)%nat
      with (Z.to_nat (zsum (firstn j es) + k)) by lia.
    rewrite IH by (assumption || lia).
    f_equal; lia.
Qed.

Hypothesis WF : wf_interface st.

Let es := coeffs (obstacles_edges_num_ st).
Let E := zsum es.
Let n := horizon_ st + 1.
Let N := obstacles_num_ st.

Lemma P_columns_upto_size : size (P_columns_upto st n) = n * E.
Proof.
  destruct (P_steps_spec WF (mkPState (@nil F) [] [] 0 0 0) eq_refl eq_refl)
    as (_ & Hlen & _). exact Hlen.
Qed.

Lemma lambda_columns_upto_size : size (lambda_columns_upto st n) = n * E.
Proof.
  destruct (A_lambda_steps_spec WF
              (mkAState (@nil F) [] [] 0 (2 * (N * n)) (3 * (N * n)) 0 0)
              eq_refl eq_refl eq_refl eq_refl) as (_ & Hlen & _).
  exact Hlen.
Qed.

Lemma P_columns_size : size (P_columns st) = num_of_variables_ st.
Proof.
  unfold P_columns. fold n. rewrite size_app, P_columns_upto_size, size_repeat.
  rewrite (wf_variables WF), (wf_lambda WF), (wf_miu WF).
  destruct (wf_sizes WF) as (_ & _ & Hn & HN & _).
  unfold sum_edges. fold es E n N in Hn, HN |- *. nia.
Qed.

Lemma A_columns_size : size (A_columns st) = num_of_variables_ st.
Proof.
  destruct (A_mu_steps_spec WF
              (mkAState (@nil F) [] [] 0 (2 * (N * n))
                        0 (3 * (N * n) + lambda_horizon_ st) (4 * (E * n)))
              eq_refl eq_refl eq_refl eq_refl) as (_ & Hlen & _).
  fold es E n N in Hlen. unfold A_columns. fold n.
  rewrite size_app, lambda_columns_upto_size, Hlen.
  rewrite (wf_variables WF), (wf_lambda WF), (wf_miu WF).
  unfold sum_edges. fold es E n N. ring.
Qed.

Lemma P_columns_lambda (i j c : Z) :
  0 <= i < n -> 0 <= j < N ->
  0 <= c < edge_count (obstacles_edges_num_ st) j ->
  let off := edge_offset (obstacles_edges_num_ st) j in
  nth (Z.to_nat (i * E + off + c)) (P_columns st) []
  = map (fun r => (i * E + off + r, gram (obstacles_A_ st) off r c))
        (zrange (edge_count (obstacles_edges_num_ st) j)).
Proof.
  intros Hi Hj Hc off. subst off. unfold edge_count, edge_offset in *.
  fold es in Hc |- *.
  pose proof (wf_edges_size WF) as Hsz. fold es N in Hsz. unfold size in Hsz.
  pose proof (wf_edges_nonneg WF) as Hnn. fold es in Hnn.
  pose proof (zsum_firstn_nonneg (Z.to_nat j) Hnn) as Hz.
  destruct (zsum_firstn_bound (j := Z.to_nat j) Hnn) as (_ & Hb); [lia|].
  fold E in Hb.
  pose proof P_columns_upto_size as Hlen. unfold size in Hlen.
  unfold P_columns. fold n.
  rewrite app_nth1 by nia.
  unfold P_columns_upto. fold es E.
  replace (Z.to_nat (i * E + zsum (firstn (Z.to_nat j) es) + c))
    with (Z.to_nat i * Z.to_nat E
          + Z.to_nat (zsum (firstn (Z.to_nat j) es) + c))%nat by nia.
  rewrite nth_flat_map_const with (n := Z.to_nat E) (da := 0).
  - rewrite zrange_nth by lia. rewrite P_block_nth by (assumption || lia).
    apply map_ext. intros r. now rewrite Z.add_0_l.
  - intros x _. pose proof (P_block_length st (x * E) 0 Hnn) as Hl.
    fold E in Hl. unfold size in Hl. lia.
  - rewrite zrange_length. lia.
  - lia.
Qed.

Lemma P_columns_mu (k : Z) :
  lambda_horizon_ st <= k -> nth (Z.to_nat k) (P_columns st) [] = [].
Proof.
  intros Hk. pose proof P_columns_upto_size as Hlen. unfold size in Hlen.
  pose proof (wf_lambda WF) as Hlam. unfold sum_edges in Hlam.
  fold es E n in Hlam.
  unfold P_columns. fold n. rewrite app_nth2 by nia. apply nth_repeat_nil.
Qed.
Lemma A_columns_lambda (i j k : Z) :
  0 <= i < n -> 0 <= j < N ->
  0 <= k < edge_count (obstacles_edges_num_ st) j ->
  let off := edge_offset (obstacles_edges_num_ st) j in
  nth (Z.to_nat (i * E + off + k)) (A_columns st) []
  = lambda_column st i (2 * (i * N + j)) (2 * (N * n) + i * N + j)
                  (3 * (N * n) + i * E + off + k) (off + k).
Proof.
  intros Hi Hj Hk off. subst off. unfold edge_count, edge_offset in *.
  fold es in Hk |- *.
  pose proof (wf_edges_size WF) as Hsz. fold es N in Hsz. unfold size in Hsz.
  pose proof (wf_edges_nonneg WF) as Hnn. fold es in Hnn.
  pose proof (zsum_firstn_nonneg (Z.to_nat j) Hnn) as Hz.
  destruct (zsum_firstn_bound (j := Z.to_nat j) Hnn) as (_ & Hb); [lia|].
  fold E in Hb.
  pose proof lambda_columns_upto_size as Hlen. unfold size in Hlen.
  unfold A_columns. fold n.
  rewrite app_nth1 by nia.
  unfold lambda_columns_upto. fold es E n N.
  replace (Z.to_nat (i * E + zsum (firstn (Z.to_nat j) es) + k))
    with (Z.to_nat i * Z.to_nat E
          + Z.to_nat (zsum (firstn (Z.to_nat j) es) + k))%nat by nia.
  rewrite nth_flat_map_const with (n := Z.to_nat E) (da := 0).
  - rewrite zrange_nth by lia. rewrite lambda_block_nth by (assumption || lia).
    rewrite Z2Nat.id by lia. f_equal; ring.
  - intros x _.
    destruct (lambda_block_size st x (2 * (x * N)) (2 * (N * n) + x * N)
                (3 * (N * n) + x * E) 0 Hnn) as (_ & Hl).
    fold E in Hl. unfold size in Hl. lia.
  - rewrite zrange_length. lia.
  - lia.
Qed.

Lemma A_columns_mu (i j k : Z) :
  0 <= i < n -> 0 <= j < N -> 0 <= k < 4 ->
  nth (Z.to_nat (lambda_horizon_ st + 4 * (i * N + j) + k)) (A_columns st) []
  = mu_column st (2 * (i * N + j)) (2 * (N * n) + i * N + j)
              (3 * (N * n) + lambda_horizon_ st + 4 * (i * N + j) + k) k.
Proof.
  intros Hi Hj Hk.
  pose proof lambda_columns_upto_size as Hlen. unfold size in Hlen.
  pose proof (wf_lambda WF) as Hlam. unfold sum_edges in Hlam.
  fold es E n in Hlam.
  destruct (wf_sizes WF) as (HE & _ & Hn & HN & _).
  fold es E n N in HE, Hn, HN.
  unfold A_columns. fold n.
  rewrite app_nth2 by nia.
  replace (Z.to_nat (lambda_horizon_ st + 4 * (i * N + j) + k)
           - length (lambda_columns_upto st n))%nat
    with (Z.to_nat i * Z.to_nat (4 * N) + Z.to_nat (4 * j + k))%nat by nia.
  unfold mu_columns_upto. fold N.
  rewrite nth_flat_map_const with (n := Z.to_nat (4 * N)) (da := 0).
  - rewrite zrange_nth by lia. unfold mu_step_columns. fold n N.
    replace (Z.to_nat (4 * j + k))
      with (Z.to_nat j * 4 + Z.to_nat k)%nat by lia.
    rewrite nth_flat_map_const with (n := 4%nat) (da := 0).
    + rewrite zrange_nth by lia. unfold mu_obstacle_columns.
      now rewrite nth_map_zrange by lia.
    + intros x _. reflexivity.
    + rewrite zrange_length. lia.
    + lia.
  - intros x _. unfold mu_step_columns.
    rewrite length_flat_map_const with (n := 4%nat) by reflexivity.
    rewrite zrange_length. fold N. lia.
  - rewrite zrange_length. lia.
  - lia.
Qed.
End ColumnIndex.
(** ** Bounds *)

Lemma list_store_app {T : Type} (a r : list T) (x y : T) :
  list_store (length a) x (a ++ y :: r) = a ++ x :: r.
Proof. induction a as [|z a IH]; simpl; [reflexivity|]. now rewrite IH. Qed.

Section BoundsFacts.
Context {F : Type} `{Scalar F}.
Variable st : DualVariableWarmStartOSQPInterface F.
Hypothesis WF : wf_interface st.

Let n := horizon_ st + 1.
Let N := obstacles_num_ st.
Let m := num_of_constraints_ st.

Lemma wf_constraints_range : 0 <= m <= INT_MAX.
Proof.
  destruct (wf_sizes WF) as (HE & _ & Hn & HN & HEn & _ & HA).
  subst m. rewrite (wf_constraints WF), (wf_variables WF), (wf_lambda WF),
    (wf_miu WF). unfold sum_edges. int_bounds.
Qed.

Lemma wf_group_bases :
  imul (imul 2 N) (iadd (horizon_ st) 1) = 2 * N * n /\
  imul (imul 3 N) (iadd (horizon_ st) 1) = 3 * N * n.
Proof.
  destruct (wf_sizes WF) as (HE & _ & Hn & HN & HEn & _ & HA).
  fold n N in Hn, HN, HEn, HA.
  rewrite iadd_small by (fold n; int_bounds). fold n.
  rewrite !(imul_small _ N) by int_bounds.
  rewrite !imul_small by int_bounds. split; reflexivity.
Qed.

Lemma assemble_bounds_spec :
  assemble_bounds st
  = (map (fun _ => Some (flit 0%Q)) (zrange m),
     map (fun i => Some (if i <? 2 * N * n then flit 0%Q
                         else flit (20000000000000000000 # 1)%Q))
         (zrange m)).
Proof.
  destruct wf_constraints_range as (Hm0 & Hm1).
  destruct wf_group_bases as (Hb2 & Hb3).
  unfold assemble_bounds. fold N m. rewrite Hb2, Hb3.
  set (lbf := fun _ : Z => Some (@flit F _ 0%Q)).
  set (ubf := fun i : Z => Some (if i <? 2 * N * n then @flit F _ 0%Q
                                else flit (20000000000000000000 # 1)%Q)).
  assert (Hfin : forall f : Z -> option F,
            map f (zrange m) = map f (zrange m) ++ repeat None (Z.to_nat (m - m))).
  { intros f. rewrite Z.sub_diag. simpl. now rewrite app_nil_r. }
  rewrite (Hfin lbf), (Hfin ubf).
  apply (for_range_inv (fun k t =>
    t = (map lbf (zrange k) ++ repeat None (Z.to_nat (m - k)),
         map ubf (zrange k) ++ repeat None (Z.to_nat (m - k))))); [lia| |].
  - rewrite zrange_nil, Z.sub_0_r by lia. reflexivity.
  - intros k t Hk ->.
    replace (Z.to_nat (m - k)) with (S (Z.to_nat (m - (k + 1)))) by lia.
    cbn [repeat]. unfold array_store.
    assert (Hstore : forall (f : Z -> option F) y r v,
              list_store (Z.to_nat k) v (map f (zrange k) ++ y :: r)
              = map f (zrange k) ++ v :: r).
    { intros f y r v. rewrite <- (list_store_app (map f (zrange k)) r v y).
      f_equal. now rewrite length_map, zrange_length. }
    rewrite !Hstore.
    rewrite zrange_succ, !map_app, <- !app_assoc by lia. cbn [map app].
    unfold lbf, ubf.
    destruct ((2 * N * n <=? k) && (k <? 3 * N * n));
      destruct (k <? 2 * N * n); rewrite ?Hstore; reflexivity.
Qed.
End BoundsFacts.
(** ** Extraction of the primal solution *)

Lemma for_range_preserves {St : Type} (P : St -> Prop) (lo hi : Z)
    (body : Z -> St -> St) (s : St) :
  P s -> (forall k t, P t -> P (body k t)) -> P (for_range lo hi body s).
Proof.
  intros Hs Hb. unfold for_range.
  generalize (seq 0 (Z.to_nat (hi - lo))). intros l. revert s Hs.
  induction l as [|x l IH]; intros s Hs; simpl; [exact Hs|].
  apply IH. now apply Hb.
Qed.

Section ExtractFacts.
Context {F : Type} `{Scalar F}.
Variable st : DualVariableWarmStartOSQPInterface F.

Lemma extract_block_shape (x : list F) (nrows : Z) (M : Matrix F) (vi : Z) :
  same_shape M (fst (extract_block st x nrows (M, vi))).
Proof.
  unfold extract_block.
  apply (for_range_preserves (fun t => same_shape M (fst t))).
  - repeat split.
  - intros i t Ht.
    apply (for_range_preserves (fun t => same_shape M (fst t))); [exact Ht|].
    intros j [M' v] (Hr & Hc & Hl). unfold same_shape, set_coeff in *.
    cbn [fst rows cols coeffs] in *. rewrite list_store_length. auto.
Qed.

Hypothesis WF : wf_interface st.
Let n := horizon_ st + 1.

Lemma extract_block_spec (x : list F) (nrows : Z) (M : Matrix F) (vi : Z) :
  0 <= nrows -> rows M = nrows -> size (coeffs M) = nrows * n ->
  0 <= vi -> vi + nrows * n <= INT_MAX -> vi + nrows * n <= size x ->
  extract_block st x nrows (M, vi)
  = (mkMatrix (rows M) (cols M)
              (firstn (Z.to_nat (nrows * n)) (skipn (Z.to_nat vi) x)),
     vi + nrows * n).
Proof.
  intros Hnr Hrows Hsize Hvi Hmax Hx.
  pose proof (wf_horizon WF) as Hh.
  unfold size in Hsize, Hx.
  set (X := skipn (Z.to_nat vi) x).
  assert (HX : (Z.to_nat (nrows * n) <= length X)%nat)
    by (subst X; rewrite length_skipn; lia).
  set (state := fun p : Z =>
    (mkMatrix (rows M) (cols M)
              (firstn (Z.to_nat p) X ++ skipn (Z.to_nat p) (coeffs M)),
     vi + p)).
  assert (Hend : state (n * nrows)
                 = (mkMatrix (rows M) (cols M) (firstn (Z.to_nat (nrows * n)) X),
                    vi + nrows * n)).
  { unfold state. rewrite skipn_all2 by lia. rewrite app_nil_r.
    now rewrite (Z.mul_comm n nrows). }
  rewrite <- Hend. unfold extract_block.
  rewrite iadd_small by (fold n; int_bounds). fold n.
  apply (for_range_inv (fun i t => t = state (i * nrows))); [subst n; lia| |].
  - unfold state. rewrite Z.mul_0_l, Z.add_0_r. simpl. now destruct M.
  - intros i t Hi ->.
    replace ((i + 1) * nrows) with (i * nrows + nrows) by ring.
    apply (for_range_inv (fun j t => t = state (i * nrows + j))); [lia| |].
    + now rewrite Z.add_0_r.
    + intros j t Hj ->. unfold state, set_coeff. cbn [rows cols coeffs].
      rewrite Hrows.
      assert (Hp : 0 <= i * nrows + j < nrows * n) by nia.
      rewrite iadd_small by int_bounds.
      replace (Z.to_nat (i * nrows + (j + 1)))
        with (S (Z.to_nat (i * nrows + j))) by lia.
      replace (nth (Z.to_nat (vi + (i * nrows + j))) x dflt)
        with (nth (Z.to_nat (i * nrows + j)) X dflt)
        by (subst X; rewrite nth_skipn; f_equal; lia).
      rewrite list_store_next by lia.
      f_equal. ring.
Qed.

Lemma extract_block_coeff (x : list F) (nrows : Z) (M : Matrix F) (vi : Z)
    (i j : Z) :
  0 <= nrows -> rows M = nrows -> size (coeffs M) = nrows * n ->
  0 <= vi -> vi + nrows * n <= INT_MAX -> vi + nrows * n <= size x ->
  0 <= i < n -> 0 <= j < nrows ->
  coeff (fst (extract_block st x nrows (M, vi))) j i
  = nth (Z.to_nat (vi + i * nrows + j)) x dflt.
Proof.
  intros Hnr Hrows Hsize Hvi Hmax Hx Hi Hj.
  rewrite extract_block_spec by assumption.
  unfold coeff. cbn [fst rows coeffs]. rewrite Hrows.
  assert (Hp : 0 <= i * nrows + j < nrows * n) by nia.
  rewrite nth_firstn.
  replace (Z.to_nat (i * nrows + j) <? Z.to_nat (nrows * n))%nat with true
    by (symmetry; apply Nat.ltb_lt; lia).
  rewrite nth_skipn. f_equal. lia.
Qed.
End ExtractFacts.
(** ** The solve entry point *)

Section OptimizeFacts.
Context {F : Type} `{Scalar F} `{OSQP F}.

Lemma populate_data_some (st : DualVariableWarmStartOSQPInterface F) :
  wf_interface st -> exists data, populate_data st = Some data.
Proof.
  intros WF. unfold populate_data.
  destruct (assemble_P_stores WF) as (Pd & Pi & Pp & -> & _).
  destruct (assemble_constraint_stores WF) as (Ad & Ai & Ap & -> & _).
  destruct (assemble_bounds st) as [lb ub]. eexists. reflexivity.
Qed.

Lemma solver_outcome_some (st : DualVariableWarmStartOSQPInterface F) :
  wf_interface st -> exists work, solver_outcome st = Some work.
Proof.
  intros WF. unfold solver_outcome.
  destruct (populate_data_some WF) as (data & ->). eexists. reflexivity.
Qed.

Lemma solved_dec (work : OSQPWorkspace) :
  negb (info_status_val work =? 1) && negb (info_status_val work =? 2) = false
  <-> solved work.
Proof.
  unfold solved.
  destruct (Z.eqb_spec (info_status_val work) 1);
    destruct (Z.eqb_spec (info_status_val work) 2); simpl; split;
    intros; auto; try discriminate; tauto.
Qed.

(** The failure return leaves the object alone and frees nothing. *)
Lemma optimize_failure (st : DualVariableWarmStartOSQPInterface F) (h : heap)
    (work : OSQPWorkspace) :
  solver_outcome st = Some work -> ~ solved work ->
  optimize st h
  = Some (false, st,
          NWorkspace :: NCscA :: NCscP :: NData :: NSettings :: h).
Proof.
  unfold solver_outcome, optimize. intros Hw Hns.
  destruct (populate_data st) as [data|]; [|discriminate].
  injection Hw as <-.
  destruct (negb (info_status_val _ =? 1) && negb (info_status_val _ =? 2))
    eqn:Hc; [reflexivity|].
  apply solved_dec in Hc. contradiction.
Qed.

(** The success return stores both blocks of [x] and frees every block. *)
Lemma optimize_success (st : DualVariableWarmStartOSQPInterface F) (h : heap)
    (work : OSQPWorkspace) :
  solver_outcome st = Some work -> solved work ->
  let l := extract_block st (solution_x work) (obstacles_edges_sum_ st)
                         (l_warm_up_ st, 0) in
  let n := extract_block st (solution_x work) (imul 4 (obstacles_num_ st))
                         (n_warm_up_ st, snd l) in
  optimize st h = Some (true, with_warm_up st (fst l) (fst n), h).
Proof.
  intros Hw Hs l n. subst l n. unfold solver_outcome, optimize in *.
  destruct (populate_data st) as [data|]; [|discriminate].
  injection Hw as <-. apply solved_dec in Hs. rewrite Hs.
  destruct (extract_block st _ (obstacles_edges_sum_ st) _) as [l vi].
  destruct (extract_block st _ (imul 4 (obstacles_num_ st)) _) as [n vi'].
  cbn [fst snd c_malloc c_free native_eqb]. reflexivity.
Qed.

Lemma optimize_cases (st st' : DualVariableWarmStartOSQPInterface F)
    (h h' : heap) (b : bool) :
  optimize st h = Some (b, st', h') ->
  exists work,
    solver_outcome st = Some work /\
    ((b = false /\ ~ solved work /\ st' = st) \/
     (b = true /\ solved work /\
      exists l n, st' = with_warm_up st l n /\
                  same_shape (l_warm_up_ st) l /\
                  same_shape (n_warm_up_ st) n)).
Proof.
  intros Hopt.
  destruct (solver_outcome st) as [work|] eqn:Hw.
  - exists work. split; [reflexivity|].
    destruct (negb (info_status_val work =? 1)
              && negb (info_status_val work =? 2)) eqn:Hc.
    + assert (Hns : ~ solved work).
      { intros Hs. apply solved_dec in Hs. congruence. }
      erewrite optimize_failure in Hopt; [|exact Hw|exact Hns].
      injection Hopt as <- <- <-. left. auto.
    + apply solved_dec in Hc.
      erewrite optimize_success in Hopt; [|exact Hw|exact Hc].
      injection Hopt as <- <- <-. right. repeat split; [exact Hc|].
      do 2 eexists. split; [reflexivity|].
      split; apply extract_block_shape.
  - unfold solver_outcome, optimize in *.
    destruct (populate_data st); discriminate.
Qed.

Lemma wf_with_warm_up (st : DualVariableWarmStartOSQPInterface F)
    (l n : Matrix F) :
  wf_interface st ->
  same_shape (l_warm_up_ st) l -> same_shape (n_warm_up_ st) n ->
  wf_interface (with_warm_up st l n).
Proof.
  intros WF (Hl1 & Hl2 & Hl3) (Hn1 & Hn2 & Hn3).
  destruct WF. unfold size in *.
  constructor; unfold with_warm_up, size;
    cbn [horizon_ obstacles_num_ obstacles_edges_num_ obstacles_edges_sum_
         l_start_index_ lambda_horizon_ miu_horizon_ num_of_variables_
         num_of_constraints_ l_warm_up_ n_warm_up_];
    try assumption; congruence.
Qed.

(** Every state of the object differs from the constructed one in the
    contents of the two result matrices only. *)
Lemma reachable_inv (st0 st : DualVariableWarmStartOSQPInterface F) :
  wf_interface st0 -> reachable st0 st ->
  wf_interface st /\
  st = with_warm_up st0 (l_warm_up_ st) (n_warm_up_ st).
Proof.
  intros WF0 Hr. induction Hr as [|st h b st' h' Hr IH Hopt].
  - split; [exact WF0|]. now destruct st0.
  - destruct IH as (WF & Heq).
    apply optimize_cases in Hopt.
    destruct Hopt as (work & _ & [(_ & _ & ->)|(_ & _ & Hs)]).
    + now split.
    + destruct Hs as (l & n & -> & Hl & Hn). split.
      * now apply wf_with_warm_up.
      * rewrite Heq at 1. reflexivity.
Qed.

Lemma unsolved_inv (st0 st : DualVariableWarmStartOSQPInterface F) :
  unsolved st0 st -> st = st0.
Proof.
  intros Hu. induction Hu as [|st h st' h' Hu IH Hopt]; [reflexivity|].
  apply optimize_cases in Hopt.
  destruct Hopt as (work & _ & [(_ & _ & ->)|(Hb & _)]);
    [exact IH|discriminate].
Qed.

Lemma built_from_inv (horizon : N) (ts : F) (ego : Matrix F)
    (edges : Matrix Z) (obstacles_num : N) (A b xWS : Matrix F)
    (st : DualVariableWarmStartOSQPInterface F) :
  valid_input horizon ego edges obstacles_num A b xWS ->
  built_from horizon ts ego edges obstacles_num A b xWS st ->
  wf_interface st /\
  horizon_ st = Z.of_N horizon /\
  obstacles_num_ st = Z.of_N obstacles_num /\
  obstacles_edges_num_ st = edges /\
  obstacles_A_ st = A /\ obstacles_b_ st = b /\
  xWS_ st = xWS /\ ego_ st = ego /\ g_ st = footprint ego.
Proof.
  intros V (st0 & Hc & Hr).
  destruct (construct_wf ts V)
    as (st1 & Hc1 & WF & Hh & Hn & He & HA & Hb & Hx & Hego & Hg & _).
  rewrite Hc in Hc1. injection Hc1 as <-.
  destruct (reachable_inv WF Hr) as (WFst & Heq).
  split; [exact WFst|]. rewrite Heq. cbn. auto 10.
Qed.
End OptimizeFacts.
(** * The claims *)

(** Decides a closed range condition by evaluation. *)
Ltac decide_range :=
  match goal with
  | |- _ <= _ <= _ => split; apply Z.leb_le; vm_compute; reflexivity
  | |- _ <= _ < _ =>
    split; [apply Z.leb_le|apply Z.ltb_lt]; vm_compute; reflexivity
  end.

Lemma scene_valid :
  valid_input 1%N scene_ego scene_edges 2%N scene_A scene_b scene_xWS.
Proof.
  constructor; try reflexivity; try (vm_compute; intuition discriminate);
    try (repeat constructor; vm_compute; discriminate).
Qed.

Lemma scene_construct :
  construct 1%N (slit 0) scene_ego scene_edges 2%N scene_A scene_b scene_xWS
  = Some scene_st.
Proof. vm_compute. reflexivity. Qed.

Lemma scene_built (S : OSQP sym) :
  built_from 1%N (slit 0) scene_ego scene_edges 2%N scene_A scene_b scene_xWS
             scene_st.
Proof. exists scene_st. split; [exact scene_construct|constructor]. Qed.

(** The sparsity patterns the two assemblers produce on the scene: row
    indices and column pointers. *)
Example scene_P_pattern :
  option_map (fun '(d, i, p) => (i, p)) (assemble_P scene_st [] [] [])
  = Some ([0; 1; 2; 1; 2; 3; 4; 5; 4; 5],
          [0; 1; 3; 5; 6; 8; 10; 10; 10; 10; 10; 10; 10; 10; 10; 10; 10; 10;
           10; 10; 10; 10; 10]).
Proof. vm_compute. reflexivity. Qed.

Example scene_A_pattern :
  option_map (fun '(d, i, p) => (i, p)) (assemble_constraint scene_st [] [] [])
  = Some ([0; 1; 8; 12; 2; 3; 9; 13; 2; 3; 9; 14; 4; 5; 10; 15; 6; 7; 11; 16;
           6; 7; 11; 17; 0; 8; 18; 1; 8; 19; 0; 8; 20; 1; 8; 21; 2; 9; 22; 3;
           9; 23; 2; 9; 24; 3; 9; 25; 4; 10; 26; 5; 10; 27; 4; 10; 28; 5; 10;
           29; 6; 11; 30; 7; 11; 31; 6; 11; 32; 7; 11; 33],
          [0; 4; 8; 12; 16; 20; 24; 27; 30; 33; 36; 39; 42; 45; 48; 51; 54;
           57; 60; 63; 66; 69; 72]).
Proof. vm_compute. reflexivity. Qed.

(** The first lambda column of the scene: the two group-1 entries carry the
    same sign of the sine. *)
Example scene_first_column :
  option_map (fun '(d, i, p) => firstn 2 d) (assemble_constraint scene_st [] [] [])
  = Some [SAdd (SMul (SCos (slit 102)) (slit 10)) (SMul (SSin (slit 102)) (slit 20));
          SAdd (SMul (SSin (slit 102)) (slit 10)) (SMul (SCos (slit 102)) (slit 20))].
Proof. vm_compute. reflexivity. Qed.

(** C4: for every valid construction input the constructor succeeds, and in
    every state of the object the stored number of variables is
    (sum of edge counts)*(horizon+1) + 4*obstacles*(horizon+1) and the stored
    number of constraints is 3*obstacles*(horizon+1) + (number of variables). *)
Theorem problem_dimensions {F : Type} `{Scalar F} `{OSQP F}
    (horizon : N) (ts : F) (ego : Matrix F) (edges : Matrix Z)
    (obstacles_num : N) (A b xWS : Matrix F) :
  valid_input horizon ego edges obstacles_num A b xWS ->
  (exists st0, construct horizon ts ego edges obstacles_num A b xWS = Some st0) /\
  forall st,
    built_from horizon ts ego edges obstacles_num A b xWS st ->
    num_of_variables_ st
    = sum_edges edges * (Z.of_N horizon + 1)
      + 4 * Z.of_N obstacles_num * (Z.of_N horizon + 1) /\
    num_of_constraints_ st
    = 3 * Z.of_N obstacles_num * (Z.of_N horizon + 1) + num_of_variables_ st.
Proof.
  intros V. split.
  - destruct (construct_wf ts V) as (st0 & Hc & _). now exists st0.
  - intros st Hb.
    destruct (built_from_inv V Hb) as (WF & Hh & Hn & He & _).
    rewrite (wf_constraints WF), (wf_variables WF), (wf_lambda WF), (wf_miu WF).
    rewrite Hh, Hn, He. split; reflexivity.
Qed.

Lemma problem_dimensions_witness :
  num_of_variables_ scene_st = 3 * (1 + 1) + 4 * 2 * (1 + 1) /\
  num_of_constraints_ scene_st = 3 * 2 * (1 + 1) + num_of_variables_ scene_st.
Proof.
  apply (problem_dimensions (H0 := OSQP_returning 1 scene_x) (slit 0)
           scene_valid).
  apply scene_built.
Defined.
Lemma stores_head {F : Type} (cs : list (column F)) (data : list F)
    (indices indptr : list Z) :
  stores cs data indices indptr -> hd_error indptr = Some 0.
Proof.
  intros ST. pose proof (stores_indptr_first ST) as H0.
  pose proof (stores_indptr_size ST) as Hs.
  destruct indptr as [|p t].
  - unfold size in Hs. simpl in Hs. lia.
  - simpl in *. now subst.
Qed.

(** C8: for every valid construction input, the column-pointer arrays of
    both P and A are non-decreasing, start at 0 and have length n+1, and for
    both matrices the value array is as long as the row-index array. *)
Theorem column_pointers_wellformed {F : Type} `{Scalar F} `{OSQP F}
    (horizon : N) (ts : F) (ego : Matrix F) (edges : Matrix Z)
    (obstacles_num : N) (A b xWS : Matrix F)
    (st : DualVariableWarmStartOSQPInterface F) :
  valid_input horizon ego edges obstacles_num A b xWS ->
  built_from horizon ts ego edges obstacles_num A b xWS st ->
  exists P_data P_indices P_indptr A_data A_indices A_indptr,
    assemble_P st [] [] [] = Some (P_data, P_indices, P_indptr) /\
    assemble_constraint st [] [] [] = Some (A_data, A_indices, A_indptr) /\
    (nondecreasing P_indptr /\ hd_error P_indptr = Some 0 /\
     size P_indptr = num_of_variables_ st + 1 /\
     size P_data = size P_indices) /\
    (nondecreasing A_indptr /\ hd_error A_indptr = Some 0 /\
     size A_indptr = num_of_variables_ st + 1 /\
     size A_data = size A_indices).
Proof.
  intros V Hb. destruct (built_from_inv V Hb) as (WF & _).
  destruct (assemble_P_stores WF) as (Pd & Pi & Pp & HP & SP).
  destruct (assemble_constraint_stores WF) as (Ad & Ai & Ap & HA & SA).
  exists Pd, Pi, Pp, Ad, Ai, Ap. split; [exact HP|]. split; [exact HA|].
  split; repeat split.
  - exact (stores_indptr_nondecreasing SP).
  - exact (stores_head SP).
  - rewrite (stores_indptr_size SP). now rewrite (P_columns_size WF).
  - exact (stores_sizes SP).
  - exact (stores_indptr_nondecreasing SA).
  - exact (stores_head SA).
  - rewrite (stores_indptr_size SA). now rewrite (A_columns_size WF).
  - exact (stores_sizes SA).
Qed.

Lemma column_pointers_wellformed_witness :
  exists P_data P_indices P_indptr A_data A_indices A_indptr,
    assemble_P scene_st [] [] [] = Some (P_data, P_indices, P_indptr) /\
    assemble_constraint scene_st [] [] []
    = Some (A_data, A_indices, A_indptr) /\
    (nondecreasing P_indptr /\ hd_error P_indptr = Some 0 /\
     size P_indptr = num_of_variables_ scene_st + 1 /\
     size P_data = size P_indices) /\
    (nondecreasing A_indptr /\ hd_error A_indptr = Some 0 /\
     size A_indptr = num_of_variables_ scene_st + 1 /\
     size A_data = size A_indices).
Proof.
  exact (column_pointers_wellformed (H0 := OSQP_returning 1 scene_x)
           scene_valid (scene_built _)).
Defined.

(** C5: the assembled P is block-diagonal over the lambda indices: for every
    step i and obstacle j, column c of the block of (i, j) stores exactly the
    rows of that block, with the entries of the Gram matrix A_j*A_j^T, the
    same at every step; every mu column is empty. *)
Theorem P_block_diagonal {F : Type} `{Scalar F} `{OSQP F}
    (horizon : N) (ts : F) (ego : Matrix F) (edges : Matrix Z)
    (obstacles_num : N) (A b xWS : Matrix F)
    (st : DualVariableWarmStartOSQPInterface F) :
  valid_input horizon ego edges obstacles_num A b xWS ->
  built_from horizon ts ego edges obstacles_num A b xWS st ->
  exists P_data P_indices P_indptr,
    assemble_P st [] [] [] = Some (P_data, P_indices, P_indptr) /\
    (forall i j c,
       0 <= i <= Z.of_N horizon -> 0 <= j < Z.of_N obstacles_num ->
       0 <= c < edge_count edges j ->
       let first := i * sum_edges edges + edge_offset edges j in
       csc_column P_data P_indices P_indptr (first + c)
       = map (fun r => (first + r, gram A (edge_offset edges j) r c))
             (zrange (edge_count edges j))) /\
    (forall k,
       sum_edges edges * (Z.of_N horizon + 1) <= k < num_of_variables_ st ->
       csc_column P_data P_indices P_indptr k = []).
Proof.
  intros V Hb.
  destruct (built_from_inv V Hb) as (WF & Hh & Hn & He & HA & _).
  destruct (assemble_P_stores WF) as (Pd & Pi & Pp & HP & SP).
  exists Pd, Pi, Pp. split; [exact HP|].
  pose proof (P_columns_size WF) as Hsz.
  destruct (wf_sizes WF) as (HE & _ & Hn1 & HN & _).
  pose proof (wf_edges_size WF) as Hes. pose proof (wf_edges_nonneg WF) as Hnn.
  rewrite He in *. rewrite Hh, Hn in *. split.
  - intros i j c Hi Hj Hc first. subst first.
    destruct (zsum_firstn_bound (j := Z.to_nat j) Hnn) as (_ & Hbd);
      [unfold size in Hes; lia|].
    pose proof (zsum_firstn_nonneg (Z.to_nat j) Hnn) as Hz.
    fold (edge_offset edges j) in Hbd, Hz. fold (edge_count edges j) in Hbd.
    rewrite (stores_column SP).
    + pose proof (@P_columns_lambda F _ st WF i j c) as Hcol.
      rewrite He, HA, Hh, Hn in Hcol. apply Hcol; lia.
    + rewrite Hsz, (wf_variables WF), (wf_lambda WF), (wf_miu WF).
      rewrite He, Hh, Hn. unfold sum_edges in *. nia.
  - intros k Hk. rewrite (stores_column SP) by (rewrite Hsz; unfold sum_edges in *; nia).
    apply (P_columns_mu WF). rewrite (wf_lambda WF), He, Hh. lia.
Qed.

Lemma P_block_diagonal_witness :
  exists P_data P_indices P_indptr,
    assemble_P scene_st [] [] [] = Some (P_data, P_indices, P_indptr) /\
    csc_column P_data P_indices P_indptr 4
    = [(4, gram scene_A 1 0 0); (5, gram scene_A 1 1 0)] /\
    csc_column P_data P_indices P_indptr 5
    = [(4, gram scene_A 1 0 1); (5, gram scene_A 1 1 1)] /\
    csc_column P_data P_indices P_indptr 6 = [].
Proof.
  destruct (P_block_diagonal (H0 := OSQP_returning 1 scene_x)
              scene_valid (scene_built _))
    as (Pd & Pi & Pp & HP & Hlam & Hmu).
  exists Pd, Pi, Pp. split; [exact HP|]. split; [|split].
  - apply (Hlam 1 1 0); decide_range.
  - apply (Hlam 1 1 1); decide_range.
  - apply (Hmu 6). decide_range.
Defined.
Lemma turn_valid :
  valid_input 0%N turn_ego turn_edges 1%N turn_A turn_b turn_xWS.
Proof.
  constructor; try reflexivity; try (vm_compute; intuition discriminate);
    try (repeat constructor; vm_compute; discriminate);
    try (repeat split; vm_compute; congruence).
Qed.

Lemma built_dimensions {F : Type} `{Scalar F} `{OSQP F}
    (horizon : N) (ts : F) (ego : Matrix F) (edges : Matrix Z)
    (obstacles_num : N) (A b xWS : Matrix F)
    (st : DualVariableWarmStartOSQPInterface F) :
  valid_input horizon ego edges obstacles_num A b xWS ->
  built_from horizon ts ego edges obstacles_num A b xWS st ->
  num_of_variables_ st
  = sum_edges edges * (Z.of_N horizon + 1)
    + 4 * Z.of_N obstacles_num * (Z.of_N horizon + 1) /\
  num_of_constraints_ st
  = 3 * Z.of_N obstacles_num * (Z.of_N horizon + 1)
    + (sum_edges edges * (Z.of_N horizon + 1)
       + 4 * Z.of_N obstacles_num * (Z.of_N horizon + 1)).
Proof.
  intros V Hb. destruct (built_from_inv V Hb) as (WF & Hh & Hn & He & _).
  rewrite (wf_constraints WF), (wf_variables WF), (wf_lambda WF), (wf_miu WF).
  rewrite Hh, Hn, He. split; reflexivity.
Qed.

(** C3, as the code has it: every row of group 1, i.e. every
    i < 2*obstacles*(horizon+1), is an equality row with l[i] = u[i] = 0;
    every later row, the rows of group 2 included, has l[i] = 0 and
    u[i] = 2e19. *)
Theorem bounds_by_group {F : Type} `{Scalar F} `{OSQP F}
    (horizon : N) (ts : F) (ego : Matrix F) (edges : Matrix Z)
    (obstacles_num : N) (A b xWS : Matrix F)
    (st : DualVariableWarmStartOSQPInterface F) :
  valid_input horizon ego edges obstacles_num A b xWS ->
  built_from horizon ts ego edges obstacles_num A b xWS st ->
  forall i,
    (0 <= i < 2 * Z.of_N obstacles_num * (Z.of_N horizon + 1) ->
     array_at (fst (assemble_bounds st)) i = Some (flit 0%Q) /\
     array_at (snd (assemble_bounds st)) i = Some (flit 0%Q)) /\
    (2 * Z.of_N obstacles_num * (Z.of_N horizon + 1) <= i
       < num_of_constraints_ st ->
     array_at (fst (assemble_bounds st)) i = Some (flit 0%Q) /\
     array_at (snd (assemble_bounds st)) i
     = Some (flit (20000000000000000000 # 1)%Q)).
Proof.
  intros V Hb i. destruct (built_from_inv V Hb) as (WF & Hh & Hn & _).
  rewrite (assemble_bounds_spec WF). cbn [fst snd]. unfold array_at.
  rewrite Hh, Hn.
  pose proof (wf_constraints WF) as Hm. pose proof (wf_variables WF) as Hv.
  pose proof (wf_lambda WF) as Hl. pose proof (wf_miu WF) as Hmu.
  destruct (wf_sizes WF) as (HE & _ & Hn1 & HN & _).
  unfold sum_edges in *. rewrite Hh, Hn in *.
  split; intros Hi.
  - rewrite !nth_map_zrange by nia.
    replace (i <? 2 * Z.of_N obstacles_num * (Z.of_N horizon + 1)) with true
      by (symmetry; apply Z.ltb_lt; lia).
    split; reflexivity.
  - rewrite !nth_map_zrange by nia.
    replace (i <? 2 * Z.of_N obstacles_num * (Z.of_N horizon + 1)) with false
      by (symmetry; apply Z.ltb_ge; lia).
    split; reflexivity.
Qed.

Lemma bounds_by_group_witness :
  (array_at (fst (assemble_bounds scene_st)) 2 = Some (SLit 0%Q) /\
   array_at (snd (assemble_bounds scene_st)) 2 = Some (SLit 0%Q)) /\
  (array_at (fst (assemble_bounds scene_st)) 9 = Some (SLit 0%Q) /\
   array_at (snd (assemble_bounds scene_st)) 9
   = Some (SLit (20000000000000000000 # 1)%Q)).
Proof.
  split.
  - apply (bounds_by_group (H0 := OSQP_returning 1 scene_x)
             scene_valid (scene_built _) 2).
    decide_range.
  - apply (bounds_by_group (H0 := OSQP_returning 1 scene_x)
             scene_valid (scene_built _) 9).
    decide_range.
Defined.

(** C3, as stated, fails: in the scene of one obstacle and horizon 0 the row
    of group 2 (index 2 < 3*1*(0+1)) has the upper bound 2e19, not 0. *)
Lemma bounds_group2_not_equality :
  ~ (forall st,
       built_from (H0 := OSQP_returning 1 []) 0%N 0%R turn_ego turn_edges 1%N
                  turn_A turn_b turn_xWS st ->
       forall i, 0 <= i < 3 * 1 * (0 + 1) ->
         array_at (fst (assemble_bounds st)) i = Some (flit 0%Q) /\
         array_at (snd (assemble_bounds st)) i = Some (flit 0%Q)).
Proof.
  intros Hall.
  destruct (construct_wf 0%R turn_valid) as (st & Hc & _).
  assert (Hb : built_from (H0 := OSQP_returning 1 []) 0%N 0%R turn_ego
                 turn_edges 1%N turn_A turn_b turn_xWS st)
    by (exists st; split; [exact Hc|constructor]).
  destruct (Hall st Hb 2) as (_ & Hu); [lia|].
  destruct (built_from_inv turn_valid Hb) as (WF & Hh & Hn & _).
  destruct (built_dimensions turn_valid Hb) as (_ & Hm).
  rewrite (assemble_bounds_spec WF) in Hu. cbn [snd] in Hu.
  unfold array_at in Hu. rewrite Hm, Hh, Hn in Hu.
  rewrite nth_map_zrange in Hu by decide_range.
  change (2 <? 2 * Z.of_N 1 * (Z.of_N 0 + 1)) with false in Hu.
  injection Hu as Hu.
  cbn [flit Scalar_R] in Hu. unfold Q2R in Hu. simpl in Hu. lra.
Qed.
(** C6: the solve entry point returns success exactly when the solver's
    status is 1 ("solved") or 2 ("solved inaccurately"); on every other
    status it returns failure and both result matrices are as they were
    before the call. *)
Theorem optimize_status {F : Type} `{Scalar F} `{OSQP F}
    (horizon : N) (ts : F) (ego : Matrix F) (edges : Matrix Z)
    (obstacles_num : N) (A b xWS : Matrix F)
    (st : DualVariableWarmStartOSQPInterface F) :
  valid_input horizon ego edges obstacles_num A b xWS ->
  built_from horizon ts ego edges obstacles_num A b xWS st ->
  exists work,
    solver_outcome st = Some work /\
    forall h, exists ret st' h',
      optimize st h = Some (ret, st', h') /\
      (ret = true <-> info_status_val work = 1 \/ info_status_val work = 2) /\
      (ret = false ->
       l_warm_up_ st' = l_warm_up_ st /\ n_warm_up_ st' = n_warm_up_ st).
Proof.
  intros V Hb. destruct (built_from_inv V Hb) as (WF & _).
  destruct (solver_outcome_some WF) as (work & Hw).
  exists work. split; [exact Hw|]. intros h.
  destruct (negb (info_status_val work =? 1)
            && negb (info_status_val work =? 2)) eqn:Hc.
  - assert (Hns : ~ solved work).
    { intros Hs. apply solved_dec in Hs. congruence. }
    do 3 eexists. split; [eapply optimize_failure; [exact Hw|exact Hns]|].
    split; [|auto]. split; [discriminate|]. intros Hs. now elim Hns.
  - apply solved_dec in Hc.
    do 3 eexists. split; [eapply optimize_success; [exact Hw|exact Hc]|].
    split; [|discriminate]. split; auto.
Qed.

Lemma optimize_status_witness :
  exists st' h',
    optimize (H0 := OSQP_returning 3 scene_x) scene_st [] = Some (false, st', h') /\
    l_warm_up_ st' = l_warm_up_ scene_st /\
    n_warm_up_ st' = n_warm_up_ scene_st.
Proof.
  destruct (optimize_status (H0 := OSQP_returning 3 scene_x)
              scene_valid (scene_built _))
    as (work & Hw & Hopt).
  vm_compute in Hw. injection Hw as <-.
  destruct (Hopt []) as (ret & st' & h' & Ho & Hret & Hsame).
  destruct ret.
  - destruct Hret as (Hret & _).
    destruct (Hret eq_refl) as [Hs|Hs]; vm_compute in Hs; discriminate.
  - exists st', h'. split; [exact Ho|]. apply Hsame. reflexivity.
Defined.

(** C7: on a successful solve the primal vector x of length n is split in the
    canonical order: entry (j, i) of the lambda matrix is
    x[i*(total edges) + j] and entry (j, i) of the mu matrix is
    x[(total edges)*(horizon+1) + i*4*obstacles + j]; the lambda matrix is
    (total edges) x (horizon+1) and the mu matrix 4*obstacles x (horizon+1). *)
Theorem primal_split {F : Type} `{Scalar F} `{OSQP F}
    (horizon : N) (ts : F) (ego : Matrix F) (edges : Matrix Z)
    (obstacles_num : N) (A b xWS : Matrix F)
    (st : DualVariableWarmStartOSQPInterface F) :
  valid_input horizon ego edges obstacles_num A b xWS ->
  built_from horizon ts ego edges obstacles_num A b xWS st ->
  exists work,
    solver_outcome st = Some work /\
    (info_status_val work = 1 \/ info_status_val work = 2 ->
     size (solution_x work) = num_of_variables_ st ->
     forall h, exists st',
       optimize st h = Some (true, st', h) /\
       (rows (l_warm_up_ st') = sum_edges edges /\
        cols (l_warm_up_ st') = Z.of_N horizon + 1 /\
        size (coeffs (l_warm_up_ st'))
        = sum_edges edges * (Z.of_N horizon + 1)) /\
       (rows (n_warm_up_ st') = 4 * Z.of_N obstacles_num /\
        cols (n_warm_up_ st') = Z.of_N horizon + 1 /\
        size (coeffs (n_warm_up_ st'))
        = 4 * Z.of_N obstacles_num * (Z.of_N horizon + 1)) /\
       (forall i j,
          0 <= i <= Z.of_N horizon -> 0 <= j < sum_edges edges ->
          coeff (l_warm_up_ st') j i
          = nth (Z.to_nat (i * sum_edges edges + j)) (solution_x work) dflt) /\
       (forall i j,
          0 <= i <= Z.of_N horizon -> 0 <= j < 4 * Z.of_N obstacles_num ->
          coeff (n_warm_up_ st') j i
          = nth (Z.to_nat (sum_edges edges * (Z.of_N horizon + 1)
                           + i * (4 * Z.of_N obstacles_num) + j))
                (solution_x work) dflt)).
Proof.
  intros V Hb. destruct (built_from_inv V Hb) as (WF & Hh & Hn & He & _).
  destruct (solver_outcome_some WF) as (work & Hw).
  exists work. split; [exact Hw|]. intros Hs Hx h.
  eexists. split; [eapply optimize_success; [exact Hw|exact Hs]|].
  set (x := solution_x work) in *.
  destruct (wf_sizes WF) as (HE & _ & Hn1 & HN & HEn & _ & HA).
  pose proof (wf_variables WF) as Hv. pose proof (wf_lambda WF) as Hl.
  pose proof (wf_miu WF) as Hmu. pose proof (wf_edges_sum WF) as Hsum.
  pose proof (wf_l_rows WF) as Hlr. pose proof (wf_l_cols WF) as Hlc.
  pose proof (wf_l_size WF) as Hls. pose proof (wf_n_rows WF) as Hnr.
  pose proof (wf_n_cols WF) as Hnc. pose proof (wf_n_size WF) as Hns.
  unfold sum_edges in *. rewrite He, Hh, Hn in *.
  set (E := zsum (coeffs edges)) in *. set (n := Z.of_N horizon + 1) in *.
  set (Nn := Z.of_N obstacles_num) in *.
  assert (H4 : imul 4 Nn = 4 * Nn) by (apply imul_small; int_bounds).
  rewrite Hsum, H4.
  assert (Hl1 : extract_block st x E (l_warm_up_ st, 0)
                = (mkMatrix (rows (l_warm_up_ st)) (cols (l_warm_up_ st))
                     (firstn (Z.to_nat (E * (horizon_ st + 1)))
                             (skipn (Z.to_nat 0) x)),
                   0 + E * (horizon_ st + 1))).
  { apply (extract_block_spec WF); rewrite ?Hh; fold n;
      try assumption; try lia; try int_bounds. }
  rewrite Hh in Hl1. fold n in Hl1. rewrite Hl1. cbn [fst snd].
  assert (Hn1' : extract_block st x (4 * Nn) (n_warm_up_ st, 0 + E * n)
                = (mkMatrix (rows (n_warm_up_ st)) (cols (n_warm_up_ st))
                     (firstn (Z.to_nat (4 * Nn * (horizon_ st + 1)))
                             (skipn (Z.to_nat (0 + E * n)) x)),
                   0 + E * n + 4 * Nn * (horizon_ st + 1))).
  { apply (extract_block_spec WF); rewrite ?Hh; fold n;
      try assumption; try lia; try int_bounds. }
  rewrite Hh in Hn1'. fold n in Hn1'. rewrite Hn1'. cbn [fst snd].
  unfold with_warm_up. cbn [l_warm_up_ n_warm_up_ rows cols coeffs].
  unfold size in *.
  split; [repeat split; try assumption;
          rewrite length_firstn, length_skipn; nia|].
  split; [repeat split; try assumption;
          rewrite length_firstn, length_skipn; nia|].
  split.
  - intros i j Hi Hj. unfold coeff. cbn [rows coeffs]. rewrite Hlr.
    rewrite nth_firstn.
    replace (Z.to_nat (i * E + j) <? Z.to_nat (E * n))%nat with true
      by (symmetry; apply Nat.ltb_lt; nia).
    rewrite nth_skipn. f_equal.
  - intros i j Hi Hj. unfold coeff. cbn [rows coeffs]. rewrite Hnr.
    rewrite nth_firstn.
    replace (Z.to_nat (i * (4 * Nn) + j) <? Z.to_nat (4 * Nn * n))%nat with true
      by (symmetry; apply Nat.ltb_lt; nia).
    rewrite nth_skipn. f_equal. nia.
Qed.

Lemma primal_split_witness :
  exists st',
    optimize (H0 := OSQP_returning 1 scene_x) scene_st [] = Some (true, st', []) /\
    (rows (l_warm_up_ st') = 3 /\ cols (l_warm_up_ st') = 2) /\
    (rows (n_warm_up_ st') = 8 /\ cols (n_warm_up_ st') = 2) /\
    coeff (l_warm_up_ st') 2 1 = slit 5 /\
    coeff (n_warm_up_ st') 3 1 = slit 17.
Proof.
  destruct (primal_split (H0 := OSQP_returning 1 scene_x)
              scene_valid (scene_built _))
    as (work & Hw & Hsplit).
  vm_compute in Hw. injection Hw as <-.
  destruct (Hsplit (or_introl eq_refl) eq_refl [])
    as (st' & Ho & (Hlr & Hlc & _) & (Hnr & Hnc & _) & Hl & Hn).
  exists st'. split; [exact Ho|].
  split; [split; assumption|]. split; [split; assumption|]. split.
  - refine (eq_trans (Hl 1 2 _ _) _); [decide_range|decide_range|].
    vm_compute. reflexivity.
  - refine (eq_trans (Hn 1 3 _ _) _); [decide_range|decide_range|].
    vm_compute. reflexivity.
Defined.

(** C10: before any successful solve the result accessor returns, for
    every valid construction input, a (total edges) x (horizon+1) matrix and
    a 4*obstacles x (horizon+1) matrix whose coefficients are all defined
    and zero. *)
Theorem results_before_solve {F : Type} `{Scalar F} `{OSQP F}
    (horizon : N) (ts : F) (ego : Matrix F) (edges : Matrix Z)
    (obstacles_num : N) (A b xWS : Matrix F) :
  valid_input horizon ego edges obstacles_num A b xWS ->
  exists st0,
    construct horizon ts ego edges obstacles_num A b xWS = Some st0 /\
    forall st,
      unsolved st0 st ->
      let l := fst (get_optimization_results st) in
      let n := snd (get_optimization_results st) in
      (rows l = sum_edges edges /\ cols l = Z.of_N horizon + 1 /\
       size (coeffs l) = rows l * cols l /\
       Forall (fun v => v = flit 0%Q) (coeffs l)) /\
      (rows n = 4 * Z.of_N obstacles_num /\ cols n = Z.of_N horizon + 1 /\
       size (coeffs n) = rows n * cols n /\
       Forall (fun v => v = flit 0%Q) (coeffs n)).
Proof.
  intros V.
  destruct (construct_wf ts V)
    as (st0 & Hc & WF & Hh & Hn & He & _ & _ & _ & _ & _ & Hl & Hm).
  exists st0. split; [exact Hc|]. intros st Hu.
  apply unsolved_inv in Hu. subst st.
  unfold get_optimization_results. cbn [fst snd]. rewrite Hl, Hm.
  pose proof (zsum_nonneg (vi_edges_nonneg V)) as HE.
  fold (sum_edges edges) in HE.
  split; (split; [reflexivity|]); (split; [reflexivity|]);
    (split; [|apply Zero_coeffs]); unfold Zero;
    rewrite tabulate_size by lia; reflexivity.
Qed.

Lemma results_before_solve_witness :
  (rows (fst (get_optimization_results scene_st)) = 3 /\
   cols (fst (get_optimization_results scene_st)) = 2 /\
   Forall (fun v => v = SLit 0%Q)
          (coeffs (fst (get_optimization_results scene_st)))) /\
  (rows (snd (get_optimization_results scene_st)) = 8 /\
   cols (snd (get_optimization_results scene_st)) = 2 /\
   Forall (fun v => v = SLit 0%Q)
          (coeffs (snd (get_optimization_results scene_st)))).
Proof.
  destruct (results_before_solve (H0 := OSQP_returning 3 scene_x) (slit 0)
              scene_valid) as (st0 & Hc & Hres).
  rewrite scene_construct in Hc. injection Hc as <-.
  destruct (Hres scene_st (unsolved_constructed _))
    as ((Hlr & Hlc & _ & Hl0) & (Hnr & Hnc & _ & Hn0)).
  repeat split; assumption.
Defined.

(** C9, as the code has it: when the solver ends with a status other than 1
    and 2 (here -3, primal infeasible) the call returns with the settings,
    the problem data, the two CSC matrices and the workspace still
    allocated; only the success return releases them. *)
Theorem failure_return_leaks :
  optimize (H0 := OSQP_returning (-3) scene_x) scene_st []
  = Some (false, scene_st, [NWorkspace; NCscA; NCscP; NData; NSettings]) /\
  exists st',
    optimize (H0 := OSQP_returning 1 scene_x) scene_st [] = Some (true, st', []).
Proof.
  split.
  - vm_compute. reflexivity.
  - eexists. vm_compute. reflexivity.
Qed.
(** Evaluates the closed indices of [nth] in the goal. *)
Ltac eval_indices :=
  repeat match goal with
         | |- context [nth ?k _ _] =>
           lazymatch k with
           | O => fail
           | S _ => fail
           | _ => let v := eval vm_compute in k in change k with v
           end
         end;
  cbn [nth].

Section QuarterTurn.
Local Open Scope R_scope.

Lemma turn_columns (st : DualVariableWarmStartOSQPInterface R) :
  construct 0%N 0 turn_ego turn_edges 1%N turn_A turn_b turn_xWS = Some st ->
  exists A_data A_indices A_indptr,
    assemble_constraint st [] [] [] = Some (A_data, A_indices, A_indptr) /\
    csc_column A_data A_indices A_indptr 0
    = lambda_column st 0 0 2 3 0 /\
    csc_column A_data A_indices A_indptr 1 = mu_column st 0 2 4 0 /\
    xWS_ st = turn_xWS /\ obstacles_A_ st = turn_A /\
    g_ st = footprint turn_ego.
Proof.
  intros Hc.
  destruct (construct_wf 0 turn_valid)
    as (st1 & Hc1 & WF & Hh & Hn & He & HA & Hb & Hx & Hego & Hg & _).
  rewrite Hc in Hc1. injection Hc1 as <-.
  destruct (assemble_constraint_stores WF) as (Ad & Ai & Ap & HAs & SA).
  exists Ad, Ai, Ap. split; [exact HAs|].
  pose proof (A_columns_size WF) as Hsz.
  pose proof (wf_variables WF) as Hv. pose proof (wf_lambda WF) as Hl.
  pose proof (wf_miu WF) as Hmu. rewrite Hh, Hn, He in *.
  change (sum_edges turn_edges * (Z.of_N 0 + 1))%Z with 1%Z in Hl.
  change (4 * Z.of_N 1 * (Z.of_N 0 + 1))%Z with 4%Z in Hmu.
  rewrite Hl, Hmu in Hv. simpl in Hv.
  split; [|split; [|auto]].
  - rewrite (stores_column SA) by lia.
    pose proof (@A_columns_lambda R _ st WF 0%Z 0%Z 0%Z) as Hcol.
    rewrite He, Hh, Hn in Hcol. apply Hcol; vm_compute; intuition discriminate.
  - rewrite (stores_column SA) by lia.
    pose proof (@A_columns_mu R _ st WF 0%Z 0%Z 0%Z) as Hcol.
    rewrite Hh, Hn, Hl in Hcol. apply Hcol; vm_compute; intuition discriminate.
Qed.


(** C2, as the code has it: for the ego extents (3, 1, 1, 1) the half
    length is g[0] = 2 and the group-2 entry the code stores in the mu
    column of corner 0 is 2 = g[0], not -g[0]. *)
Theorem offset_row_mu_entry :
  exists st A_data A_indices A_indptr v,
    construct 0%N 0 turn_ego turn_edges 1%N turn_A turn_b turn_xWS = Some st /\
    assemble_constraint st [] [] [] = Some (A_data, A_indices, A_indptr) /\
    csc_column A_data A_indices A_indptr 1
    = [(0%Z, 1); (2%Z, v); (4%Z, 1)] /\
    nth 0 (g_ st) 0 = 2 /\ v = 2 /\ v <> - nth 0 (g_ st) 0.
Proof.
  destruct (construct_wf 0 turn_valid) as (st & Hc & _).
  destruct (turn_columns Hc)
    as (Ad & Ai & Ap & HAs & _ & Hmu & _ & _ & Hg).
  assert (Hg0 : nth 0 (g_ st) 0 = 2).
  { rewrite Hg. unfold footprint, coeff, turn_ego.
    cbn [rows cols coeffs fdiv fadd flit Scalar_R]. eval_indices.
    unfold Q2R. simpl. field. }
  exists st, Ad, Ai, Ap. eexists.
  split; [exact Hc|]. split; [exact HAs|].
  split.
  - rewrite Hmu. unfold mu_column. cbn [Z.ltb Z.compare Z.modulo].
    change (0 + 0 mod 2)%Z with 0%Z. change (Z.to_nat 0) with 0%nat.
    cbn [flit Scalar_R]. unfold Q2R. simpl Qnum. simpl Qden.
    replace (1 * / 1) with 1 by field. reflexivity.
  - split; [exact Hg0|]. unfold dflt, Dflt_scalar. cbn [flit Scalar_R].
    replace (Q2R 0) with 0 by (unfold Q2R; simpl; field).
    split; [exact Hg0|]. rewrite Hg0. lra.
Qed.
End QuarterTurn.

(** Layout of the constraint matrix: for every valid construction input the
    column of the lambda variable of step i, obstacle j, edge k and the
    column of the mu variable of step i, obstacle j, corner k are the ones
    [lambda_column] and [mu_column] describe, at the rows of the four
    groups. *)
Lemma constraint_columns {F : Type} `{Scalar F} `{OSQP F}
    (horizon : N) (ts : F) (ego : Matrix F) (edges : Matrix Z)
    (obstacles_num : N) (A b xWS : Matrix F)
    (st : DualVariableWarmStartOSQPInterface F) :
  valid_input horizon ego edges obstacles_num A b xWS ->
  built_from horizon ts ego edges obstacles_num A b xWS st ->
  let n := Z.of_N horizon + 1 in
  let Nn := Z.of_N obstacles_num in
  let E := sum_edges edges in
  exists A_data A_indices A_indptr,
    assemble_constraint st [] [] [] = Some (A_data, A_indices, A_indptr) /\
    (forall i j k,
       0 <= i < n -> 0 <= j < Nn -> 0 <= k < edge_count edges j ->
       csc_column A_data A_indices A_indptr (i * E + edge_offset edges j + k)
       = lambda_column st i (2 * (i * Nn + j)) (2 * (Nn * n) + i * Nn + j)
           (3 * (Nn * n) + i * E + edge_offset edges j + k)
           (edge_offset edges j + k)) /\
    (forall i j k,
       0 <= i < n -> 0 <= j < Nn -> 0 <= k < 4 ->
       csc_column A_data A_indices A_indptr (E * n + 4 * (i * Nn + j) + k)
       = mu_column st (2 * (i * Nn + j)) (2 * (Nn * n) + i * Nn + j)
           (3 * (Nn * n) + E * n + 4 * (i * Nn + j) + k) k).
Proof.
  intros V Hb n Nn E. subst n Nn E.
  destruct (built_from_inv V Hb) as (WF & Hh & Hn & He & _).
  destruct (assemble_constraint_stores WF) as (Ad & Ai & Ap & HA & SA).
  exists Ad, Ai, Ap. split; [exact HA|].
  pose proof (A_columns_size WF) as Hsz.
  destruct (wf_sizes WF) as (HE & _ & Hn1 & HN & _).
  pose proof (wf_edges_size WF) as Hes. pose proof (wf_edges_nonneg WF) as Hnn.
  pose proof (wf_variables WF) as Hv. pose proof (wf_lambda WF) as Hl.
  pose proof (wf_miu WF) as Hmu.
  rewrite He in *. rewrite Hh, Hn in *. unfold sum_edges in *. split.
  - intros i j k Hi Hj Hk.
    destruct (zsum_firstn_bound (j := Z.to_nat j) Hnn) as (_ & Hbd);
      [unfold size in Hes; lia|].
    pose proof (zsum_firstn_nonneg (Z.to_nat j) Hnn) as Hz.
    fold (edge_offset edges j) in Hbd, Hz. fold (edge_count edges j) in Hbd.
    rewrite (stores_column SA) by nia.
    pose proof (@A_columns_lambda F _ st WF i j k) as Hcol.
    rewrite He, Hh, Hn in Hcol. apply Hcol; lia.
  - intros i j k Hi Hj Hk.
    rewrite (stores_column SA) by nia.
    pose proof (@A_columns_mu F _ st WF i j k) as Hcol.
    rewrite Hh, Hn, Hl in Hcol. apply Hcol; lia.
Qed.



(** * Further properties of the assembled problem *)

(** ** Every variable index is the index of one (step, obstacle, entry) *)

Lemma zsum_locate (es : list Z) :
  Forall (fun e => 0 <= e) es ->
  forall r, 0 <= r < zsum es ->
    exists (j : nat) (k : Z),
      (j < length es)%nat /\ 0 <= k < nth j es 0 /\
      r = zsum (firstn j es) + k.
Proof.
induction 1 as [|e es He Hes IH]; intros r Hr.
- simpl in Hr. lia.
- rewrite zsum_cons in Hr. destruct (Z.lt_ge_cases r e) as [Hlt|Hge].
  + exists 0%nat, r. simpl. repeat split; lia.
  + destruct (IH (r - e)) as (j & k & Hj & Hk & Heq); [lia|].
    exists (S j), k. cbn [length firstn nth]. rewrite zsum_cons.
    repeat split; lia.
Qed.

Section IndexDecomposition.
Context {F : Type} `{Scalar F}.
Variable st : DualVariableWarmStartOSQPInterface F.
Hypothesis WF : wf_interface st.

Lemma lambda_index (v : Z) :
  0 <= v < lambda_horizon_ st ->
  exists i j k,
    0 <= i < horizon_ st + 1 /\ 0 <= j < obstacles_num_ st /\
    0 <= k < edge_count (obstacles_edges_num_ st) j /\
    v = i * sum_edges (obstacles_edges_num_ st)
        + edge_offset (obstacles_edges_num_ st) j + k.
Proof.
intros Hv. rewrite (wf_lambda WF) in Hv.
destruct (wf_sizes WF) as (HE & _ & Hn & HN & _).
pose proof (wf_edges_size WF) as Hsz. unfold size in Hsz.
unfold sum_edges, edge_count, edge_offset in *.
set (E := zsum (coeffs (obstacles_edges_num_ st))) in *.
assert (HEpos : 0 < E) by nia.
destruct (zsum_locate (wf_edges_nonneg WF) (r := v mod E)) as (j & k & Hj & Hk & Heq).
{ fold E. apply Z.mod_pos_bound. lia. }
exists (v / E), (Z.of_nat j), k. rewrite Nat2Z.id.
pose proof (Z.div_mod v E ltac:(lia)) as Hdm.
assert (0 <= v / E) by (apply Z.div_pos; lia).
assert (v / E < horizon_ st + 1).
{ apply Z.div_lt_upper_bound; [lia|]. lia. }
repeat split; try lia.
Qed.

Lemma mu_index (v : Z) :
  lambda_horizon_ st <= v < num_of_variables_ st ->
  exists i j k,
    0 <= i < horizon_ st + 1 /\ 0 <= j < obstacles_num_ st /\ 0 <= k < 4 /\
    v = lambda_horizon_ st + 4 * (i * obstacles_num_ st + j) + k.
Proof.
intros Hv. rewrite (wf_variables WF), (wf_miu WF) in Hv.
destruct (wf_sizes WF) as (_ & _ & Hn & HN & _).
set (N := obstacles_num_ st) in *. set (w := v - lambda_horizon_ st).
assert (Hw : 0 <= w < 4 * N * (horizon_ st + 1)) by (subst w; lia).
assert (HNpos : 0 < N) by nia.
exists (w / 4 / N), ((w / 4) mod N), (w mod 4).
pose proof (Z.div_mod w 4 ltac:(lia)) as H4.
pose proof (Z.mod_pos_bound w 4 ltac:(lia)) as Hk.
pose proof (Z.div_mod (w / 4) N ltac:(lia)) as HN4.
pose proof (Z.mod_pos_bound (w / 4) N ltac:(lia)) as Hj.
assert (0 <= w / 4) by (apply Z.div_pos; lia).
assert (w / 4 < N * (horizon_ st + 1))
  by (apply Z.div_lt_upper_bound; lia).
assert (0 <= w / 4 / N) by (apply Z.div_pos; lia).
assert (w / 4 / N < horizon_ st + 1)
  by (apply Z.div_lt_upper_bound; lia).
repeat split; lia.
Qed.
End IndexDecomposition.

Lemma pair_index_bound (i j n N : Z) :
  0 <= i < n -> 0 <= j < N -> 0 <= i * N + j < N * n.
Proof. intros Hi Hj. nia. Qed.

(** ** The columns of the constraint matrix, by index *)

Section ConstraintColumnCases.
Context {F : Type} `{Scalar F}.
Variable st : DualVariableWarmStartOSQPInterface F.
Hypothesis WF : wf_interface st.
Variables (A_data : list F) (A_indices A_indptr : list Z).
Hypothesis ST : stores (A_columns st) A_data A_indices A_indptr.

Let N := obstacles_num_ st.
Let n := horizon_ st + 1.

(** Column [v] is a lambda column or a mu column; its last row is
    [3 * N * n + v] in both cases. *)
Lemma constraint_column_cases (v : Z) :
  0 <= v < num_of_variables_ st ->
  (exists i j k,
     (0 <= i < n /\ 0 <= j < N /\
      0 <= k < edge_count (obstacles_edges_num_ st) j) /\
     v = i * sum_edges (obstacles_edges_num_ st)
         + edge_offset (obstacles_edges_num_ st) j + k /\
     csc_column A_data A_indices A_indptr v
     = lambda_column st i (2 * (i * N + j)) (2 * (N * n) + i * N + j)
                     (3 * (N * n) + v)
                     (edge_offset (obstacles_edges_num_ st) j + k)) \/
  (exists i j k,
     (0 <= i < n /\ 0 <= j < N /\ 0 <= k < 4) /\
     v = lambda_horizon_ st + 4 * (i * N + j) + k /\
     csc_column A_data A_indices A_indptr v
     = mu_column st (2 * (i * N + j)) (2 * (N * n) + i * N + j)
                 (3 * (N * n) + v) k).
Proof.
intros Hv.
assert (Hcol : csc_column A_data A_indices A_indptr v
               = nth (Z.to_nat v) (A_columns st) []).
{ apply (stores_column ST). now rewrite (A_columns_size WF). }
pose proof (wf_lambda WF) as Hlam.
destruct (wf_sizes WF) as (HE & _ & Hn & HN & _).
destruct (Z.lt_ge_cases v (lambda_horizon_ st)) as [Hl|Hm].
- left. destruct (lambda_index WF (v := v)) as (i & j & k & Hi & Hj & Hk & Hv');
    [lia|].
  exists i, j, k. split; [auto|]. split; [exact Hv'|].
  rewrite Hcol, Hv'. unfold sum_edges.
  rewrite (A_columns_lambda WF) by assumption.
  f_equal. fold N n. ring.
- right. destruct (mu_index WF (v := v)) as (i & j & k & Hi & Hj & Hk & Hv');
    [lia|].
  exists i, j, k. split; [auto|]. split; [exact Hv'|].
  rewrite Hcol, Hv'. rewrite (A_columns_mu WF) by assumption.
  f_equal. fold N n. ring.
Qed.
End ConstraintColumnCases.

(** X1: in the constraint matrix every variable has the row
    3*obstacles*(horizon+1) + v of its own: column v ends with the entry 1.0
    at that row, and all its other rows lie below 3*obstacles*(horizon+1).
    The rows of groups 3 and 4 form an identity matrix. *)
Theorem constraint_identity_rows {F : Type} `{Scalar F} `{OSQP F}
    (horizon : N) (ts : F) (ego : Matrix F) (edges : Matrix Z)
    (obstacles_num : N) (A b xWS : Matrix F)
    (st : DualVariableWarmStartOSQPInterface F) :
  valid_input horizon ego edges obstacles_num A b xWS ->
  built_from horizon ts ego edges obstacles_num A b xWS st ->
  exists A_data A_indices A_indptr,
    assemble_constraint st [] [] [] = Some (A_data, A_indices, A_indptr) /\
    forall v,
      0 <= v < num_of_variables_ st ->
      exists col,
        csc_column A_data A_indices A_indptr v
        = col ++ [(3 * Z.of_N obstacles_num * (Z.of_N horizon + 1) + v,
                   flit 1%Q)] /\
        Forall (fun p => 0 <= fst p
                         < 3 * Z.of_N obstacles_num * (Z.of_N horizon + 1)) col.
Proof.
intros V Hb. destruct (built_from_inv V Hb) as (WF & Hh & Hn & _).
destruct (assemble_constraint_stores WF) as (Ad & Ai & Ap & HA & SA).
exists Ad, Ai, Ap. split; [exact HA|]. intros v Hv.
destruct (constraint_column_cases WF SA Hv)
  as [(i & j & k & (Hi & Hj & Hk) & _ & Hcol)|(i & j & k & (Hi & Hj & Hk) & _ & Hcol)];
  rewrite Hcol, Hh, Hn in *;
  pose proof (pair_index_bound Hi Hj) as Hij.
- replace (3 * (Z.of_N obstacles_num * (Z.of_N horizon + 1)) + v)
    with (3 * Z.of_N obstacles_num * (Z.of_N horizon + 1) + v) by ring.
  unfold lambda_column.
  match goal with
  | |- exists col, [?e1; ?e2; ?e3; _] = _ /\ _ => exists [e1; e2; e3]
  end.
  split; [reflexivity|]. repeat constructor; cbn [fst]; lia.
- replace (3 * (Z.of_N obstacles_num * (Z.of_N horizon + 1)) + v)
    with (3 * Z.of_N obstacles_num * (Z.of_N horizon + 1) + v) by ring.
  unfold mu_column.
  match goal with
  | |- exists col, [?e1; ?e2; _] = _ /\ _ => exists [e1; e2]
  end.
  assert (0 <= k mod 2 < 2) by (apply Z.mod_pos_bound; lia).
  split; [reflexivity|]. repeat constructor; cbn [fst]; lia.
Qed.

Lemma constraint_identity_rows_witness :
  exists A_data A_indices A_indptr col,
    assemble_constraint scene_st [] [] [] = Some (A_data, A_indices, A_indptr) /\
    csc_column A_data A_indices A_indptr 7 = col ++ [(3 * 2 * (1 + 1) + 7, SLit 1%Q)] /\
    Forall (fun p => 0 <= fst p < 3 * 2 * (1 + 1)) col.
Proof.
destruct (constraint_identity_rows (H0 := OSQP_returning 1 scene_x)
            scene_valid (scene_built _))
  as (Ad & Ai & Ap & HA & Hid).
destruct (Hid 7) as (col & Hcol & Hlow); [decide_range|].
exists Ad, Ai, Ap, col. auto.
Defined.

(** X2: in every column of the constraint matrix the row indices increase
    strictly (no row is stored twice) and lie in [0, m), m the number of
    constraints. *)
Theorem constraint_rows_sorted {F : Type} `{Scalar F} `{OSQP F}
    (horizon : N) (ts : F) (ego : Matrix F) (edges : Matrix Z)
    (obstacles_num : N) (A b xWS : Matrix F)
    (st : DualVariableWarmStartOSQPInterface F) :
  valid_input horizon ego edges obstacles_num A b xWS ->
  built_from horizon ts ego edges obstacles_num A b xWS st ->
  exists A_data A_indices A_indptr,
    assemble_constraint st [] [] [] = Some (A_data, A_indices, A_indptr) /\
    forall v,
      0 <= v < num_of_variables_ st ->
      Sorted Z.lt (map fst (csc_column A_data A_indices A_indptr v)) /\
      Forall (fun r => 0 <= r < num_of_constraints_ st)
             (map fst (csc_column A_data A_indices A_indptr v)).
Proof.
intros V Hb. destruct (built_from_inv V Hb) as (WF & Hh & Hn & _).
destruct (assemble_constraint_stores WF) as (Ad & Ai & Ap & HA & SA).
exists Ad, Ai, Ap. split; [exact HA|]. intros v Hv.
pose proof (wf_constraints WF) as Hm.
destruct (constraint_column_cases WF SA Hv)
  as [(i & j & k & (Hi & Hj & Hk) & _ & Hcol)|(i & j & k & (Hi & Hj & Hk) & _ & Hcol)];
  rewrite Hcol, Hm; pose proof (pair_index_bound Hi Hj) as Hij.
- unfold lambda_column. cbn [map fst]. split.
  + repeat constructor; lia.
  + repeat constructor; lia.
- unfold mu_column. cbn [map fst].
  assert (0 <= k mod 2 < 2) by (apply Z.mod_pos_bound; lia). split.
  + repeat constructor; lia.
  + repeat constructor; lia.
Qed.

Lemma constraint_rows_sorted_witness :
  exists A_data A_indices A_indptr,
    assemble_constraint scene_st [] [] [] = Some (A_data, A_indices, A_indptr) /\
    Sorted Z.lt (map fst (csc_column A_data A_indices A_indptr 9)) /\
    Forall (fun r => 0 <= r < num_of_constraints_ scene_st)
           (map fst (csc_column A_data A_indices A_indptr 9)).
Proof.
destruct (constraint_rows_sorted (H0 := OSQP_returning 1 scene_x)
            scene_valid (scene_built _))
  as (Ad & Ai & Ap & HA & Hs).
exists Ad, Ai, Ap. split; [exact HA|]. apply (Hs 9). decide_range.
Defined.

Lemma built_offset {F : Type} `{Scalar F} `{OSQP F}
    (horizon : N) (ts : F) (ego : Matrix F) (edges : Matrix Z)
    (obstacles_num : N) (A b xWS : Matrix F)
    (st : DualVariableWarmStartOSQPInterface F) :
  valid_input horizon ego edges obstacles_num A b xWS ->
  built_from horizon ts ego edges obstacles_num A b xWS st ->
  offset_ st
  = fsub (fdiv (fadd (coeff ego 0 0) (coeff ego 2 0)) (flit 2%Q)) (coeff ego 2 0).
Proof.
intros V (st0 & Hc & Hr).
destruct (construct_wf ts V) as (st1 & Hc1 & WF & _).
rewrite Hc in Hc1. injection Hc1 as <-.
destruct (reachable_inv WF Hr) as (_ & ->). cbn [with_warm_up offset_].
unfold construct in Hc.
destruct (Z.of_N horizon <? INT_MAX); [|discriminate].
destruct (Z.of_N obstacles_num <? INT_MAX); [|discriminate].
cbn [negb] in Hc. injection Hc as <-. reflexivity.
Qed.

(** X3: the rows of the constraint matrix.  The column of the lambda variable
    of step i, obstacle j, edge k has its four entries at the rows
    2(iN+j), 2(iN+j)+1 (group 1), 2N(H+1) + iN+j (group 2) and
    3N(H+1) + its own index (group 3); the column of the mu variable of
    corner k has its three entries at the rows 2(iN+j) + k mod 2 (group 1),
    2N(H+1) + iN+j (group 2) and 3N(H+1) + its own index (group 4). *)
Theorem constraint_row_pattern {F : Type} `{Scalar F} `{OSQP F}
    (horizon : N) (ts : F) (ego : Matrix F) (edges : Matrix Z)
    (obstacles_num : N) (A b xWS : Matrix F)
    (st : DualVariableWarmStartOSQPInterface F) :
  valid_input horizon ego edges obstacles_num A b xWS ->
  built_from horizon ts ego edges obstacles_num A b xWS st ->
  exists A_data A_indices A_indptr,
    assemble_constraint st [] [] [] = Some (A_data, A_indices, A_indptr) /\
    (forall i j k,
       0 <= i <= Z.of_N horizon -> 0 <= j < Z.of_N obstacles_num ->
       0 <= k < edge_count edges j ->
       let pair := i * Z.of_N obstacles_num + j in
       let base := Z.of_N obstacles_num * (Z.of_N horizon + 1) in
       let v := i * sum_edges edges + edge_offset edges j + k in
       map fst (csc_column A_data A_indices A_indptr v)
       = [2 * pair; 2 * pair + 1; 2 * base + pair; 3 * base + v]) /\
    (forall i j k,
       0 <= i <= Z.of_N horizon -> 0 <= j < Z.of_N obstacles_num ->
       0 <= k < 4 ->
       let pair := i * Z.of_N obstacles_num + j in
       let base := Z.of_N obstacles_num * (Z.of_N horizon + 1) in
       let v := sum_edges edges * (Z.of_N horizon + 1) + 4 * pair + k in
       map fst (csc_column A_data A_indices A_indptr v)
       = [2 * pair + k mod 2; 2 * base + pair; 3 * base + v]).
Proof.
intros V Hb.
destruct (constraint_columns V Hb) as (Ad & Ai & Ap & HA & Hlam & Hmu).
exists Ad, Ai, Ap. split; [exact HA|]. split.
- intros i j k Hi Hj Hk pair base v. subst pair base v.
  rewrite Hlam by lia. unfold lambda_column. cbn [map fst].
  repeat (f_equal; try ring).
- intros i j k Hi Hj Hk pair base v. subst pair base v.
  rewrite Hmu by lia. unfold mu_column. cbn [map fst].
  repeat (f_equal; try ring).
Qed.

Lemma constraint_row_pattern_witness :
  exists A_data A_indices A_indptr,
    assemble_constraint scene_st [] [] [] = Some (A_data, A_indices, A_indptr) /\
    map fst (csc_column A_data A_indices A_indptr 5) = [6; 7; 11; 17] /\
    map fst (csc_column A_data A_indices A_indptr 21) = [7; 11; 33].
Proof.
destruct (constraint_row_pattern (H0 := OSQP_returning 1 scene_x)
            scene_valid (scene_built _))
  as (Ad & Ai & Ap & HA & Hlam & Hmu).
exists Ad, Ai, Ap. split; [exact HA|]. split.
- apply (Hlam 1 1 1); decide_range.
- apply (Hmu 1 1 3); decide_range.
Defined.

(** X4: the coupling of the mu variables to the two rows of group 1 is the
    transpose of G = [[1, 0, -1, 0], [0, 1, 0, -1]]: the column of corner k
    starts with +1.0 for k < 2 and -1.0 for k >= 2, at the first row of the
    pair for even k and at the second for odd k. *)
Theorem constraint_G_block {F : Type} `{Scalar F} `{OSQP F}
    (horizon : N) (ts : F) (ego : Matrix F) (edges : Matrix Z)
    (obstacles_num : N) (A b xWS : Matrix F)
    (st : DualVariableWarmStartOSQPInterface F) :
  valid_input horizon ego edges obstacles_num A b xWS ->
  built_from horizon ts ego edges obstacles_num A b xWS st ->
  exists A_data A_indices A_indptr,
    assemble_constraint st [] [] [] = Some (A_data, A_indices, A_indptr) /\
    forall i j k,
      0 <= i <= Z.of_N horizon -> 0 <= j < Z.of_N obstacles_num ->
      0 <= k < 4 ->
      let pair := i * Z.of_N obstacles_num + j in
      hd_error (csc_column A_data A_indices A_indptr
                  (sum_edges edges * (Z.of_N horizon + 1) + 4 * pair + k))
      = Some (2 * pair + k mod 2,
              if k <? 2 then flit 1%Q else flit (-1)%Q).
Proof.
intros V Hb.
destruct (constraint_columns V Hb) as (Ad & Ai & Ap & HA & _ & Hmu).
exists Ad, Ai, Ap. split; [exact HA|].
intros i j k Hi Hj Hk pair. subst pair.
rewrite Hmu by lia. reflexivity.
Qed.

Lemma constraint_G_block_witness :
  exists A_data A_indices A_indptr,
    assemble_constraint scene_st [] [] [] = Some (A_data, A_indices, A_indptr) /\
    hd_error (csc_column A_data A_indices A_indptr 8) = Some (0, SLit (-1)%Q) /\
    hd_error (csc_column A_data A_indices A_indptr 21) = Some (7, SLit (-1)%Q) /\
    hd_error (csc_column A_data A_indices A_indptr 11) = Some (3, SLit 1%Q).
Proof.
destruct (constraint_G_block (H0 := OSQP_returning 1 scene_x)
            scene_valid (scene_built _))
  as (Ad & Ai & Ap & HA & HG).
exists Ad, Ai, Ap. split; [exact HA|]. split; [|split].
- apply (HG 0 0 2); decide_range.
- apply (HG 1 1 3); decide_range.
- apply (HG 0 1 1); decide_range.
Defined.

(** X5: the group-2 entry of a lambda column is t * A_k^T - b_k for the
    edge k it belongs to, where t = (x + cos(heading) * offset,
    y + sin(heading) * offset) is the centre of the vehicle at the step and
    offset = (front + rear) / 2 - rear. *)
Theorem constraint_offset_row_lambda {F : Type} `{Scalar F} `{OSQP F}
    (horizon : N) (ts : F) (ego : Matrix F) (edges : Matrix Z)
    (obstacles_num : N) (A b xWS : Matrix F)
    (st : DualVariableWarmStartOSQPInterface F) :
  valid_input horizon ego edges obstacles_num A b xWS ->
  built_from horizon ts ego edges obstacles_num A b xWS st ->
  exists A_data A_indices A_indptr,
    assemble_constraint st [] [] [] = Some (A_data, A_indices, A_indptr) /\
    forall i j k,
      0 <= i <= Z.of_N horizon -> 0 <= j < Z.of_N obstacles_num ->
      0 <= k < edge_count edges j ->
      let row := edge_offset edges j + k in
      let offset := fsub (fdiv (fadd (coeff ego 0 0) (coeff ego 2 0))
                               (flit 2%Q)) (coeff ego 2 0) in
      let tx := fadd (coeff xWS 0 i) (fmul (fcos (coeff xWS 2 i)) offset) in
      let ty := fadd (coeff xWS 1 i) (fmul (fsin (coeff xWS 2 i)) offset) in
      nth_error (csc_column A_data A_indices A_indptr
                   (i * sum_edges edges + row)) 2
      = Some (2 * Z.of_N obstacles_num * (Z.of_N horizon + 1)
              + (i * Z.of_N obstacles_num + j),
              fsub (fadd (fmul tx (coeff A row 0)) (fmul ty (coeff A row 1)))
                   (coeff b row 0)).
Proof.
intros V Hb.
destruct (built_from_inv V Hb) as (_ & _ & _ & _ & HA' & Hb' & Hx & _).
pose proof (built_offset V Hb) as Hoff.
destruct (constraint_columns V Hb) as (Ad & Ai & Ap & HA & Hlam & _).
exists Ad, Ai, Ap. split; [exact HA|].
intros i j k Hi Hj Hk row offset tx ty. subst row offset tx ty.
rewrite Z.add_assoc, Hlam by lia. unfold lambda_column.
rewrite HA', Hb', Hx, Hoff. cbn [nth_error]. do 2 f_equal. ring.
Qed.

Lemma constraint_offset_row_lambda_witness :
  exists A_data A_indices A_indptr,
    assemble_constraint scene_st [] [] [] = Some (A_data, A_indices, A_indptr) /\
    nth_error (csc_column A_data A_indices A_indptr 5) 2
    = Some (11,
            SSub (SAdd (SMul (SAdd (slit 200)
                                   (SMul (SCos (slit 202))
                                         (SSub (SDiv (SAdd (slit 3) (slit 1))
                                                     (slit 2)) (slit 1))))
                             (slit 12))
                       (SMul (SAdd (slit 201)
                                   (SMul (SSin (slit 202))
                                         (SSub (SDiv (SAdd (slit 3) (slit 1))
                                                     (slit 2)) (slit 1))))
                             (slit 22)))
                 (slit 7)).
Proof.
destruct (constraint_offset_row_lambda (H0 := OSQP_returning 1 scene_x)
            scene_valid (scene_built _))
  as (Ad & Ai & Ap & HA & Hrow).
exists Ad, Ai, Ap. split; [exact HA|].
apply (Hrow 1 1 1); decide_range.
Defined.

(** ** Numbers of stored entries *)

Section StoredEntries.
Context {F : Type} `{Scalar F}.
Variable st : DualVariableWarmStartOSQPInterface F.
Hypothesis WF : wf_interface st.

Lemma P_columns_entries :
  size (concat (P_columns st))
  = sum_squares (obstacles_edges_num_ st) * (horizon_ st + 1).
Proof.
destruct (P_steps_spec WF (mkPState (@nil F) [] [] 0 0 0) eq_refl eq_refl)
  as (Hsz & _).
unfold P_columns. rewrite concat_size_app, concat_empty, Hsz.
unfold sum_squares. change (size (@nil (Z * F))) with 0. ring.
Qed.

Lemma A_columns_entries :
  size (concat (A_columns st))
  = 4 * sum_edges (obstacles_edges_num_ st) * (horizon_ st + 1)
    + 12 * obstacles_num_ st * (horizon_ st + 1).
Proof.
destruct (A_lambda_steps_spec WF
            (mkAState (@nil F) [] [] 0
               (2 * (obstacles_num_ st * (horizon_ st + 1)))
               (3 * (obstacles_num_ st * (horizon_ st + 1))) 0 0)
            eq_refl eq_refl eq_refl eq_refl) as (Hl & _).
destruct (A_mu_steps_spec WF
            (mkAState (@nil F) [] [] 0
               (2 * (obstacles_num_ st * (horizon_ st + 1))) 0
               (3 * (obstacles_num_ st * (horizon_ st + 1))
                + lambda_horizon_ st)
               (4 * (zsum (coeffs (obstacles_edges_num_ st))
                     * (horizon_ st + 1))))
            eq_refl eq_refl eq_refl eq_refl) as (Hm & _).
unfold A_columns. rewrite concat_size_app, Hl, Hm. unfold sum_edges. ring.
Qed.
End StoredEntries.

Lemma stores_total {F : Type} (cs : list (column F)) (data : list F)
    (indices indptr : list Z) :
  stores cs data indices indptr ->
  size data = size (concat cs) /\ last indptr 0 = size (concat cs).
Proof.
intros (-> & _ & ->). split.
- apply flat_map_map_size.
- apply last_last.
Qed.

(** X6: the objective matrix stores (sum of squared edge counts)*(horizon+1)
    entries and the constraint matrix 4 per lambda variable plus 3 per mu
    variable; in both, the last column pointer is the number of stored
    entries. *)
Theorem stored_entry_counts {F : Type} `{Scalar F} `{OSQP F}
    (horizon : N) (ts : F) (ego : Matrix F) (edges : Matrix Z)
    (obstacles_num : N) (A b xWS : Matrix F)
    (st : DualVariableWarmStartOSQPInterface F) :
  valid_input horizon ego edges obstacles_num A b xWS ->
  built_from horizon ts ego edges obstacles_num A b xWS st ->
  exists P_data P_indices P_indptr A_data A_indices A_indptr,
    assemble_P st [] [] [] = Some (P_data, P_indices, P_indptr) /\
    assemble_constraint st [] [] [] = Some (A_data, A_indices, A_indptr) /\
    size P_data = sum_squares edges * (Z.of_N horizon + 1) /\
    last P_indptr 0 = size P_data /\
    size A_data = 4 * lambda_horizon_ st + 3 * miu_horizon_ st /\
    last A_indptr 0 = size A_data.
Proof.
intros V Hb. destruct (built_from_inv V Hb) as (WF & Hh & Hn & He & _).
destruct (assemble_P_stores WF) as (Pd & Pi & Pp & HP & SP).
destruct (assemble_constraint_stores WF) as (Ad & Ai & Ap & HA & SA).
exists Pd, Pi, Pp, Ad, Ai, Ap. split; [exact HP|]. split; [exact HA|].
destruct (stores_total SP) as (HP1 & HP2).
destruct (stores_total SA) as (HA1 & HA2).
rewrite HP2, HA2, HP1, HA1, (P_columns_entries WF), (A_columns_entries WF).
rewrite (wf_lambda WF), (wf_miu WF), He, Hh.
repeat split; ring.
Qed.

Lemma stored_entry_counts_witness :
  exists P_data P_indices P_indptr A_data A_indices A_indptr,
    assemble_P scene_st [] [] [] = Some (P_data, P_indices, P_indptr) /\
    assemble_constraint scene_st [] [] [] = Some (A_data, A_indices, A_indptr) /\
    size P_data = (1 * 1 + 2 * 2) * 2 /\
    last P_indptr 0 = size P_data /\
    size A_data = 4 * 6 + 3 * 16 /\
    last A_indptr 0 = size A_data.
Proof.
exact (stored_entry_counts (H0 := OSQP_returning 1 scene_x)
         scene_valid (scene_built _)).
Defined.

(** ** Repeated calls *)

Section RepeatedCalls.
Context {F : Type} `{Scalar F} `{OSQP F}.

Lemma populate_data_with_warm_up (st : DualVariableWarmStartOSQPInterface F)
    (l n : Matrix F) :
  populate_data (with_warm_up st l n) = populate_data st.
Proof. reflexivity. Qed.

Lemma solver_outcome_with_warm_up (st : DualVariableWarmStartOSQPInterface F)
    (l n : Matrix F) :
  solver_outcome (with_warm_up st l n) = solver_outcome st.
Proof. reflexivity. Qed.
End RepeatedCalls.

(** X7: a call of the solve entry point, whatever it returns, leaves the
    problem of the next call as it was: the matrices, vectors and sizes handed
    to the solver do not depend on the results an earlier call stored. *)
Theorem problem_unchanged_by_solve {F : Type} `{Scalar F} `{OSQP F}
    (st st' : DualVariableWarmStartOSQPInterface F) (h h' : heap) (ret : bool) :
  optimize st h = Some (ret, st', h') ->
  populate_data st' = populate_data st.
Proof.
intros Hopt. apply optimize_cases in Hopt.
destruct Hopt as (work & _ & [(_ & _ & ->)|(_ & _ & l & n & -> & _)]).
- reflexivity.
- apply populate_data_with_warm_up.
Qed.

Lemma problem_unchanged_by_solve_witness :
  exists st',
    optimize (H0 := OSQP_returning 1 scene_x) scene_st [] = Some (true, st', []) /\
    l_warm_up_ st' <> l_warm_up_ scene_st /\
    populate_data st' = populate_data scene_st.
Proof.
eexists. split; [vm_compute; reflexivity|]. split.
- vm_compute. intros Heq. inversion Heq.
- apply (@problem_unchanged_by_solve _ _ (OSQP_returning 1 scene_x)
           scene_st _ [] [] true).
  vm_compute. reflexivity.
Defined.

Section ExtractAll.
Context {F : Type} `{Scalar F}.
Variable st : DualVariableWarmStartOSQPInterface F.
Hypothesis WF : wf_interface st.
Variable x : list F.
Hypothesis Hx : size x = num_of_variables_ st.

(** Both blocks at once: the lambda matrix takes the first
    [lambda_horizon_] entries of [x] and the mu matrix the rest. *)
Lemma extract_blocks_spec :
  let l := extract_block st x (obstacles_edges_sum_ st) (l_warm_up_ st, 0) in
  let n := extract_block st x (imul 4 (obstacles_num_ st))
                         (n_warm_up_ st, snd l) in
  fst l = mkMatrix (rows (l_warm_up_ st)) (cols (l_warm_up_ st))
                   (firstn (Z.to_nat (lambda_horizon_ st)) x) /\
  fst n = mkMatrix (rows (n_warm_up_ st)) (cols (n_warm_up_ st))
                   (skipn (Z.to_nat (lambda_horizon_ st)) x).
Proof.
cbv zeta.
destruct (wf_sizes WF) as (HE & _ & Hn1 & HN & HEn & _ & HA).
pose proof (wf_variables WF) as Hv. pose proof (wf_lambda WF) as Hl.
pose proof (wf_miu WF) as Hmu. pose proof (wf_edges_sum WF) as Hsum.
pose proof (wf_l_rows WF) as Hlr. pose proof (wf_l_size WF) as Hls.
pose proof (wf_n_rows WF) as Hnr. pose proof (wf_n_size WF) as Hns.
unfold sum_edges in *.
set (E := zsum (coeffs (obstacles_edges_num_ st))) in *.
set (n := horizon_ st + 1) in *. set (Nn := obstacles_num_ st) in *.
assert (H4 : imul 4 Nn = 4 * Nn) by (apply imul_small; int_bounds).
rewrite Hsum, H4.
assert (Hl1 : extract_block st x E (l_warm_up_ st, 0)
              = (mkMatrix (rows (l_warm_up_ st)) (cols (l_warm_up_ st))
                   (firstn (Z.to_nat (E * n)) (skipn (Z.to_nat 0) x)),
                 0 + E * n)).
{ apply (extract_block_spec WF); fold n; try assumption; try lia;
    try int_bounds. }
rewrite Hl1. cbn [fst snd].
assert (Hn1' : extract_block st x (4 * Nn) (n_warm_up_ st, 0 + E * n)
              = (mkMatrix (rows (n_warm_up_ st)) (cols (n_warm_up_ st))
                   (firstn (Z.to_nat (4 * Nn * n))
                           (skipn (Z.to_nat (0 + E * n)) x)),
                 0 + E * n + 4 * Nn * n)).
{ apply (extract_block_spec WF); fold n; try assumption; try lia;
    try int_bounds. }
rewrite Hn1'. cbn [fst snd]. rewrite Hl. split.
- reflexivity.
- f_equal. rewrite Z.add_0_l. apply firstn_all2.
  rewrite length_skipn. unfold size in Hx. lia.
Qed.
End ExtractAll.

(** X8: after a successful solve whose primal vector has one entry per
    variable, the two matrices the getter returns, read in storage order one
    after the other, are the primal vector: no entry is dropped, repeated or
    left from before the call. *)
Theorem results_are_primal_vector {F : Type} `{Scalar F} `{OSQP F}
    (horizon : N) (ts : F) (ego : Matrix F) (edges : Matrix Z)
    (obstacles_num : N) (A b xWS : Matrix F)
    (st : DualVariableWarmStartOSQPInterface F) (work : OSQPWorkspace) :
  valid_input horizon ego edges obstacles_num A b xWS ->
  built_from horizon ts ego edges obstacles_num A b xWS st ->
  solver_outcome st = Some work ->
  info_status_val work = 1 \/ info_status_val work = 2 ->
  size (solution_x work) = num_of_variables_ st ->
  forall h, exists st',
    optimize st h = Some (true, st', h) /\
    coeffs (fst (get_optimization_results st'))
    ++ coeffs (snd (get_optimization_results st')) = solution_x work.
Proof.
intros V Hb Hw Hs Hx h. destruct (built_from_inv V Hb) as (WF & _).
eexists. split; [eapply optimize_success; [exact Hw|exact Hs]|].
destruct (@extract_blocks_spec _ _ st WF _ Hx) as (Hl & Hn).
unfold get_optimization_results, with_warm_up.
cbn [fst snd l_warm_up_ n_warm_up_]. rewrite Hl, Hn. cbn [coeffs].
apply firstn_skipn.
Qed.

Lemma results_are_primal_vector_witness :
  exists st',
    optimize (H0 := OSQP_returning 1 scene_x) scene_st [] = Some (true, st', []) /\
    coeffs (fst (get_optimization_results st'))
    ++ coeffs (snd (get_optimization_results st')) = scene_x.
Proof.
refine (@results_are_primal_vector _ _ (OSQP_returning 1 scene_x) _ _ _ _ _
          _ _ _ scene_st (1, scene_x) scene_valid (scene_built _) _ _ _ []).
- vm_compute. reflexivity.
- left. reflexivity.
- reflexivity.
Defined.

(** X9: solving again after a successful solve returns success again and
    leaves the object as the first solve left it. *)
Theorem solve_again_same_result {F : Type} `{Scalar F} `{OSQP F}
    (horizon : N) (ts : F) (ego : Matrix F) (edges : Matrix Z)
    (obstacles_num : N) (A b xWS : Matrix F)
    (st st' : DualVariableWarmStartOSQPInterface F) (work : OSQPWorkspace)
    (h h' : heap) :
  valid_input horizon ego edges obstacles_num A b xWS ->
  built_from horizon ts ego edges obstacles_num A b xWS st ->
  solver_outcome st = Some work ->
  size (solution_x work) = num_of_variables_ st ->
  optimize st h = Some (true, st', h') ->
  forall h2, optimize st' h2 = Some (true, st', h2).
Proof.
intros V Hb Hw Hx Hopt h2. destruct (built_from_inv V Hb) as (WF & _).
pose proof Hopt as Hc. apply optimize_cases in Hc.
destruct Hc as (work0 & Hw0 & [(Hf & _)|(_ & Hs & l & n & Hst & Hl & Hn)]);
  [discriminate|].
assert (work0 = work) by congruence. subst work0.
erewrite optimize_success in Hopt; [|exact Hw|exact Hs].
destruct (@extract_blocks_spec _ _ st WF _ Hx) as (El & En).
injection Hopt as Hst' _. rewrite El, En in Hst'.
assert (WF' : wf_interface st').
{ rewrite Hst. now apply wf_with_warm_up. }
assert (Hw' : solver_outcome st' = Some work).
{ rewrite Hst. exact Hw. }
assert (Hx' : size (solution_x work) = num_of_variables_ st').
{ rewrite Hx, <- Hst'. reflexivity. }
erewrite optimize_success; [|exact Hw'|exact Hs].
destruct (@extract_blocks_spec _ _ st' WF' _ Hx') as (El' & En').
rewrite El', En'. do 2 f_equal. rewrite <- Hst'.
reflexivity.
Qed.

Lemma solve_again_same_result_witness :
  exists st',
    optimize (H0 := OSQP_returning 1 scene_x) scene_st [] = Some (true, st', []) /\
    optimize (H0 := OSQP_returning 1 scene_x) st' [NData]
    = Some (true, st', [NData]).
Proof.
eexists. split; [vm_compute; reflexivity|].
refine (@solve_again_same_result _ _ (OSQP_returning 1 scene_x) _ _ _ _ _
          _ _ _ scene_st _ (1, scene_x) [] [] scene_valid (scene_built _)
          _ _ _ [NData]).
- vm_compute. reflexivity.
- reflexivity.
- vm_compute. reflexivity.
Defined.

(** ** The vectors handed to the solver *)

Section VectorFacts.
Context {F : Type} `{Scalar F}.
Variable st : DualVariableWarmStartOSQPInterface F.

Lemma assemble_q_spec :
  0 <= num_of_variables_ st ->
  assemble_q st
  = repeat (Some (flit 0%Q)) (Z.to_nat (num_of_variables_ st)).
Proof.
intros Hn. unfold assemble_q, new_array.
set (n := num_of_variables_ st) in *.
replace (repeat (Some (@flit F _ 0%Q)) (Z.to_nat n))
  with (repeat (Some (@flit F _ 0%Q)) (Z.to_nat n)
        ++ repeat None (Z.to_nat (n - n)))
  by (rewrite Z.sub_diag; apply app_nil_r).
apply (for_range_inv (fun k t =>
  t = repeat (Some (@flit F _ 0%Q)) (Z.to_nat k)
      ++ repeat None (Z.to_nat (n - k)))); [lia| |].
- rewrite Z.sub_0_r. reflexivity.
- intros k t Hk ->.
  replace (Z.to_nat (n - k)) with (S (Z.to_nat (n - (k + 1)))) by lia.
  replace (Z.to_nat (k + 1)) with (Z.to_nat k + 1)%nat by lia.
  rewrite repeat_app, <- app_assoc. cbn [repeat app]. unfold array_store.
  rewrite <- (list_store_app (repeat (Some (@flit F _ 0%Q)) (Z.to_nat k))
                _ (Some (@flit F _ 0%Q)) None).
  f_equal. now rewrite repeat_length.
Qed.
End VectorFacts.

(** X10: the problem handed to the solver is declared with the object's
    numbers of variables and constraints; its linear cost q is the zero
    vector with one entry per variable; its two bound vectors have one entry
    per constraint; and no cell of the three vectors is left unwritten. *)
Theorem solver_vectors_written {F : Type} `{Scalar F} `{OSQP F}
    (horizon : N) (ts : F) (ego : Matrix F) (edges : Matrix Z)
    (obstacles_num : N) (A b xWS : Matrix F)
    (st : DualVariableWarmStartOSQPInterface F) :
  valid_input horizon ego edges obstacles_num A b xWS ->
  built_from horizon ts ego edges obstacles_num A b xWS st ->
  exists data,
    populate_data st = Some data /\
    data_n data = num_of_variables_ st /\
    data_m data = num_of_constraints_ st /\
    data_q data
    = repeat (Some (flit 0%Q)) (Z.to_nat (num_of_variables_ st)) /\
    size (data_l data) = num_of_constraints_ st /\
    size (data_u data) = num_of_constraints_ st /\
    Forall (fun cell => cell <> None) (data_l data) /\
    Forall (fun cell => cell <> None) (data_u data).
Proof.
intros V Hb. destruct (built_from_inv V Hb) as (WF & _).
destruct (wf_constraints_range WF) as (Hm0 & Hm1).
destruct (wf_sizes WF) as (HE & _ & Hn1 & HN & HEn & _ & HA).
assert (Hn0 : 0 <= num_of_variables_ st).
{ rewrite (wf_variables WF), (wf_lambda WF), (wf_miu WF).
  unfold sum_edges. nia. }
unfold populate_data.
destruct (assemble_P_stores WF) as (Pd & Pi & Pp & -> & _).
destruct (assemble_constraint_stores WF) as (Ad & Ai & Ap & -> & _).
rewrite (assemble_bounds_spec WF), (assemble_q_spec st Hn0).
eexists. split; [reflexivity|].
cbn [data_n data_m data_q data_l data_u].
repeat split.
- unfold size. rewrite length_map, zrange_length. lia.
- unfold size. rewrite length_map, zrange_length. lia.
- apply Forall_forall. intros c Hc. apply in_map_iff in Hc.
  destruct Hc as (i & <- & _). discriminate.
- apply Forall_forall. intros c Hc. apply in_map_iff in Hc.
  destruct Hc as (i & <- & _). discriminate.
Qed.

Lemma solver_vectors_written_witness :
  exists data,
    populate_data scene_st = Some data /\
    data_n data = num_of_variables_ scene_st /\
    data_m data = num_of_constraints_ scene_st /\
    data_q data
    = repeat (Some (flit 0%Q)) (Z.to_nat (num_of_variables_ scene_st)) /\
    size (data_l data) = num_of_constraints_ scene_st /\
    size (data_u data) = num_of_constraints_ scene_st /\
    Forall (fun cell => cell <> None) (data_l data) /\
    Forall (fun cell => cell <> None) (data_u data).
Proof.
exact (solver_vectors_written (H0 := OSQP_returning 1 scene_x)
         scene_valid (scene_built _)).
Defined.

(** ** Symmetry of the objective matrix *)

Lemma corner_valid :
  valid_input 0%N turn_ego corner_edges 1%N corner_A corner_b turn_xWS.
Proof.
constructor; try reflexivity; try (vm_compute; intuition discriminate);
  try (repeat constructor; vm_compute; discriminate);
  try (repeat split; vm_compute; congruence).
Qed.

Lemma objective_columns {F : Type} `{Scalar F} `{OSQP F}
    (horizon : N) (ts : F) (ego : Matrix F) (edges : Matrix Z)
    (obstacles_num : N) (A b xWS : Matrix F)
    (st : DualVariableWarmStartOSQPInterface F) :
  valid_input horizon ego edges obstacles_num A b xWS ->
  built_from horizon ts ego edges obstacles_num A b xWS st ->
  exists P_data P_indices P_indptr,
    assemble_P st [] [] [] = Some (P_data, P_indices, P_indptr) /\
    forall i j c,
      0 <= i <= Z.of_N horizon -> 0 <= j < Z.of_N obstacles_num ->
      0 <= c < edge_count edges j ->
      csc_column P_data P_indices P_indptr
                 (i * sum_edges edges + edge_offset edges j + c)
      = map (fun r => (i * sum_edges edges + edge_offset edges j + r,
                       gram A (edge_offset edges j) r c))
            (zrange (edge_count edges j)).
Proof.
intros V Hb.
destruct (built_from_inv V Hb) as (WF & Hh & Hn & He & HA & _).
destruct (assemble_P_stores WF) as (Pd & Pi & Pp & HP & SP).
exists Pd, Pi, Pp. split; [exact HP|].
pose proof (P_columns_size WF) as Hsz.
destruct (wf_sizes WF) as (HE & _ & Hn1 & HN & _).
pose proof (wf_edges_size WF) as Hes. pose proof (wf_edges_nonneg WF) as Hnn.
rewrite He in *. rewrite Hh, Hn in *.
intros i j c Hi Hj Hc.
destruct (zsum_firstn_bound (j := Z.to_nat j) Hnn) as (_ & Hbd);
  [unfold size in Hes; lia|].
pose proof (zsum_firstn_nonneg (Z.to_nat j) Hnn) as Hz.
fold (edge_offset edges j) in Hbd, Hz. fold (edge_count edges j) in Hbd.
rewrite (stores_column SP).
- pose proof (@P_columns_lambda F _ st WF i j c) as Hcol.
  rewrite He, HA, Hh, Hn in Hcol. apply Hcol; lia.
- rewrite Hsz, (wf_variables WF), (wf_lambda WF), (wf_miu WF).
  rewrite He, Hh, Hn. unfold sum_edges in *. nia.
Qed.

Lemma nth_error_map_zrange {T : Type} (f : Z -> T) (n k : Z) :
  0 <= k < n -> nth_error (map f (zrange n)) (Z.to_nat k) = Some (f k).
Proof.
intros Hk. rewrite nth_error_map. unfold zrange. rewrite nth_error_map.
rewrite nth_error_seq.
replace (Z.to_nat k <? Z.to_nat n)%nat with true
  by (symmetry; apply Nat.ltb_lt; lia).
cbn [option_map]. do 2 f_equal. lia.
Qed.

(** X11: when the multiplication of the scalars commutes, the assembled P
    is symmetric within every block: the entry stored at row r of column c
    equals the entry stored at row c of column r. *)
Theorem P_blocks_symmetric {F : Type} `{Scalar F} `{OSQP F}
    (horizon : N) (ts : F) (ego : Matrix F) (edges : Matrix Z)
    (obstacles_num : N) (A b xWS : Matrix F)
    (st : DualVariableWarmStartOSQPInterface F) :
  valid_input horizon ego edges obstacles_num A b xWS ->
  built_from horizon ts ego edges obstacles_num A b xWS st ->
  (forall x y : F, fmul x y = fmul y x) ->
  exists P_data P_indices P_indptr,
    assemble_P st [] [] [] = Some (P_data, P_indices, P_indptr) /\
    forall i j r c,
      0 <= i <= Z.of_N horizon -> 0 <= j < Z.of_N obstacles_num ->
      0 <= r < edge_count edges j -> 0 <= c < edge_count edges j ->
      let first := i * sum_edges edges + edge_offset edges j in
      exists v,
        nth_error (csc_column P_data P_indices P_indptr (first + c))
                  (Z.to_nat r) = Some (first + r, v) /\
        nth_error (csc_column P_data P_indices P_indptr (first + r))
                  (Z.to_nat c) = Some (first + c, v).
Proof.
intros V Hb Hcomm.
destruct (objective_columns V Hb) as (Pd & Pi & Pp & HP & Hcol).
exists Pd, Pi, Pp. split; [exact HP|].
intros i j r c Hi Hj Hr Hc first. subst first.
exists (gram A (edge_offset edges j) r c).
rewrite !Hcol by assumption.
rewrite !nth_error_map_zrange by assumption. split; [reflexivity|].
unfold gram. do 2 f_equal.
rewrite (Hcomm (coeff A (edge_offset edges j + r) 0)).
rewrite (Hcomm (coeff A (edge_offset edges j + r) 1)). reflexivity.
Qed.

Lemma P_blocks_symmetric_witness :
  exists st P_data P_indices P_indptr v,
    construct 0%N 0%R turn_ego corner_edges 1%N corner_A corner_b turn_xWS
    = Some st /\
    assemble_P st [] [] [] = Some (P_data, P_indices, P_indptr) /\
    nth_error (csc_column P_data P_indices P_indptr 1) 0 = Some (0, v) /\
    nth_error (csc_column P_data P_indices P_indptr 0) 1 = Some (1, v).
Proof.
destruct (construct_wf 0%R corner_valid) as (st & Hc & _).
assert (Hb : built_from (H0 := OSQP_returning 1 []) 0%N 0%R turn_ego
               corner_edges 1%N corner_A corner_b turn_xWS st)
  by (exists st; split; [exact Hc|constructor]).
destruct (P_blocks_symmetric corner_valid Hb Rmult_comm)
  as (Pd & Pi & Pp & HP & Hsym).
destruct (Hsym 0 0 0 1) as (v & H1 & H2); try decide_range.
exists st, Pd, Pi, Pp, v. split; [exact Hc|]. split; [exact HP|].
split; [exact H1|exact H2].
Defined.

(** ** The problem without obstacles *)

Lemma empty_scene_valid :
  valid_input 1%N scene_ego (mkMatrix 0 1 []) 0%N (mkMatrix 0 2 [])
              (mkMatrix 0 1 []) scene_xWS.
Proof.
constructor; try reflexivity; try (vm_compute; intuition discriminate);
  try (repeat constructor; vm_compute; discriminate);
  try (repeat split; vm_compute; congruence).
Qed.

Lemma stores_nothing {F : Type} (cs : list (column F)) (data : list F)
    (indices indptr : list Z) :
  stores cs data indices indptr -> size cs = 0 ->
  data = [] /\ indices = [] /\ indptr = [0].
Proof.
intros (-> & -> & ->) Hsz. destruct cs as [|c cs].
- repeat split.
- unfold size in Hsz. cbn [length] in Hsz. lia.
Qed.

(** X12: constructed for no obstacle, the object has no variable and no
    constraint, and both assemblers return the empty matrix: no value, no
    row index and the single column pointer 0. *)
Theorem no_obstacles_empty_problem {F : Type} `{Scalar F} `{OSQP F}
    (horizon : N) (ts : F) (ego : Matrix F) (edges : Matrix Z)
    (A b xWS : Matrix F) (st : DualVariableWarmStartOSQPInterface F) :
  valid_input horizon ego edges 0%N A b xWS ->
  built_from horizon ts ego edges 0%N A b xWS st ->
  num_of_variables_ st = 0 /\ num_of_constraints_ st = 0 /\
  assemble_P st [] [] [] = Some ([], [], [0]) /\
  assemble_constraint st [] [] [] = Some ([], [], [0]).
Proof.
intros V Hb. destruct (built_from_inv V Hb) as (WF & Hh & Hn & He & _).
pose proof (wf_edges_size WF) as Hes. rewrite Hn in Hes.
assert (Hnil : coeffs (obstacles_edges_num_ st) = []).
{ destruct (coeffs (obstacles_edges_num_ st)); [reflexivity|].
  unfold size in Hes. cbn [length] in Hes. lia. }
assert (Hv : num_of_variables_ st = 0).
{ rewrite (wf_variables WF), (wf_lambda WF), (wf_miu WF), Hn.
  unfold sum_edges. rewrite Hnil. reflexivity. }
assert (Hm : num_of_constraints_ st = 0).
{ rewrite (wf_constraints WF), Hv, Hn. reflexivity. }
split; [exact Hv|]. split; [exact Hm|].
destruct (assemble_P_stores WF) as (Pd & Pi & Pp & HP & SP).
destruct (assemble_constraint_stores WF) as (Ad & Ai & Ap & HA & SA).
destruct (stores_nothing SP) as (-> & -> & ->);
  [rewrite (P_columns_size WF); exact Hv|].
destruct (stores_nothing SA) as (-> & -> & ->);
  [rewrite (A_columns_size WF); exact Hv|].
split; assumption.
Qed.

Lemma no_obstacles_empty_problem_witness :
  exists st,
    construct 1%N (slit 0) scene_ego (mkMatrix 0 1 []) 0%N (mkMatrix 0 2 [])
              (mkMatrix 0 1 []) scene_xWS = Some st /\
    num_of_variables_ st = 0 /\ num_of_constraints_ st = 0 /\
    assemble_P st [] [] [] = Some ([], [], [0]) /\
    assemble_constraint st [] [] [] = Some ([], [], [0]).
Proof.
destruct (construct_wf (slit 0) empty_scene_valid) as (st & Hc & _).
exists st. split; [exact Hc|].
apply (no_obstacles_empty_problem (H0 := OSQP_returning 1 [])
         (ts := slit 0) empty_scene_valid).
exists st. split; [exact Hc|constructor].
Defined.

(** ** Edge counts beyond the counted obstacles *)

Lemma for_range_ext {St : Type} (lo hi : Z) (f g : Z -> St -> St) (s : St) :
  (forall k t, lo <= k < hi -> f k t = g k t) ->
  for_range lo hi f s = for_range lo hi g s.
Proof.
intros Hfg. destruct (Z.le_gt_cases lo hi) as [Hle|Hgt].
- apply (for_range_inv (fun k t => t = for_range lo k g s)); [exact Hle| |].
  + now rewrite for_range_nil by lia.
  + intros k t Hk ->. rewrite for_range_snoc by lia. now apply Hfg.
- now rewrite !for_range_nil by lia.
Qed.

Section SameLoops.
Context {F : Type} `{Scalar F}.
Variables st st' : DualVariableWarmStartOSQPInterface F.
Hypothesis Hhorizon : horizon_ st = horizon_ st'.
Hypothesis Hnum : obstacles_num_ st = obstacles_num_ st'.
Hypothesis HA : obstacles_A_ st = obstacles_A_ st'.
Hypothesis Hedges : forall j, 0 <= j < obstacles_num_ st' ->
  coeff (obstacles_edges_num_ st) j 0 = coeff (obstacles_edges_num_ st') j 0.

Lemma P_tmp_loop_agree : P_tmp_loop st = P_tmp_loop st'.
Proof.
unfold P_tmp_loop. rewrite Hnum. apply for_range_ext.
intros k t Hk. cbv zeta. rewrite (Hedges Hk).
unfold P_tmp_obstacle. now rewrite HA.
Qed.

Lemma P_steps_agree (P_tmp : list F) (s : PState F) :
  P_steps st P_tmp s = P_steps st' P_tmp s.
Proof.
unfold P_steps. rewrite Hhorizon. apply for_range_ext.
intros i t _. cbv zeta. unfold P_step_obstacles. rewrite Hnum.
apply for_range_ext. intros k u Hk. cbv zeta. now rewrite (Hedges Hk).
Qed.

Hypothesis WF' : wf_interface st'.
Hypothesis Hstart : l_start_index_ st = 0.
Hypothesis Hmore : lambda_horizon_ st' < lambda_horizon_ st <= INT_MAX.

(** The first [CHECK_EQ] of line 232 fails when the object counts more
    lambda variables than the loops have written column pointers. *)
Lemma assemble_P_surplus : assemble_P st [] [] [] = None.
Proof.
destruct (wf_sizes WF') as (HE & HS & Hn & HN & HEn & HSn & _).
pose proof (wf_lambda WF') as Hlam. unfold sum_edges in Hlam.
unfold assemble_P. rewrite P_tmp_loop_agree, (P_tmp_loop_spec WF').
rewrite P_steps_agree.
destruct (P_steps_spec WF'
            (mkPState (@nil F) [] [] (l_start_index_ st) 0
               (zsum (coeffs (obstacles_edges_num_ st'))))
            Hstart eq_refl) as (_ & Hlen & ec & ->).
cbn [P_data P_indices P_indptr l_index P_first_row_location app].
replace (check_eq_size _ (lambda_horizon_ st)) with false; [reflexivity|].
symmetry. unfold check_eq_size. apply Z.eqb_neq.
unfold size. rewrite starts_length.
fold (size (P_columns_upto st' (horizon_ st' + 1))). rewrite Hlen.
rewrite Z.mod_small by (unfold INT_MAX in *; lia). lia.
Qed.
End SameLoops.

(** X13: when the edge-count matrix has entries beyond the counted
    obstacles and these add up to a positive number, the constructor accepts
    the arguments, but the object counts lambda variables for all entries
    while the assembler of P writes columns for the counted obstacles only:
    its check of the number of column pointers fails, and the solve entry
    point ends without a result. *)
Theorem surplus_edge_counts_abort {F : Type} `{Scalar F} `{OSQP F}
    (horizon : N) (ts : F) (ego : Matrix F) (edges : Matrix Z)
    (obstacles_num : N) (A b xWS : Matrix F) (extra : list Z) :
  valid_input horizon ego edges obstacles_num A b xWS ->
  Forall (fun e => 0 <= e) extra -> 0 < zsum extra ->
  (sum_edges edges + zsum extra) * (Z.of_N horizon + 1) <= INT_MAX ->
  exists st,
    construct horizon ts ego
              (mkMatrix (rows edges + size extra) 1 (coeffs edges ++ extra))
              obstacles_num A b xWS = Some st /\
    assemble_P st [] [] [] = None /\
    forall h, optimize st h = None.
Proof.
intros V Hextra Hpos Hmax.
destruct (construct_wf ts V)
  as (st' & _ & WF' & Hh' & Hn' & He' & HA' & _).
pose proof (vi_horizon V) as Hh. pose proof (vi_obstacles V) as Hn.
pose proof (vi_edges_size V) as Hsz. pose proof (vi_edges_nonneg V) as Hnn.
pose proof (zsum_nonneg Hnn) as HE. fold (sum_edges edges) in HE.
set (edges2 := mkMatrix (rows edges + size extra) 1 (coeffs edges ++ extra)).
assert (Hsum2 : isum edges2 = sum_edges edges + zsum extra).
{ rewrite isum_exact; unfold sum_edges, edges2; cbn [coeffs].
  - apply zsum_app.
  - apply Forall_app. now split.
  - rewrite zsum_app. fold (sum_edges edges). nia. }
unfold construct.
replace (Z.of_N horizon <? INT_MAX) with true by (symmetry; now apply Z.ltb_lt).
replace (Z.of_N obstacles_num <? INT_MAX) with true
  by (symmetry; now apply Z.ltb_lt).
cbn [negb]. cbv zeta. eexists. split; [reflexivity|].
match goal with |- assemble_P ?s _ _ _ = None /\ _ => set (st := s) end.
assert (Hih : to_int (Z.of_N horizon) = Z.of_N horizon)
  by (apply to_int_small; int_bounds).
assert (Hin : to_int (Z.of_N obstacles_num) = Z.of_N obstacles_num)
  by (apply to_int_small; int_bounds).
assert (HP : assemble_P st [] [] [] = None).
{ apply (@assemble_P_surplus _ _ st st').
  - subst st. cbn [horizon_]. now rewrite Hih, Hh'.
  - subst st. cbn [obstacles_num_]. now rewrite Hin, Hn'.
  - subst st. cbn [obstacles_A_]. now rewrite HA'.
  - intros j Hj. subst st. cbn [obstacles_edges_num_].
    rewrite He', !coeff_column0. unfold edges2. cbn [coeffs].
    apply app_nth1. unfold size in Hsz. lia.
  - exact WF'.
  - reflexivity.
  - rewrite (wf_lambda WF'), He', Hh'. subst st. cbn [lambda_horizon_].
    rewrite Hsum2, Hih.
    rewrite iadd_small by int_bounds. rewrite imul_small by int_bounds.
    nia. }
split; [exact HP|]. intros h. unfold optimize, populate_data.
now rewrite HP.
Qed.

Lemma surplus_edge_counts_abort_witness :
  exists st,
    construct 1%N (slit 0) scene_ego (mkMatrix 3 1 [1; 2; 1]) 2%N scene_A
              scene_b scene_xWS = Some st /\
    assemble_P st [] [] [] = None /\
    forall h, optimize (H0 := OSQP_returning 1 scene_x) st h = None.
Proof.
apply (surplus_edge_counts_abort (H0 := OSQP_returning 1 scene_x) (slit 0)
         (extra := [1]) scene_valid).
- repeat constructor. vm_compute. discriminate.
- reflexivity.
- vm_compute. discriminate.
Defined.
